(** * golisp device layer: structure expansion, byte and JSON codecs, validation

    A shallow embedding of [github.com/steelseries/golisp/device.go].

    Conventions of the embedding.
    - Go's [int] (sizes, offsets, repeat counts, loop counters) is [Z].  The
      layouts handled here stay far below the width of a machine word, so the
      arithmetic on [int] is the arithmetic of [Z].
    - Go's [uint32], [uint16], [uint8] are [Z] too, and every conversion or
      operation that wraps in Go wraps here through [uint32], [uint16],
      [uint8] below.
    - A [*DeviceField] is an address ([ptr]) into a store of field
      definitions: several expanded fields share one definition, and
      validation writes to it.
    - A run-time panic of the Go program (index out of range, nil
      dereference) is the outcome [Panic]; recursion that the Go program
      bounds only by its call stack takes a recursion budget and runs into
      [OutOfFuel] when the budget is used up. *)

From stdpp Require Import base gmap list strings pretty.
From Stdlib Require Import ZArith Lia Ascii.

Local Open Scope Z_scope.

(** ** Outcomes of a Go call *)

Inductive res (A : Type) : Type :=
| Ok (a : A)
| Panic
| OutOfFuel.
Arguments Ok {A} a.
Arguments Panic {A}.
Arguments OutOfFuel {A}.

Global Instance res_ret : MRet res := @Ok.
Global Instance res_bind : MBind res := λ A B f m,
  match m with
  | Ok a => f a
  | Panic => Panic
  | OutOfFuel => OutOfFuel
  end.

(** [for _, x := range xs { s = body(s, x) }], stopping at the first panic. *)
Fixpoint for_each {A S : Type} (body : S → A → res S) (xs : list A) (s : S) : res S :=
  match xs with
  | [] => Ok s
  | x :: xs' => s' ← body s x; for_each body xs' s'
  end.

(** ** Fixed-width unsigned integers *)

Definition uint8 (z : Z) : Z := z `mod` 2 ^ 8.
Definition uint16 (z : Z) : Z := z `mod` 2 ^ 16.
Definition uint32 (z : Z) : Z := z `mod` 2 ^ 32.

(** ** Lisp data *)

(** Modelled from the spec: [*Data] is declared in the interpreter, outside
    [device.go].  The spec calls it "the generic nested key/array value
    representation"; the constructors below are the cons cells, numbers,
    strings and symbols that representation is made of.  [Nil] is the nil
    pointer. *)
Inductive Data : Type :=
| Nil
| Number (n : Z)
| StringData (s : string)
| Symbol (s : string)
| ConsCell (car cdr : Data).

(** Address of a [DeviceField] in the store of definitions. *)
Abbreviation ptr := nat (only parsing).

(** ** Schema model *)

Module Range.
Record t := mk { Lo : Z; Hi : Z }.

Definition Validate (self : t) (value : Z) : bool :=
  (value >=? Lo self) && (value <=? Hi self).
End Range.

Module Values.
Record t := mk { Vals : list Z }.

Definition AddValue (self : t) (value : Z) : t :=
  mk (Vals self ++ [value]).

Definition Validate (self : t) (value : Z) : bool :=
  existsb (λ v, v =? value) (Vals self).
End Values.

Module DeviceField.
Record t := mk {
  Name : string;
  TypeName : string;
  Size : Z;                               (* size of a single element, in bytes *)
  RepeatCount : Z;                        (* number of elements *)
  IsConstant : bool;
  Constant : Z;
  ValidRange : option Range.t;
  ValidValues : option Values.t;
  DeferredValidationCode : option Data;
  ToJsonTransform : option Data;
  FromJsonTransform : option Data
}.

Definition NewFieldWithCount (name typeName : string) (size count : Z) : t :=
  mk name typeName size count false 0 None None None None None.

Definition NewField (name typeName : string) (size : Z) : t :=
  mk name typeName size 1 false 0 None None None None None.

Definition TotalSize (self : t) : Z := Size self * RepeatCount self.

Definition set_rules (r : option Range.t) (v : option Values.t) (self : t) : t :=
  mk (Name self) (TypeName self) (Size self) (RepeatCount self)
     (IsConstant self) (Constant self) r v
     (DeferredValidationCode self) (ToJsonTransform self) (FromJsonTransform self).
End DeviceField.

Module DeviceStructure.
(** The back pointer [Parent] is left out: nothing below reads it. *)
Record t := mk {
  Name : string;
  Fields : list ptr;
  Size : Z
}.

Definition NewStructNamed (n : string) : t := mk n [] 0.

(** [AddField], given the definition [fd] that [f] points to. *)
Definition AddField (self : t) (f : ptr) (fd : DeviceField.t) : t :=
  mk (Name self) (Fields self ++ [f]) (Size self + DeviceField.TotalSize fd).

Definition SizeOf (self : t) : Z := Size self.
End DeviceStructure.

(** The store of field definitions; [deref] is Go's [*p]. *)
Definition deref (heap : list DeviceField.t) (p : ptr) : res DeviceField.t :=
  match heap !! p with
  | Some fd => Ok fd
  | None => Panic
  end.

(** ** Primitive type catalogue *)

Definition FieldSizeOf_atomic (typeName : string) : option Z :=
  if String.eqb typeName "uint8" then Some 1
  else if String.eqb typeName "uint16" then Some 2
  else if String.eqb typeName "uint32" then Some 4
  else None.

(** [FieldSizeOf]; [Global] maps a type name to the structure bound to it. *)
Definition FieldSizeOf (Global : gmap string DeviceStructure.t) (typeName : string) : res Z :=
  match FieldSizeOf_atomic typeName with
  | Some n => Ok n
  | None =>
      match Global !! typeName with
      | Some fieldType => Ok (DeviceStructure.SizeOf fieldType)
      | None => Panic
      end
  end.

Definition IsAtomic (f : DeviceField.t) : bool :=
  String.eqb (DeviceField.TypeName f) "uint8"
  || String.eqb (DeviceField.TypeName f) "uint16"
  || String.eqb (DeviceField.TypeName f) "uint32".

Definition AlignmentOf (fieldType : string) : Z :=
  if String.eqb fieldType "uint8" then 1
  else if String.eqb fieldType "uint16" then 2
  else if String.eqb fieldType "uint32" then 4
  else 1.

(** ** Expanded structures *)

Module ExpandedField.
Record t := mk {
  FieldDefinition : ptr;
  Path : string;
  Offset : Z;
  Value : Z;
  Size : Z
}.

Definition set_Value (v : Z) (self : t) : t :=
  mk (FieldDefinition self) (Path self) (Offset self) v (Size self).
End ExpandedField.

Module ExpandedStructure.
(** As for [DeviceStructure], [Parent] is left out. *)
Record t := mk {
  Name : string;
  Fields : list ExpandedField.t;
  Size : Z
}.
End ExpandedStructure.

(** ** Structure expansion *)

Section Expansion.
(** The definitions, and the structures the global environment binds. *)
Variable heap : list DeviceField.t.
Variable Global : gmap string DeviceStructure.t.

Definition paddingRequired (size alignment : Z) : Z :=
  if (size =? 0) || (Z.rem size alignment =? 0) then 0
  else alignment - Z.rem size alignment.

(** The atomic branch of [addExpandedField]: one leaf is appended. *)
Definition appendAtomic (self : ExpandedStructure.t) (p : ptr) (f : DeviceField.t)
    (path : string) : ExpandedStructure.t :=
  let alignment := AlignmentOf (DeviceField.TypeName f) in
  let offset := ExpandedStructure.Size self
                + paddingRequired (ExpandedStructure.Size self) alignment in
  let newField :=
    ExpandedField.mk p path offset
      (if DeviceField.IsConstant f then DeviceField.Constant f else 0)
      (DeviceField.Size f) in
  ExpandedStructure.mk (ExpandedStructure.Name self)
    (ExpandedStructure.Fields self ++ [newField])
    (offset + DeviceField.Size f).

Definition pathPart (f : DeviceField.t) (i : Z) : string :=
  if DeviceField.RepeatCount f >? 1
  then DeviceField.Name f +:+ "/" +:+ pretty i
  else DeviceField.Name f.

(** [fuel] bounds the depth of the calls, as the stack does in Go. *)
Fixpoint addExpandedField (fuel : nat) (self : ExpandedStructure.t) (p : ptr)
    (pathSoFar : string) {struct fuel} : res ExpandedStructure.t :=
  match fuel with
  | O => OutOfFuel
  | S fuel' =>
      f ← deref heap p;
      for_each
        (λ self i,
           let path := pathSoFar +:+ "/" +:+ pathPart f i in
           if IsAtomic f then Ok (appendAtomic self p f path)
           else
             match Global !! DeviceField.TypeName f with
             | Some s => addExpandedFields fuel' self (DeviceStructure.Fields s) path
             | None => Panic
             end)
        (seqZ 0 (DeviceField.RepeatCount f)) self
  end
with addExpandedFields (fuel : nat) (self : ExpandedStructure.t) (fields : list ptr)
    (pathSoFar : string) {struct fuel} : res ExpandedStructure.t :=
  match fuel with
  | O => OutOfFuel
  | S fuel' =>
      for_each (λ self p, addExpandedField fuel' self p pathSoFar) fields self
  end.

Definition Expand (fuel : nat) (self : DeviceStructure.t) : res ExpandedStructure.t :=
  let newStruct := ExpandedStructure.mk (DeviceStructure.Name self) [] 0 in
  addExpandedFields fuel newStruct (DeviceStructure.Fields self) EmptyString.
End Expansion.

(** ** Byte codec *)

(** Go's indexed store and load on a byte slice: out of range panics. *)
Definition store_byte (bytes : list Z) (index : Z) (b : Z) : res (list Z) :=
  if (0 <=? index) && (index <? Z.of_nat (length bytes))
  then Ok (<[Z.to_nat index := b]> bytes)
  else Panic.

Definition load_byte (bytes : list Z) (index : Z) : res Z :=
  if 0 <=? index
  then match bytes !! Z.to_nat index with
       | Some b => Ok b
       | None => Panic
       end
  else Panic.

(** Modelled from the spec: [addUint8ToByteArray], [addUint16ToByteArray] and
    [addUint32ToByteArray] are called by [AddFieldToByteArray] and defined in
    another file of the package.  The spec (4.3): the value "is written
    starting at [offset], one byte per increasing address, least-significant
    byte first (little-endian), for exactly [size] bytes". *)
Definition addUint8ToByteArray (val : Z) (offset : Z) (bytes : list Z) : res (list Z) :=
  store_byte bytes offset (Z.land val 255).

(** Modelled from the spec: [addUint16ToByteArray], two bytes, as above. *)
Definition addUint16ToByteArray (val : Z) (offset : Z) (bytes : list Z) : res (list Z) :=
  bytes ← store_byte bytes offset (Z.land val 255);
  store_byte bytes (offset + 1) (Z.land (Z.shiftr val 8) 255).

(** Modelled from the spec: [addUint32ToByteArray], four bytes, as above. *)
Definition addUint32ToByteArray (val : Z) (offset : Z) (bytes : list Z) : res (list Z) :=
  bytes ← store_byte bytes offset (Z.land val 255);
  bytes ← store_byte bytes (offset + 1) (Z.land (Z.shiftr val 8) 255);
  bytes ← store_byte bytes (offset + 2) (Z.land (Z.shiftr val 16) 255);
  store_byte bytes (offset + 3) (Z.land (Z.shiftr val 24) 255).

Section ByteCodec.
Variable heap : list DeviceField.t.

Definition AddFieldToByteArray (f : ExpandedField.t) (bytes : list Z) : res (list Z) :=
  fd ← deref heap (ExpandedField.FieldDefinition f);
  let typeName := DeviceField.TypeName fd in
  if String.eqb typeName "uint8"
  then addUint8ToByteArray (uint8 (ExpandedField.Value f)) (ExpandedField.Offset f) bytes
  else if String.eqb typeName "uint16"
  then addUint16ToByteArray (uint16 (ExpandedField.Value f)) (ExpandedField.Offset f) bytes
  else if String.eqb typeName "uint32"
  then addUint32ToByteArray (uint32 (ExpandedField.Value f)) (ExpandedField.Offset f) bytes
  else Ok bytes.

Definition make_bytes (n : Z) : res (list Z) :=
  if n <? 0 then Panic else Ok (replicate (Z.to_nat n) 0).

Definition ByteArray (self : ExpandedStructure.t) : res (list Z) :=
  bytes ← make_bytes (ExpandedStructure.Size self);
  for_each (λ bytes f, AddFieldToByteArray f bytes) (ExpandedStructure.Fields self) bytes.

(** One turn of the loop of [getValueForField]; the shift count is the
    [uint8] product [8*uint8(count)], and a [uint32] shifted left keeps its
    low 32 bits. *)
Definition or_byte (f : ExpandedField.t) (bytes : list Z) (b : Z) (count : Z) : res Z :=
  byte ← load_byte bytes (ExpandedField.Offset f + count);
  Ok (Z.lor b (uint32 (Z.shiftl (Z.land (uint32 byte) 255) (uint8 (8 * uint8 count))))).

Definition getValueForField (f : ExpandedField.t) (bytes : list Z) : res Z :=
  fd ← deref heap (ExpandedField.FieldDefinition f);
  if DeviceField.IsConstant fd then Ok (DeviceField.Constant fd)
  else for_each (or_byte f bytes) (seqZ 0 (ExpandedField.Size f)) 0.

Fixpoint populate_fields (fields : list ExpandedField.t) (bytes : list Z)
    : res (list ExpandedField.t) :=
  match fields with
  | [] => Ok []
  | f :: rest =>
      val ← getValueForField f bytes;
      rest' ← populate_fields rest bytes;
      Ok (ExpandedField.set_Value val f :: rest')
  end.

Definition PopulateFromBytes (self : ExpandedStructure.t) (bytes : list Z)
    : res ExpandedStructure.t :=
  fields ← populate_fields (ExpandedStructure.Fields self) bytes;
  Ok (ExpandedStructure.mk (ExpandedStructure.Name self) fields (ExpandedStructure.Size self)).
End ByteCodec.

(** ** Paths *)

(** [strings.Split(s, "/")]. *)
Fixpoint split_slash (s : string) : list string :=
  match s with
  | EmptyString => [EmptyString]
  | String c s' =>
      let r := split_slash s' in
      if Ascii.eqb c "/"%char then EmptyString :: r
      else match r with
           | h :: t => String c h :: t
           | [] => [String c EmptyString]
           end
  end.

Definition stepsFromPath (path : string) : list string :=
  drop 1 (split_slash path).

Definition digit_of (c : ascii) : option Z :=
  let n := Z.of_N (Ascii.N_of_ascii c) in
  if (48 <=? n) && (n <=? 57) then Some (n - 48) else None.

Fixpoint parse_digits (s : string) (acc : Z) : option Z :=
  match s with
  | EmptyString => Some acc
  | String c s' => d ← digit_of c; parse_digits s' (acc * 10 + d)
  end.

(** [strconv.ParseInt(s, 10, 32)]: an optional sign, then decimal digits, the
    value within 32 bits; [None] is a non-nil error. *)
Definition ParseInt (s : string) : option Z :=
  match s with
  | EmptyString => None
  | String c rest =>
      let neg := Ascii.eqb c "-"%char in
      let digits := if Ascii.eqb c "-"%char || Ascii.eqb c "+"%char then rest else s in
      match digits with
      | EmptyString => None
      | _ =>
          n ← parse_digits digits 0;
          let v := if neg then - n else n in
          if (- 2 ^ 31 <=? v) && (v <? 2 ^ 31) then Some v else None
      end
  end.

(** ** The collaborators

    The Lisp interpreter, the JSON reader, the command framing and the driver
    are outside [device.go].  The device layer is embedded over any
    implementation of them.  [L] is the state of the interpreter, the cons
    cells included: a primitive that reads a [Data] reads it in [L], and code
    that the interpreter runs may change [L].  A Go [error] is [Some] message,
    [None] for nil. *)

Definition error := option string.

(** Modelled from the spec: a [SymbolTableFrame] created by
    [NewSymbolTableFrameBelow(Global)] is a scope of its own under the global
    one; [BindLocallyTo] binds a name in it (6: the environment "must support
    binding a field name to a numeric value"). *)
Abbreviation SymbolTableFrame := (gmap string Data).

Definition NewSymbolTableFrameBelow : SymbolTableFrame := ∅.

Definition BindLocallyTo (name : string) (value : Data) (env : SymbolTableFrame)
    : SymbolTableFrame :=
  <[name := value]> env.

Module DeviceCommand.
(** Modelled from the spec: the write or read side of an API, with the
    command identifier handed to the driver. *)
Record t := mk { Cmd : Z }.
End DeviceCommand.

Module DeviceApi.
(** Modelled from the spec: "each API pairs a structure with read/write
    command framing". *)
Record t := mk {
  Name : string;
  Read : DeviceCommand.t;
  Write : DeviceCommand.t
}.
End DeviceApi.

Class Interpreter (L : Type) := {
  Assoc : L → Data → Data → Data * error;
  Cdr : L → Data → Data;
  Nth : L → Data → Z → Data;
  Caar : L → Data → Data;
  Cdar : L → Data → Data;
  NumericValue : L → Data → Z;
  StringValue : L → Data → string;
  JsonStringToLisp : string → L → Data * L;
  (** runs the transform of a field on a node and its parent *)
  TransformJson : Data → Data → Data → L → L;
  (** runs deferred validation code in a frame, with [CurrentField] set; the
      code may write to the field definitions and to the frame, which Go
      passes by reference *)
  Eval : Data → ptr → L * list DeviceField.t * SymbolTableFrame
         → error * (L * list DeviceField.t * SymbolTableFrame);
  (** [Global.BindTo] of the name [payload] to a byte buffer *)
  BindPayload : list Z → L → L;
  (** frames the payload bound to the global name [payload] *)
  SerializePayload : DeviceCommand.t → list Z → L → list Z
}.

Module DeviceDeclaration.
(** [Env] is left out: nothing below reads it. *)
Record t := mk {
  Name : string;
  Handle : Z;
  Structures : gmap string DeviceStructure.t;
  ExpandedStructures : gmap string ExpandedStructure.t;
  Apis : gmap string DeviceApi.t
}.

Definition set_ExpandedStructure (name : string) (s : ExpandedStructure.t) (self : t) : t :=
  mk (Name self) (Handle self) (Structures self)
     (<[name := s]> (ExpandedStructures self)) (Apis self).
End DeviceDeclaration.

(** One call of the driver's [Write]. *)
Record DriverWrite := mkDriverWrite {
  dw_handle : Z;
  dw_cmd : Z;
  dw_bytes : list Z;
  dw_length : Z
}.

(** Everything the device layer reads and writes besides its arguments.
    [evals] and [wire] are the calls made so far to [Eval] (the field
    definition and the frame passed) and to the driver. *)
Record World (L : Type) := mkWorld {
  lisp : L;
  defs : list DeviceField.t;
  CurrentField : option ptr;
  devices : gmap string DeviceDeclaration.t;
  evals : list (ptr * SymbolTableFrame);
  wire : list DriverWrite
}.
Arguments mkWorld {L}.
Arguments lisp {L}.
Arguments defs {L}.
Arguments CurrentField {L}.
Arguments devices {L}.
Arguments evals {L}.
Arguments wire {L}.

Section DeviceLayer.
Context {L : Type} {I : Interpreter L}.

(** ** Validation *)

Definition clear_rules (fieldDef : ptr) (defs : list DeviceField.t) : list DeviceField.t :=
  alter (DeviceField.set_rules None None) fieldDef defs.

(** [ExpandedField.Validate]; [fuel] bounds the depth of the calls.  The
    frame comes back with what the deferred code did to it. *)
Fixpoint ExpandedField_Validate (fuel : nat) (self : ExpandedField.t)
    (env : SymbolTableFrame) (w : World L) {struct fuel}
    : res (bool * SymbolTableFrame * World L) :=
  match fuel with
  | O => OutOfFuel
  | S fuel' =>
      let fieldDef := ExpandedField.FieldDefinition self in
      fd ← deref (defs w) fieldDef;
      if DeviceField.IsConstant fd then Ok (true, env, w)
      else
        match DeviceField.ValidRange fd with
        | Some r => Ok (Range.Validate r (ExpandedField.Value self), env, w)
        | None =>
        match DeviceField.ValidValues fd with
        | Some v => Ok (Values.Validate v (ExpandedField.Value self), env, w)
        | None =>
        match DeviceField.DeferredValidationCode fd with
        | Some code =>
            let '(err, (l', defs', env')) := Eval code fieldDef (lisp w, defs w, env) in
            let w1 := mkWorld l' defs' (Some fieldDef) (devices w)
                        (evals w ++ [(fieldDef, env)]) (wire w) in
            match err with
            | Some _ => Ok (false, env', w1)
            | None =>
                '(result, env'', w2) ← ExpandedField_Validate fuel' self env' w1;
                Ok (result, env'',
                    mkWorld (lisp w2) (clear_rules fieldDef (defs w2)) (CurrentField w2)
                      (devices w2) (evals w2) (wire w2))
            end
        | None => Ok (true, env, w)
        end
        end
        end
  end.

(** The loop of [ExpandedStructure.Validate], from a frame [env] on. *)
Fixpoint validate_fields (fuel : nat) (fields : list ExpandedField.t)
    (env : SymbolTableFrame) (w : World L) : res (bool * World L) :=
  match fields with
  | [] => Ok (true, w)
  | field :: rest =>
      fd ← deref (defs w) (ExpandedField.FieldDefinition field);
      let env := BindLocallyTo (DeviceField.Name fd) (Number (ExpandedField.Value field)) env in
      '(ok, env, w) ← ExpandedField_Validate fuel field env w;
      if negb ok then Ok (false, w)
      else validate_fields fuel rest env w
  end.

Definition ExpandedStructure_Validate (fuel : nat) (self : ExpandedStructure.t)
    (w : World L) : res (bool * World L) :=
  let env := NewSymbolTableFrameBelow in
  validate_fields fuel (ExpandedStructure.Fields self) env w.

(** ** Populating from JSON *)

Fixpoint extractValueFromJsonWithStepAndParent (heap : list DeviceField.t)
    (self : ExpandedField.t) (json : Data) (steps : list string) (parentNode : Data)
    (l : L) : res (ExpandedField.t * L) :=
  fd ← deref heap (ExpandedField.FieldDefinition self);
  if DeviceField.IsConstant fd then Ok (self, l)
  else
    let l := match DeviceField.FromJsonTransform fd with
             | Some transform => TransformJson transform json parentNode l
             | None => l
             end in
    match steps with
    | [] => Ok (ExpandedField.set_Value (uint32 (NumericValue l json)) self, l)
    | step :: steps' =>
        match ParseInt step with
        | None =>
            (* a hash key *)
            let '(value, err) := Assoc l (StringData step) json in
            match err with
            | None => extractValueFromJsonWithStepAndParent heap self (Cdr l value) steps' json l
            | Some _ => Ok (self, l)
            end
        | Some i =>
            (* an array index *)
            extractValueFromJsonWithStepAndParent heap self (Nth l json (i + 1)) steps' json l
        end
    end.

Definition extractValueFromJson (heap : list DeviceField.t) (self : ExpandedField.t)
    (alist : Data) (l : L) : res (ExpandedField.t * L) :=
  extractValueFromJsonWithStepAndParent heap self alist
    (stepsFromPath (ExpandedField.Path self)) Nil l.

Fixpoint populate_json (heap : list DeviceField.t) (fields : list ExpandedField.t)
    (jsonData : Data) (l : L) : res (list ExpandedField.t * L) :=
  match fields with
  | [] => Ok ([], l)
  | field :: rest =>
      '(field', l) ← extractValueFromJson heap field jsonData l;
      '(rest', l) ← populate_json heap rest jsonData l;
      Ok (field' :: rest', l)
  end.

Definition PopulateFromJson (heap : list DeviceField.t) (self : ExpandedStructure.t)
    (jsonData : Data) (l : L) : res (ExpandedStructure.t * L) :=
  '(fields, l) ← populate_json heap (ExpandedStructure.Fields self) jsonData l;
  Ok (ExpandedStructure.mk (ExpandedStructure.Name self) fields
        (ExpandedStructure.Size self), l).

(** ** Writing to a device *)

Definition getDeviceNamed (deviceName : string) (w : World L) : option DeviceDeclaration.t :=
  devices w !! deviceName.

Definition WriteToDevice (fuel : nat) (deviceName jsonString : string) (w : World L)
    : res (World L) :=
  match getDeviceNamed deviceName w with
  | None => Panic
  | Some device =>
      let '(json, l) := JsonStringToLisp jsonString (lisp w) in
      let apiName := StringValue l (Caar l json) in
      let jsonData := Cdar l json in
      let api := DeviceDeclaration.Apis device !! apiName in
      match DeviceDeclaration.ExpandedStructures device !! apiName with
      | None => Panic
      | Some structure =>
          '(structure, l) ← PopulateFromJson (defs w) structure jsonData l;
          let device := DeviceDeclaration.set_ExpandedStructure apiName structure device in
          let w := mkWorld l (defs w) (CurrentField w)
                     (<[deviceName := device]> (devices w)) (evals w) (wire w) in
          '(_, w) ← ExpandedStructure_Validate fuel structure w;
          bytes ← ByteArray (defs w) structure;
          let l := BindPayload bytes (lisp w) in
          match api with
          | None => Panic
          | Some api =>
              let writeCmd := DeviceApi.Write api in
              let bytes := SerializePayload writeCmd bytes l in
              Ok (mkWorld l (defs w) (CurrentField w) (devices w) (evals w)
                    (wire w ++ [mkDriverWrite (DeviceDeclaration.Handle device)
                                  (DeviceCommand.Cmd writeCmd) bytes
                                  (uint32 (Z.of_nat (length bytes)))]))
          end
      end
  end.
End DeviceLayer.

(** ** The layout rule in the words of the spec (4.2)

    "compute [padding = 0] if [size == 0 or size % alignment == 0], else
    [alignment - (size % alignment)]; the element's [offset = size + padding];
    [...] advance [size = offset + elementSize]". *)

Definition spec_padding (size alignment : Z) : Z :=
  if (size =? 0) || (size `mod` alignment =? 0) then 0
  else alignment - size `mod` alignment.

(** The offsets of a sequence of elements, each given by its alignment and
    its size, from a cursor [size] on, and the cursor at the end. *)
Fixpoint spec_layout (size : Z) (elements : list (Z * Z)) : list Z * Z :=
  match elements with
  | [] => ([], size)
  | (alignment, elementSize) :: rest =>
      let offset := size + spec_padding size alignment in
      let '(offsets, final) := spec_layout (offset + elementSize) rest in
      (offset :: offsets, final)
  end.

(** Alignment and size of a leaf, the alignment looked up through the
    definition the leaf points to. *)
Definition element_of (heap : list DeviceField.t) (f : ExpandedField.t) : Z * Z :=
  (match heap !! ExpandedField.FieldDefinition f with
   | Some fd => AlignmentOf (DeviceField.TypeName fd)
   | None => 1
   end,
   ExpandedField.Size f).

(** ** Well-formed schemas and layouts *)

(** A definition of primitive type carries the size of its type, as
    [FieldSizeOf] gives it. *)
Definition field_sized (fd : DeviceField.t) : bool :=
  match FieldSizeOf_atomic (DeviceField.TypeName fd) with
  | Some n => DeviceField.Size fd =? n
  | None => true
  end.

Definition well_sized (heap : list DeviceField.t) : Prop :=
  forallb field_sized heap = true.

(** The sizes of the primitive definitions are not negative. *)
Definition sizes_nonneg (heap : list DeviceField.t) : Prop :=
  forallb (λ fd, negb (IsAtomic fd) || (0 <=? DeviceField.Size fd)) heap = true.

(** [fields] lie one after the other from [cursor] on, none empty, and end
    at [final]. *)
Fixpoint laid_out (cursor : Z) (fields : list ExpandedField.t) (final : Z) : Prop :=
  match fields with
  | [] => final = cursor
  | f :: rest =>
      cursor ≤ ExpandedField.Offset f ∧ 0 < ExpandedField.Size f
      ∧ laid_out (ExpandedField.Offset f + ExpandedField.Size f) rest final
  end.

(** A leaf points to a primitive definition and has the width of its type. *)
Definition leaf_ok (heap : list DeviceField.t) (f : ExpandedField.t) : Prop :=
  ∃ fd, heap !! ExpandedField.FieldDefinition f = Some fd
        ∧ FieldSizeOf_atomic (DeviceField.TypeName fd) = Some (ExpandedField.Size f).

(** Offset plus size of the last field, 0 when there is none. *)
Definition end_of_last (fields : list ExpandedField.t) : Z :=
  match last fields with
  | Some f => ExpandedField.Offset f + ExpandedField.Size f
  | None => 0
  end.

(** The structure of the alignment test of the spec (8): four fields of sizes
    1, 4, 2, 1. *)
Definition align_heap : list DeviceField.t :=
  [ DeviceField.NewField "a" "uint8" 1;
    DeviceField.NewField "b" "uint32" 4;
    DeviceField.NewField "c" "uint16" 2;
    DeviceField.NewField "d" "uint8" 1 ].

Definition align_struct : DeviceStructure.t :=
  DeviceStructure.mk "aligned" [0; 1; 2; 3]%nat 8.

(** Every field of [fields] is defined, and is primitive or names a
    structure bound in [Global] whose fields are so in turn, to a nesting of
    at most [depth] structures. *)
Fixpoint resolves (heap : list DeviceField.t) (Global : gmap string DeviceStructure.t)
    (depth : nat) (fields : list ptr) : bool :=
  forallb (λ p,
    match heap !! p with
    | None => false
    | Some f =>
        IsAtomic f ||
        match depth, Global !! DeviceField.TypeName f with
        | S d, Some s => resolves heap Global d (DeviceStructure.Fields s)
        | _, _ => false
        end
    end) fields.

(** ** What the byte codec is expected to do *)

(** The [k]-th byte of the image of a field: its value cut to the width of
    the field, least significant byte first. *)
Definition field_image (f : ExpandedField.t) (k : Z) : Z :=
  Z.land (Z.shiftr (ExpandedField.Value f `mod` 2 ^ (8 * ExpandedField.Size f)) (8 * k)) 255.

(** [bytes] carries the image of [f] at the offset of [f]. *)
Definition holds (bytes : list Z) (f : ExpandedField.t) : Prop :=
  ∀ k, 0 ≤ k < ExpandedField.Size f →
       bytes !! Z.to_nat (ExpandedField.Offset f + k) = Some (field_image f k).

(** An expanded structure as expansion builds them: leaves of primitive
    type, one after the other from offset 0 up to the size of the
    structure. *)
Definition well_laid (heap : list DeviceField.t) (es : ExpandedStructure.t) : Prop :=
  laid_out 0 (ExpandedStructure.Fields es) (ExpandedStructure.Size es)
  ∧ Forall (leaf_ok heap) (ExpandedStructure.Fields es).

(** The value a field has after its image is read back. *)
Definition restored (heap : list DeviceField.t) (f : ExpandedField.t) : Z :=
  match heap !! ExpandedField.FieldDefinition f with
  | Some fd =>
      if DeviceField.IsConstant fd then DeviceField.Constant fd
      else ExpandedField.Value f `mod` 2 ^ (8 * ExpandedField.Size f)
  | None => ExpandedField.Value f
  end.

(** ** A plain interpreter, for running the device layer on concrete input

    Documents are association lists of cons cells, arrays are lists, a key
    that is not in an association list is an error of [Assoc], no code is
    run by transforms, and framing leaves the payload as it is.  The parsed
    document and the evaluator of deferred code are given. *)

Fixpoint Data_eqb (a b : Data) : bool :=
  match a, b with
  | Nil, Nil => true
  | Number m, Number n => m =? n
  | StringData s, StringData t => String.eqb s t
  | Symbol s, Symbol t => String.eqb s t
  | ConsCell a1 a2, ConsCell b1 b2 => Data_eqb a1 b1 && Data_eqb a2 b2
  | _, _ => false
  end.

Fixpoint alist_assoc (key alist : Data) : Data * error :=
  match alist with
  | ConsCell (ConsCell k v) rest =>
      if Data_eqb k key then (ConsCell k v, None) else alist_assoc key rest
  | _ => (Nil, Some "key not found")
  end.

Definition list_car (d : Data) : Data :=
  match d with ConsCell a _ => a | _ => Nil end.

Definition list_cdr (d : Data) : Data :=
  match d with ConsCell _ b => b | _ => Nil end.

(** The [n]-th element of a list, counted from 1. *)
Fixpoint list_nth (d : Data) (n : nat) : Data :=
  match d, n with
  | ConsCell a _, 1%nat => a
  | ConsCell _ rest, S n' => list_nth rest n'
  | _, _ => Nil
  end.

Definition plain_interpreter (doc : Data)
    (eval : Data → ptr → unit * list DeviceField.t * SymbolTableFrame
            → error * (unit * list DeviceField.t * SymbolTableFrame))
    : Interpreter unit :=
  {| Assoc := λ _ key alist, alist_assoc key alist;
     Cdr := λ _ d, list_cdr d;
     Nth := λ _ d n, list_nth d (Z.to_nat n);
     Caar := λ _ d, list_car (list_car d);
     Cdar := λ _ d, list_cdr (list_car d);
     NumericValue := λ _ d, match d with Number n => n | _ => 0 end;
     StringValue := λ _ d, match d with StringData s | Symbol s => s | _ => EmptyString end;
     JsonStringToLisp := λ _ l, (doc, l);
     TransformJson := λ _ _ _ l, l;
     Eval := eval;
     BindPayload := λ _ l, l;
     SerializePayload := λ _ payload _, payload |}.

(** Deferred code that does nothing. *)
Definition eval_nothing (code : Data) (p : ptr)
    (s : unit * list DeviceField.t * SymbolTableFrame)
    : error * (unit * list DeviceField.t * SymbolTableFrame) :=
  (None, s).

(** A JSON object as an association list. *)
Definition json_object (members : list (string * Data)) : Data :=
  foldr (λ m rest, ConsCell (ConsCell (StringData m.1) m.2) rest) Nil members.

(** ** The end-to-end example of the spec (8): [{status: uint8, value: uint16}] *)

Definition sv_heap : list DeviceField.t :=
  [ DeviceField.NewField "status" "uint8" 1;
    DeviceField.NewField "value" "uint16" 2 ].

Definition sv_struct : DeviceStructure.t :=
  DeviceStructure.mk "api" [0; 1]%nat 3.

Definition sv_json : Data :=
  json_object [("status", Number 1); ("value", Number 300)].

(** Expansion, population from the document, serialization; the result is
    the byte buffer and the offsets of the fields. *)
Definition sv_run : res (list Z * list Z) :=
  es ← Expand sv_heap ∅ 2 sv_struct;
  '(es, _) ← PopulateFromJson (I := plain_interpreter Nil eval_nothing)
               sv_heap es sv_json ();
  bytes ← ByteArray sv_heap es;
  Ok (bytes, ExpandedField.Offset <$> ExpandedStructure.Fields es).

(** ** A one-byte field given a value wider than a byte *)

Definition narrow_heap : list DeviceField.t :=
  [ DeviceField.NewField "level" "uint8" 1 ].

Definition narrow_struct : DeviceStructure.t :=
  DeviceStructure.mk "narrow" [0]%nat 1.

(** The expansion of [narrow_struct], with a given value of its field. *)
Definition narrow_expanded (v : Z) : ExpandedStructure.t :=
  ExpandedStructure.mk "narrow" [ExpandedField.mk 0%nat "/level" 0 v 1] 1.

(** ** Keys that a document does not have *)




(** ** A constant field and a field with a value, for concrete runs *)

Definition tag_def : DeviceField.t :=
  DeviceField.mk "tag" "uint8" 1 1 true 7 None None None None None.

Definition tagged_heap : list DeviceField.t :=
  [ tag_def; DeviceField.NewField "level" "uint8" 1 ].

Definition tag_leaf (v : Z) : ExpandedField.t :=
  ExpandedField.mk 0%nat "/tag" 0 v 1.

Definition level_leaf (v : Z) : ExpandedField.t :=
  ExpandedField.mk 1%nat "/level" 1 v 1.

(** The expansion of the structure of these two fields, with given values. *)
Definition tagged_expanded (tag level : Z) : ExpandedStructure.t :=
  ExpandedStructure.mk "tagged" [ tag_leaf tag; level_leaf level ] 2.


(** ** Deferred rules, for stating what validation does *)

(** The verdict of the rules attached to a definition on a value: the range
    first, then the value set; [None] when neither is attached. *)
Definition verdict (r : option Range.t) (v : option Values.t) (value : Z) : option bool :=
  match r, v with
  | Some r, _ => Some (Range.Validate r value)
  | None, Some v => Some (Values.Validate v value)
  | None, None => None
  end.




Section Evaluators.
Context {L : Type} {I : Interpreter L}.


End Evaluators.

(** Deferred code that attaches [Range{lo: 2, hi: 4}] to the current field. *)
Definition eval_attach_range (code : Data) (p : ptr)
    (s : unit * list DeviceField.t * SymbolTableFrame)
    : error * (unit * list DeviceField.t * SymbolTableFrame) :=
  (None, (s.1.1, alter (DeviceField.set_rules (Some (Range.mk 2 4)) None) p s.1.2, s.2)).

(** A field [a] with a deferred rule, followed by a plain field [b]. *)
Definition deferred_def : DeviceField.t :=
  DeviceField.mk "a" "uint8" 1 1 false 0 None None (Some (Symbol "limit")) None None.

Definition deferred_heap : list DeviceField.t :=
  [ deferred_def; DeviceField.NewField "b" "uint8" 1 ].

Definition deferred_leaf : ExpandedField.t :=
  ExpandedField.mk 0%nat "/a" 0 3 1.


Definition deferred_world : World unit :=
  mkWorld () deferred_heap None ∅ [] [].

(** Two validations of the field [a], one after the other: the two verdicts,
    and the number of evaluations of the deferred code after each. *)
Definition validate_twice : res (bool * bool * nat * nat) :=
  '(b1, _, w1) ← ExpandedField_Validate (I := plain_interpreter Nil eval_attach_range)
                   2 deferred_leaf ∅ deferred_world;
  '(b2, _, w2) ← ExpandedField_Validate (I := plain_interpreter Nil eval_attach_range)
                   2 deferred_leaf ∅ w1;
  Ok (b1, b2, length (evals w1), length (evals w2)).



(** Deferred code that binds the name [c] in the frame and attaches
    [Range{lo: 0, hi: 10}] to the current field. *)
Definition eval_define_c (code : Data) (p : ptr)
    (s : unit * list DeviceField.t * SymbolTableFrame)
    : error * (unit * list DeviceField.t * SymbolTableFrame) :=
  (None, (s.1.1, alter (DeviceField.set_rules (Some (Range.mk 0 10)) None) p s.1.2,
          BindLocallyTo "c" (Number 0) s.2)).

(** Two fields [a] and [b] with a deferred rule each, then a plain field
    [c]; their leaves hold 3, 9 and 1. *)
Definition scoped_heap : list DeviceField.t :=
  [ deferred_def;
    DeviceField.mk "b" "uint8" 1 1 false 0 None None (Some (Symbol "limit")) None None;
    DeviceField.NewField "c" "uint8" 1 ].

Definition scoped_expanded : ExpandedStructure.t :=
  ExpandedStructure.mk "scoped"
    [ deferred_leaf; ExpandedField.mk 1%nat "/b" 1 9 1; ExpandedField.mk 2%nat "/c" 2 1 1 ] 3.

Definition scoped_world : World unit :=
  mkWorld () scoped_heap None ∅ [] [].

(** The calls of [Eval] in a validation of [scoped_expanded] with deferred
    code that binds [c]: for each, the field definition and what the frame
    binds to [c]. *)
Definition validate_scoped_frames : res (list (ptr * option Data)) :=
  '(_, w) ← ExpandedStructure_Validate (I := plain_interpreter Nil eval_define_c)
              2 scoped_expanded scoped_world;
  Ok ((λ call, (call.1, call.2 !! "c")) <$> evals w).

(** ** A device with a ranged field, for running [WriteToDevice] *)

(** One [uint8] field [level] with the rule [Range{lo: 0, hi: 10}]. *)
Definition ranged_heap : list DeviceField.t :=
  [ DeviceField.mk "level" "uint8" 1 1 false 0 (Some (Range.mk 0 10)) None None None None ].

Definition ranged_expanded (v : Z) : ExpandedStructure.t :=
  ExpandedStructure.mk "set-level" [ExpandedField.mk 0%nat "/level" 0 v 1] 1.

Definition ranged_device : DeviceDeclaration.t :=
  DeviceDeclaration.mk "lamp" 5
    {[ "set-level" := DeviceStructure.mk "set-level" [0%nat] 1 ]}
    {[ "set-level" := ranged_expanded 0 ]}
    {[ "set-level" := DeviceApi.mk "set-level" (DeviceCommand.mk 1) (DeviceCommand.mk 2) ]}.

Definition ranged_world : World unit :=
  mkWorld () ranged_heap None {[ "lamp" := ranged_device ]} [] [].

(** The document [{"set-level": {"level": 11}}], as the JSON reader hands
    it over. *)
Definition level_11 : Data :=
  json_object [("set-level", json_object [("level", Number 11)])].

(** The calls of the driver after [WriteToDevice] on that document. *)
Definition write_level_11 : res (list DriverWrite) :=
  w ← WriteToDevice (I := plain_interpreter level_11 eval_nothing)
        2 "lamp" EmptyString ranged_world;
  Ok (wire w).

(** The verdict of validation on the structure as that document populates
    it. *)
Definition validate_level_11 : res bool :=
  '(es, _) ← PopulateFromJson (I := plain_interpreter level_11 eval_nothing)
               ranged_heap (ranged_expanded 0) (json_object [("level", Number 11)]) ();
  '(ok, _) ← ExpandedStructure_Validate (I := plain_interpreter level_11 eval_nothing)
               2 es ranged_world;
  Ok ok.

(** Two leaves at the same place: same definition, offset and size. *)
Definition same_place (f g : ExpandedField.t) : Prop :=
  ExpandedField.FieldDefinition g = ExpandedField.FieldDefinition f
  ∧ ExpandedField.Offset g = ExpandedField.Offset f
  ∧ ExpandedField.Size g = ExpandedField.Size f.

(** ** The leaves of a structure in the words of the spec (4.2)

    "processing fields in declaration order [...] for each field, iterate its
    [repeatCount] elements"; a primitive field gives one leaf per element, a
    field of structure type the leaves of that structure per element.
    [depth] bounds the nesting as the recursion budget of [addExpandedField]
    does. *)
Fixpoint leaves_of_field (heap : list DeviceField.t) (Global : gmap string DeviceStructure.t)
    (depth : nat) (p : ptr) {struct depth} : list ptr :=
  match depth with
  | O => []
  | S d =>
      match heap !! p with
      | None => []
      | Some f =>
          let count := Z.to_nat (DeviceField.RepeatCount f) in
          if IsAtomic f then replicate count p
          else match Global !! DeviceField.TypeName f with
               | Some s =>
                   concat (replicate count
                     (leaves_of_fields heap Global d (DeviceStructure.Fields s)))
               | None => []
               end
      end
  end
with leaves_of_fields (heap : list DeviceField.t) (Global : gmap string DeviceStructure.t)
    (depth : nat) (fields : list ptr) {struct depth} : list ptr :=
  match depth with
  | O => []
  | S d => concat (leaves_of_field heap Global d <$> fields)
  end.

(** ** Declaring a structure *)

(** [IsValidType]: a primitive type name, or a name bound in [Global] to a
    structure of that name. *)
Definition IsValidType (Global : gmap string DeviceStructure.t) (typeName : string) : bool :=
  if String.eqb typeName "uint8" || String.eqb typeName "uint16"
     || String.eqb typeName "uint32"
  then true
  else match Global !! typeName with
       | Some fieldType => String.eqb (DeviceStructure.Name fieldType) typeName
       | None => false
       end.

(** A structure as [NewStructNamed] and one [AddField] per field build it. *)
Definition declare (heap : list DeviceField.t) (name : string) (fields : list ptr)
    : res DeviceStructure.t :=
  for_each (λ s p, fd ← deref heap p; Ok (DeviceStructure.AddField s p fd))
    fields (DeviceStructure.NewStructNamed name).

(** A primitive field repeated three times, between two plain fields. *)
Definition repeated_heap : list DeviceField.t :=
  [ DeviceField.NewField "head" "uint8" 1;
    DeviceField.NewFieldWithCount "item" "uint16" 2 3;
    DeviceField.mk "tail" "uint32" 4 1 true 9 None None None None None ].

Definition repeated_struct : DeviceStructure.t :=
  DeviceStructure.mk "repeated" [0; 1; 2]%nat 11.

(** A structure with a field of its own type. *)
Definition knot_heap : list DeviceField.t :=
  [ DeviceField.NewField "next" "knot" 1 ].

Definition knot_struct : DeviceStructure.t :=
  DeviceStructure.mk "knot" [0%nat] 1.

(** A structure with a field of a type that nothing declares. *)
Definition dangling_heap : list DeviceField.t :=
  [ DeviceField.NewField "who" "nobody" 1 ].

Definition dangling_struct : DeviceStructure.t :=
  DeviceStructure.mk "dangling" [0%nat] 1.

(** A structure nested in another: [pair] holds two [uint16], and [outer]
    holds a byte and two [pair]s. *)
Definition nested_heap : list DeviceField.t :=
  [ DeviceField.NewField "x" "uint16" 2;
    DeviceField.NewField "y" "uint16" 2;
    DeviceField.NewField "kind" "uint8" 1;
    DeviceField.NewFieldWithCount "points" "pair" 4 2 ].

Definition pair_struct : DeviceStructure.t :=
  DeviceStructure.mk "pair" [0; 1]%nat 4.

Definition outer_struct : DeviceStructure.t :=
  DeviceStructure.mk "outer" [2; 3]%nat 9.

Definition nested_global : gmap string DeviceStructure.t :=
  {[ "pair" := pair_struct ]}.

(** ** Little-endian numbers *)

(** The number whose bytes, least significant first, are [bs]. *)
Definition le_value (bs : list Z) : Z :=
  foldr (λ b acc, b + 256 * acc) 0 bs.

(** The bytes of a buffer that a field covers. *)
Definition field_bytes (f : ExpandedField.t) (bytes : list Z) : list Z :=
  take (Z.to_nat (ExpandedField.Size f)) (drop (Z.to_nat (ExpandedField.Offset f)) bytes).

(** The value a field takes from a buffer: the constant of a constant field,
    and else the little-endian number at the place of the field. *)
Definition decoded (heap : list DeviceField.t) (bytes : list Z) (f : ExpandedField.t) : Z :=
  match heap !! ExpandedField.FieldDefinition f with
  | Some fd =>
      if DeviceField.IsConstant fd then DeviceField.Constant fd
      else le_value (field_bytes f bytes)
  | None => ExpandedField.Value f
  end.

(** Every element of a buffer is a byte. *)
Definition all_bytes (bytes : list Z) : Prop :=
  Forall (λ b, 0 ≤ b < 256) bytes.

(** ** Validation without deferred code *)

(** What [ExpandedField.Validate] answers for a field whose definition, when
    it is not constant, carries a range, a value set or nothing. *)
Definition rule_verdict (defs : list DeviceField.t) (f : ExpandedField.t) : bool :=
  match defs !! ExpandedField.FieldDefinition f with
  | Some fd =>
      DeviceField.IsConstant fd
      || match verdict (DeviceField.ValidRange fd) (DeviceField.ValidValues fd)
                 (ExpandedField.Value f) with
         | Some b => b
         | None => true
         end
  | None => false
  end.

(** The definition of a field exists and evaluates no deferred code: it is
    constant, or it has a range or a value set, or no deferred rule. *)
Definition plain_rule (defs : list DeviceField.t) (f : ExpandedField.t) : bool :=
  match defs !! ExpandedField.FieldDefinition f with
  | Some fd =>
      DeviceField.IsConstant fd
      || bool_decide (is_Some (DeviceField.ValidRange fd))
      || bool_decide (is_Some (DeviceField.ValidValues fd))
      || bool_decide (DeviceField.DeferredValidationCode fd = None)
  | None => false
  end.

(** Deferred code that fails after it attached [Range{lo: 2, hi: 4}]. *)
Definition eval_attach_and_fail (code : Data) (p : ptr)
    (s : unit * list DeviceField.t * SymbolTableFrame)
    : error * (unit * list DeviceField.t * SymbolTableFrame) :=
  (Some "failed",
   (s.1.1, alter (DeviceField.set_rules (Some (Range.mk 2 4)) None) p s.1.2, s.2)).

(** Three fields: a constant, a ranged field, a field with a value set. *)
Definition ruled_heap : list DeviceField.t :=
  [ DeviceField.mk "magic" "uint8" 1 1 true 66 (Some (Range.mk 0 1)) None None None None;
    DeviceField.mk "level" "uint8" 1 1 false 0 (Some (Range.mk 0 10)) None None None None;
    DeviceField.mk "mode" "uint8" 1 1 false 0 None (Some (Values.mk [1; 3; 5])) None None None ].

Definition ruled_expanded (level mode : Z) : ExpandedStructure.t :=
  ExpandedStructure.mk "ruled"
    [ ExpandedField.mk 0%nat "/magic" 0 66 1;
      ExpandedField.mk 1%nat "/level" 1 level 1;
      ExpandedField.mk 2%nat "/mode" 2 mode 1 ] 3.

Definition ruled_world : World unit :=
  mkWorld () ruled_heap None ∅ [] [].

(** ** Paths and their steps *)

(** No character of the string is a slash. *)
Fixpoint slash_free (s : string) : bool :=
  match s with
  | EmptyString => true
  | String c s' => negb (Ascii.eqb c "/"%char) && slash_free s'
  end.

(** The path that expansion builds from the root for a sequence of
    segments: a slash before every segment. *)
Definition join_path (steps : list string) : string :=
  foldr (λ step rest, "/" +:+ step +:+ rest) EmptyString steps.

(** A document [{name: [e1, e2, e3]}] for runs of the plain interpreter. *)
Definition json_array (elements : list Data) : Data :=
  foldr ConsCell Nil elements.

(** ** Declarations of devices *)

(** [NewDeviceNamed] makes the two maps of structures, empty; [Handle] has
    the zero value and [Apis] is left nil, which reads as an empty map. *)
Definition NewDeviceNamed (n : string) : DeviceDeclaration.t :=
  DeviceDeclaration.mk n 0 ∅ ∅ ∅.

Definition AddStructure (s : DeviceStructure.t) (self : DeviceDeclaration.t)
    : DeviceDeclaration.t :=
  DeviceDeclaration.mk (DeviceDeclaration.Name self) (DeviceDeclaration.Handle self)
    (<[DeviceStructure.Name s := s]> (DeviceDeclaration.Structures self))
    (DeviceDeclaration.ExpandedStructures self) (DeviceDeclaration.Apis self).

(** [DeviceDeclaration.Expand].  Go ranges over the map [self.Structures] in
    an order that it does not fix: [order] is the order of one run, the
    structures of the map one after the other. *)
Definition DeviceDeclaration_Expand (heap : list DeviceField.t)
    (Global : gmap string DeviceStructure.t) (fuel : nat)
    (order : list DeviceStructure.t) (self : DeviceDeclaration.t)
    : res DeviceDeclaration.t :=
  for_each
    (λ self s,
       es ← Expand heap Global fuel s;
       Ok (DeviceDeclaration.set_ExpandedStructure (DeviceStructure.Name s) es self))
    order self.

(** The device of the structures [pair] and [outer]. *)
Definition nested_device : DeviceDeclaration.t :=
  AddStructure outer_struct (AddStructure pair_struct (NewDeviceNamed "nested")).

(** * Facts *)

(** ** The outcome monad and loops *)

Lemma bind_Ok {A B : Type} (m : res A) (k : A → res B) (b : B) :
  m ≫= k = Ok b → ∃ a, m = Ok a ∧ k a = Ok b.
Proof. destruct m as [a| |]; simpl; intros H; try discriminate. eauto. Qed.

Ltac inv_bind H :=
  let a := fresh "a" in
  let Ha := fresh "Ha" in
  apply bind_Ok in H as (a & Ha & H).

Lemma for_each_app {A S : Type} (body : S → A → res S) (xs ys : list A) (s : S) :
  for_each body (xs ++ ys) s = for_each body xs s ≫= for_each body ys.
Proof.
  revert s. induction xs as [|x xs IH]; intros s; simpl; [done|].
  destruct (body s x) as [s'| |]; simpl; auto.
Qed.

Lemma for_each_preserves {A S : Type} (P : S → Prop) (body : S → A → res S) (xs : list A) :
  (∀ s x s', x ∈ xs → P s → body s x = Ok s' → P s') →
  ∀ s s', P s → for_each body xs s = Ok s' → P s'.
Proof.
  induction xs as [|x xs IH]; intros Hbody s s' Hs H; simpl in H.
  - congruence.
  - inv_bind H. eapply IH; [| |exact H].
    + intros ? ? ? Hin. apply Hbody. by right.
    + eapply Hbody; [left|exact Hs|exact Ha].
Qed.

(** ** Expansion keeps what every appended leaf keeps *)

Section ExpansionFacts.
Variable heap : list DeviceField.t.
Variable Global : gmap string DeviceStructure.t.

Variable P : ExpandedStructure.t → Prop.
Hypothesis P_append : ∀ self p f path,
  heap !! p = Some f → IsAtomic f = true → P self → P (appendAtomic self p f path).

Lemma expansion_preserves (fuel : nat) :
  (∀ self p path es',
     P self → addExpandedField heap Global fuel self p path = Ok es' → P es')
  ∧ (∀ self fields path es',
     P self → addExpandedFields heap Global fuel self fields path = Ok es' → P es').
Proof.
  induction fuel as [|fuel [IHf IHfs]]; [split; intros; discriminate|].
  split.
  - intros self p path es' Hself H. simpl in H. inv_bind H.
    unfold deref in Ha. destruct (heap !! p) as [f|] eqn:Hp; [|discriminate].
    injection Ha as <-.
    revert H. apply for_each_preserves; [|exact Hself].
    intros s i s' _ Hs Hstep.
    destruct (IsAtomic f) eqn:Hat.
    + injection Hstep as <-. by apply P_append.
    + destruct (Global !! DeviceField.TypeName f) as [st|]; [|discriminate].
      eapply IHfs; eauto.
  - intros self fields path es' Hself H. simpl in H.
    revert H. apply for_each_preserves; [|exact Hself].
    intros s p s' _ Hs Hstep. eapply IHf; eauto.
Qed.

Lemma Expand_preserves (fuel : nat) (s : DeviceStructure.t) (es : ExpandedStructure.t) :
  P (ExpandedStructure.mk (DeviceStructure.Name s) [] 0) →
  Expand heap Global fuel s = Ok es → P es.
Proof. intros H0 H. eapply (proj2 (expansion_preserves fuel)); eauto. Qed.
End ExpansionFacts.

(** ** The padding rule *)

Lemma AlignmentOf_pos (t : string) : 0 < AlignmentOf t.
Proof. unfold AlignmentOf. repeat case_match; lia. Qed.

Lemma spec_padding_nonneg (size alignment : Z) :
  0 < alignment → 0 ≤ spec_padding size alignment.
Proof.
  intros Ha. unfold spec_padding. case_match; [lia|].
  pose proof (Z.mod_pos_bound size alignment Ha). lia.
Qed.

Lemma paddingRequired_spec (size alignment : Z) :
  0 ≤ size → 0 < alignment → paddingRequired size alignment = spec_padding size alignment.
Proof.
  intros Hs Ha. unfold paddingRequired, spec_padding.
  by rewrite Z.rem_mod_nonneg by lia.
Qed.

Lemma spec_layout_snoc (cursor : Z) (elements : list (Z * Z)) (alignment elementSize : Z) :
  spec_layout cursor (elements ++ [(alignment, elementSize)]) =
  let '(offsets, final) := spec_layout cursor elements in
  (offsets ++ [final + spec_padding final alignment],
   final + spec_padding final alignment + elementSize).
Proof.
  revert cursor. induction elements as [|[a sz] rest IH]; intros cursor; simpl; [done|].
  rewrite IH. by destruct (spec_layout _ rest).
Qed.

Lemma sizes_nonneg_lookup (heap : list DeviceField.t) (p : ptr) (f : DeviceField.t) :
  sizes_nonneg heap → heap !! p = Some f → IsAtomic f = true → 0 ≤ DeviceField.Size f.
Proof.
  unfold sizes_nonneg. rewrite forallb_forall. intros Hall Hp Hat.
  specialize (Hall f). rewrite Hat in Hall. simpl in Hall.
  apply Z.leb_le, Hall, list_elem_of_In, list_elem_of_lookup. eauto.
Qed.

Lemma well_sized_lookup (heap : list DeviceField.t) (p : ptr) (f : DeviceField.t) :
  well_sized heap → heap !! p = Some f → IsAtomic f = true →
  FieldSizeOf_atomic (DeviceField.TypeName f) = Some (DeviceField.Size f).
Proof.
  unfold well_sized. rewrite forallb_forall. intros Hall Hp Hat.
  assert (Hf : field_sized f = true).
  { apply Hall, list_elem_of_In, list_elem_of_lookup. eauto. }
  unfold field_sized in Hf. unfold IsAtomic in Hat. unfold FieldSizeOf_atomic in *.
  repeat case_match; try discriminate; f_equal; lia.
Qed.

Lemma FieldSizeOf_atomic_cases (t : string) (n : Z) :
  FieldSizeOf_atomic t = Some n →
  (t = "uint8" ∧ n = 1) ∨ (t = "uint16" ∧ n = 2) ∨ (t = "uint32" ∧ n = 4).
Proof.
  unfold FieldSizeOf_atomic. intros H.
  destruct (String.eqb_spec t "uint8"); [left; split; congruence|].
  destruct (String.eqb_spec t "uint16"); [right; left; split; congruence|].
  destruct (String.eqb_spec t "uint32"); [right; right; split; congruence|].
  discriminate.
Qed.

Lemma Expand_padding_rule (heap : list DeviceField.t) (Global : gmap string DeviceStructure.t)
    (fuel : nat) (s : DeviceStructure.t) (es : ExpandedStructure.t) :
  sizes_nonneg heap →
  Expand heap Global fuel s = Ok es →
  spec_layout 0 (element_of heap <$> ExpandedStructure.Fields es)
  = (ExpandedField.Offset <$> ExpandedStructure.Fields es, ExpandedStructure.Size es)
  ∧ 0 ≤ ExpandedStructure.Size es.
Proof.
  intros Hnn H.
  eapply (Expand_preserves heap Global (λ es,
    spec_layout 0 (element_of heap <$> ExpandedStructure.Fields es)
    = (ExpandedField.Offset <$> ExpandedStructure.Fields es, ExpandedStructure.Size es)
    ∧ 0 ≤ ExpandedStructure.Size es)); [|simpl; split; [done|lia]|exact H].
  intros self p f path Hp Hat [IH Hsz]. simpl.
  rewrite !fmap_app. simpl.
  unfold element_of at 2. simpl. rewrite Hp.
  rewrite spec_layout_snoc, IH.
  pose proof (AlignmentOf_pos (DeviceField.TypeName f)) as Hal.
  rewrite paddingRequired_spec by lia.
  pose proof (spec_padding_nonneg (ExpandedStructure.Size self) _ Hal).
  pose proof (sizes_nonneg_lookup _ _ _ Hnn Hp Hat).
  split; [done|lia].
Qed.

(** ** Layout of an expansion *)

Lemma laid_out_snoc (cursor : Z) (fields : list ExpandedField.t) (f : ExpandedField.t)
    (final : Z) :
  laid_out cursor fields final →
  final ≤ ExpandedField.Offset f → 0 < ExpandedField.Size f →
  laid_out cursor (fields ++ [f]) (ExpandedField.Offset f + ExpandedField.Size f).
Proof.
  revert cursor. induction fields as [|g rest IH]; intros cursor; simpl.
  - intros ->. auto.
  - intros (? & ? & ?) ? ?. auto.
Qed.

Lemma laid_out_final (cursor : Z) (fields : list ExpandedField.t) (final : Z) :
  laid_out cursor fields final → cursor ≤ final.
Proof.
  revert cursor. induction fields as [|g rest IH]; intros cursor; simpl.
  - lia.
  - intros (? & ? & H). apply IH in H. lia.
Qed.

Lemma laid_out_bounds (cursor : Z) (fields : list ExpandedField.t) (final : Z) (f : ExpandedField.t) :
  laid_out cursor fields final → f ∈ fields →
  cursor ≤ ExpandedField.Offset f ∧ 0 < ExpandedField.Size f
  ∧ ExpandedField.Offset f + ExpandedField.Size f ≤ final.
Proof.
  revert cursor. induction fields as [|g rest IH]; intros cursor; simpl.
  - intros _ Hin. by apply elem_of_nil in Hin.
  - intros (? & ? & H) Hin. apply elem_of_cons in Hin as [->|Hin].
    + apply laid_out_final in H. lia.
    + destruct (IH _ H Hin) as (? & ? & ?). lia.
Qed.

Lemma laid_out_increasing (cursor : Z) (fields : list ExpandedField.t) (final : Z)
    (i j : nat) (fi fj : ExpandedField.t) :
  laid_out cursor fields final → (i < j)%nat →
  fields !! i = Some fi → fields !! j = Some fj →
  ExpandedField.Offset fi + ExpandedField.Size fi ≤ ExpandedField.Offset fj.
Proof.
  revert cursor i j. induction fields as [|g rest IH]; intros cursor i j; simpl.
  - intros _ _ Hi. discriminate.
  - intros (? & ? & H) Hij Hi Hj. destruct j as [|j]; [lia|]. simpl in Hj.
    destruct i as [|i]; simpl in Hi.
    + injection Hi as <-.
      assert (fj ∈ rest) as Hin by (apply list_elem_of_lookup; eauto).
      destruct (laid_out_bounds _ _ _ _ H Hin). lia.
    + eapply (IH _ i j); [exact H|lia|exact Hi|exact Hj].
Qed.

Lemma laid_out_end (cursor : Z) (fields : list ExpandedField.t) (final : Z) :
  laid_out cursor fields final →
  final = match last fields with
          | Some f => ExpandedField.Offset f + ExpandedField.Size f
          | None => cursor
          end.
Proof.
  revert cursor. induction fields as [|g rest IH]; intros cursor; simpl; [done|].
  intros (? & ? & H). apply IH in H. rewrite H, last_cons.
  by destruct (last rest).
Qed.

Lemma Expand_layout (heap : list DeviceField.t) (Global : gmap string DeviceStructure.t)
    (fuel : nat) (s : DeviceStructure.t) (es : ExpandedStructure.t) :
  well_sized heap →
  Expand heap Global fuel s = Ok es →
  laid_out 0 (ExpandedStructure.Fields es) (ExpandedStructure.Size es)
  ∧ Forall (leaf_ok heap) (ExpandedStructure.Fields es).
Proof.
  intros Hws H.
  eapply (Expand_preserves heap Global (λ es,
    laid_out 0 (ExpandedStructure.Fields es) (ExpandedStructure.Size es)
    ∧ Forall (leaf_ok heap) (ExpandedStructure.Fields es)));
    [|simpl; split; [done|constructor]|exact H].
  intros self p f path Hp Hat [Hlay Hleaf]. simpl.
  pose proof (well_sized_lookup _ _ _ Hws Hp Hat) as Hsz.
  assert (0 < DeviceField.Size f) as Hpos.
  { apply FieldSizeOf_atomic_cases in Hsz. lia. }
  assert (0 ≤ paddingRequired (ExpandedStructure.Size self)
                (AlignmentOf (DeviceField.TypeName f))) as Hpad.
  { pose proof (laid_out_final _ _ _ Hlay).
    pose proof (AlignmentOf_pos (DeviceField.TypeName f)).
    rewrite paddingRequired_spec by lia. by apply spec_padding_nonneg. }
  split.
  - match goal with |- laid_out _ (_ ++ [?g]) _ =>
      apply (laid_out_snoc _ _ g _ Hlay); simpl; lia end.
  - apply Forall_app. split; [done|]. constructor; [|constructor].
    exists f. simpl. done.
Qed.

(** ** Expansion returns *)

Lemma for_each_total {A S : Type} (body : S → A → res S) (xs : list A) :
  (∀ x s, x ∈ xs → ∃ s', body s x = Ok s') →
  ∀ s, ∃ s', for_each body xs s = Ok s'.
Proof.
  induction xs as [|x xs IH]; intros Hbody s; simpl; [eauto|].
  destruct (Hbody x s) as [s1 ->]; [left|]. simpl.
  apply IH. intros ? ? ?. apply Hbody. by right.
Qed.

Lemma addExpandedFields_total (heap : list DeviceField.t)
    (Global : gmap string DeviceStructure.t) (depth : nat) :
  ∀ (fuel : nat) (fields : list ptr) (self : ExpandedStructure.t) (path : string),
    (2 * depth + 2 ≤ fuel)%nat →
    resolves heap Global depth fields = true →
    ∃ es', addExpandedFields heap Global fuel self fields path = Ok es'.
Proof.
  induction depth as [|depth IH]; intros fuel fields self path Hfuel Hres;
    (destruct fuel as [|[|fuel]]; [lia|lia|]);
    cbn [addExpandedFields]; apply for_each_total; intros p s Hp;
    cbn [resolves] in Hres; rewrite forallb_forall in Hres;
    specialize (Hres p (proj1 (list_elem_of_In _ _) Hp));
    cbn [addExpandedField]; unfold deref;
    destruct (heap !! p) as [f|]; try discriminate; simpl;
    apply for_each_total; intros i s1 _;
    destruct (IsAtomic f); eauto; simpl in Hres.
  - destruct (Global !! DeviceField.TypeName f); discriminate.
  - destruct (Global !! DeviceField.TypeName f) as [st|]; [|discriminate].
    apply IH; [lia|done].
Qed.

Lemma Expand_total (heap : list DeviceField.t) (Global : gmap string DeviceStructure.t)
    (depth fuel : nat) (s : DeviceStructure.t) :
  (2 * depth + 2 ≤ fuel)%nat →
  resolves heap Global depth (DeviceStructure.Fields s) = true →
  ∃ es, Expand heap Global fuel s = Ok es.
Proof. intros. by eapply addExpandedFields_total. Qed.

(** ** Bits *)

Lemma piece_testbit (v s i : Z) :
  0 ≤ s → 0 ≤ i →
  Z.testbit (uint32 (Z.shiftl (Z.land (uint32 (Z.land (Z.shiftr v s) 255)) 255) s)) i
  = (i <? 32) && (s <=? i) && (i <? s + 8) && Z.testbit v i.
Proof.
  intros Hs Hi. unfold uint32. change 255 with (Z.ones 8).
  rewrite Z.testbit_mod_pow2 by lia.
  destruct (Z.ltb_spec i 32); cbn [andb]; [|reflexivity].
  destruct (Z.leb_spec s i); cbn [andb].
  - rewrite Z.shiftl_spec by lia.
    rewrite Z.land_spec, Z.testbit_ones_nonneg by lia.
    rewrite Z.testbit_mod_pow2 by lia.
    rewrite Z.land_spec, Z.testbit_ones_nonneg by lia.
    rewrite Z.shiftr_spec by lia.
    replace (i - s + s) with i by lia.
    destruct (Z.ltb_spec (i - s) 8), (Z.ltb_spec i (s + 8)), (Z.ltb_spec (i - s) 32);
      cbn [andb]; try lia; rewrite ?andb_true_r, ?andb_false_r; reflexivity.
  - rewrite Z.shiftl_spec_low by lia. reflexivity.
Qed.

Ltac split_bits :=
  repeat match goal with
         | |- context [Z.ltb ?a ?b] => destruct (Z.ltb_spec a b)
         | |- context [Z.leb ?a ?b] => destruct (Z.leb_spec a b)
         end;
  cbn [andb orb]; try lia; rewrite ?orb_false_r; try reflexivity.

Ltac assemble :=
  apply Z.bits_inj'; intros i Hi;
  rewrite !Z.lor_spec, !piece_testbit, Z.testbit_0_l by lia;
  rewrite !Z.testbit_mod_pow2 by lia; split_bits.

Lemma assemble1 (x : Z) :
  Z.lor 0 (uint32 (Z.shiftl (Z.land (uint32 (Z.land (Z.shiftr (x `mod` 2 ^ 8) 0) 255)) 255) 0))
  = x `mod` 2 ^ 8.
Proof. assemble. Qed.

Lemma assemble2 (x : Z) :
  let v := x `mod` 2 ^ 16 in
  Z.lor (Z.lor 0
    (uint32 (Z.shiftl (Z.land (uint32 (Z.land (Z.shiftr v 0) 255)) 255) 0)))
    (uint32 (Z.shiftl (Z.land (uint32 (Z.land (Z.shiftr v 8) 255)) 255) 8))
  = v.
Proof. intros v. subst v. assemble. Qed.

Lemma assemble4 (x : Z) :
  let v := x `mod` 2 ^ 32 in
  Z.lor (Z.lor (Z.lor (Z.lor 0
    (uint32 (Z.shiftl (Z.land (uint32 (Z.land (Z.shiftr v 0) 255)) 255) 0)))
    (uint32 (Z.shiftl (Z.land (uint32 (Z.land (Z.shiftr v 8) 255)) 255) 8)))
    (uint32 (Z.shiftl (Z.land (uint32 (Z.land (Z.shiftr v 16) 255)) 255) 16)))
    (uint32 (Z.shiftl (Z.land (uint32 (Z.land (Z.shiftr v 24) 255)) 255) 24))
  = v.
Proof. intros v. subst v. assemble. Qed.

(** ** Writing a field *)

Lemma store_byte_Ok (bytes : list Z) (i b : Z) :
  0 ≤ i < Z.of_nat (length bytes) →
  store_byte bytes i b = Ok (<[Z.to_nat i := b]> bytes).
Proof.
  intros Hi. unfold store_byte.
  destruct (Z.leb_spec 0 i), (Z.ltb_spec i (Z.of_nat (length bytes))); simpl; [done|lia..].
Qed.

Lemma leaf_ok_cases (heap : list DeviceField.t) (f : ExpandedField.t) :
  leaf_ok heap f →
  ∃ fd, heap !! ExpandedField.FieldDefinition f = Some fd
        ∧ ((DeviceField.TypeName fd = "uint8" ∧ ExpandedField.Size f = 1)
           ∨ (DeviceField.TypeName fd = "uint16" ∧ ExpandedField.Size f = 2)
           ∨ (DeviceField.TypeName fd = "uint32" ∧ ExpandedField.Size f = 4)).
Proof. intros (fd & Hfd & Hsz). exists fd. split; [done|]. by apply FieldSizeOf_atomic_cases. Qed.

Ltac lookup_inserts :=
  repeat first
    [ rewrite list_lookup_insert_eq by (rewrite ?length_insert; lia)
    | rewrite list_lookup_insert_ne by lia ].

Lemma AddFieldToByteArray_effect (heap : list DeviceField.t) (f : ExpandedField.t)
    (bytes : list Z) :
  leaf_ok heap f →
  0 ≤ ExpandedField.Offset f →
  ExpandedField.Offset f + ExpandedField.Size f ≤ Z.of_nat (length bytes) →
  ∃ bytes', AddFieldToByteArray heap f bytes = Ok bytes'
    ∧ length bytes' = length bytes
    ∧ holds bytes' f
    ∧ ∀ j : nat, Z.of_nat j < ExpandedField.Offset f
                 ∨ ExpandedField.Offset f + ExpandedField.Size f ≤ Z.of_nat j →
                 bytes' !! j = bytes !! j.
Proof.
  intros Hleaf Hoff Hend.
  destruct (leaf_ok_cases _ _ Hleaf) as (fd & Hfd & Hcases).
  unfold AddFieldToByteArray, deref. rewrite Hfd. cbn [mbind res_bind].
  unfold holds, field_image.
  destruct Hcases as [[Ht Hsz]|[[Ht Hsz]|[Ht Hsz]]]; rewrite Ht, Hsz in *; cbn [String.eqb Ascii.eqb Bool.eqb].
  - unfold addUint8ToByteArray. rewrite store_byte_Ok by lia.
    eexists. split; [reflexivity|]. split; [by rewrite length_insert|]. split.
    + intros k Hk. assert (k = 0) as -> by lia.
      replace (ExpandedField.Offset f + 0) with (ExpandedField.Offset f) by lia.
      lookup_inserts. by rewrite Z.shiftr_0_r.
    + intros j Hj. by lookup_inserts.
  - unfold addUint16ToByteArray. rewrite store_byte_Ok by lia. cbn [mbind res_bind].
    rewrite store_byte_Ok by (rewrite ?length_insert; lia).
    eexists. split; [reflexivity|]. split; [by rewrite !length_insert|]. split.
    + intros k Hk. assert (k = 0 ∨ k = 1) as [-> | ->] by lia.
      * replace (ExpandedField.Offset f + 0) with (ExpandedField.Offset f) by lia.
        lookup_inserts. by rewrite Z.shiftr_0_r.
      * by lookup_inserts.
    + intros j Hj. by lookup_inserts.
  - unfold addUint32ToByteArray.
    do 3 (rewrite store_byte_Ok by (rewrite ?length_insert; lia); cbn [mbind res_bind]).
    rewrite store_byte_Ok by (rewrite ?length_insert; lia).
    eexists. split; [reflexivity|]. split; [by rewrite !length_insert|]. split.
    + intros k Hk. assert (k = 0 ∨ k = 1 ∨ k = 2 ∨ k = 3) as [-> | [-> | [-> | ->]]] by lia.
      * replace (ExpandedField.Offset f + 0) with (ExpandedField.Offset f) by lia.
        lookup_inserts. by rewrite Z.shiftr_0_r.
      * by lookup_inserts.
      * by lookup_inserts.
      * by lookup_inserts.
    + intros j Hj. by lookup_inserts.
Qed.

(** ** Writing and reading a laid-out structure *)

Lemma write_fields_holds (heap : list DeviceField.t) (fields : list ExpandedField.t) :
  ∀ (cursor final : Z) (bytes : list Z),
    laid_out cursor fields final → Forall (leaf_ok heap) fields →
    0 ≤ cursor → final ≤ Z.of_nat (length bytes) →
    ∃ bytes', for_each (λ bytes f, AddFieldToByteArray heap f bytes) fields bytes = Ok bytes'
      ∧ length bytes' = length bytes
      ∧ (∀ f, f ∈ fields → holds bytes' f)
      ∧ (∀ j : nat, Z.of_nat j < cursor → bytes' !! j = bytes !! j).
Proof.
  induction fields as [|f rest IH]; intros cursor final bytes Hlay Hleaf Hc Hfin.
  - exists bytes. simpl. repeat split; auto. intros f Hf. by apply elem_of_nil in Hf.
  - destruct Hlay as (Hoff & Hsz & Hrest). inversion Hleaf as [|? ? Hf Hleaf']; subst.
    pose proof (laid_out_final _ _ _ Hrest) as Hle.
    destruct (AddFieldToByteArray_effect heap f bytes Hf) as (b1 & Hw & Hlen1 & Hh1 & Hfr1);
      [lia..|].
    destruct (IH _ _ b1 Hrest Hleaf') as (b2 & Hw2 & Hlen2 & Hh2 & Hfr2); [lia..|].
    exists b2. cbn [for_each]. rewrite Hw. cbn [mbind res_bind].
    split; [done|]. split; [congruence|]. split.
    + intros g Hg. apply elem_of_cons in Hg as [->|Hg]; [|by apply Hh2].
      intros k Hk. rewrite Hfr2 by lia. by apply Hh1.
    + intros j Hj. rewrite Hfr2 by lia. apply Hfr1. lia.
Qed.

Lemma make_bytes_Ok (n : Z) :
  0 ≤ n → make_bytes n = Ok (replicate (Z.to_nat n) 0).
Proof. intros Hn. unfold make_bytes. destruct (Z.ltb_spec n 0); [lia|done]. Qed.

Lemma ByteArray_holds (heap : list DeviceField.t) (es : ExpandedStructure.t) :
  well_laid heap es →
  ∃ bytes, ByteArray heap es = Ok bytes
    ∧ Z.of_nat (length bytes) = ExpandedStructure.Size es
    ∧ ∀ f, f ∈ ExpandedStructure.Fields es → holds bytes f.
Proof.
  intros [Hlay Hleaf]. pose proof (laid_out_final _ _ _ Hlay) as Hsz.
  unfold ByteArray. rewrite make_bytes_Ok by done. cbn [mbind res_bind].
  destruct (write_fields_holds heap _ 0 _ (replicate (Z.to_nat (ExpandedStructure.Size es)) 0)
              Hlay Hleaf) as (bytes & Hw & Hlen & Hh & _).
  { lia. } { rewrite length_replicate. lia. }
  exists bytes. split; [done|]. split; [|done].
  rewrite Hlen, length_replicate. lia.
Qed.

Lemma load_byte_Ok (bytes : list Z) (i b : Z) :
  0 ≤ i → bytes !! Z.to_nat i = Some b → load_byte bytes i = Ok b.
Proof. intros Hi Hb. unfold load_byte. destruct (Z.leb_spec 0 i); [|lia]. by rewrite Hb. Qed.

Lemma getValueForField_constant (heap : list DeviceField.t) (f : ExpandedField.t)
    (fd : DeviceField.t) (bytes : list Z) :
  heap !! ExpandedField.FieldDefinition f = Some fd →
  DeviceField.IsConstant fd = true →
  getValueForField heap f bytes = Ok (DeviceField.Constant fd).
Proof. intros Hfd Hc. unfold getValueForField, deref. by rewrite Hfd; simpl; rewrite Hc. Qed.

Lemma getValueForField_holds (heap : list DeviceField.t) (f : ExpandedField.t)
    (bytes : list Z) :
  leaf_ok heap f → 0 ≤ ExpandedField.Offset f → holds bytes f →
  getValueForField heap f bytes = Ok (restored heap f).
Proof.
  intros Hleaf Hoff Hh.
  destruct (leaf_ok_cases _ _ Hleaf) as (fd & Hfd & Hcases).
  unfold restored. rewrite Hfd.
  destruct (DeviceField.IsConstant fd) eqn:Hc; [by apply getValueForField_constant|].
  unfold getValueForField, deref. rewrite Hfd. cbn [mbind res_bind]. rewrite Hc.
  unfold holds, field_image in Hh.
  destruct Hcases as [[_ Hsz]|[[_ Hsz]|[_ Hsz]]]; rewrite Hsz in *.
  - pose proof (Hh 0 ltac:(lia)) as H0.
    change (seqZ 0 1) with [0]. cbn [for_each]. unfold or_byte.
    erewrite (load_byte_Ok bytes (ExpandedField.Offset f + 0)); [|lia|exact H0].
    cbn [mbind res_bind].
    change (uint8 (8 * uint8 0)) with 0. change (8 * 0) with 0. change (8 * 1) with 8.
    by rewrite assemble1.
  - pose proof (Hh 0 ltac:(lia)) as H0. pose proof (Hh 1 ltac:(lia)) as H1.
    change (seqZ 0 2) with [0; 1]. cbn [for_each]. unfold or_byte.
    erewrite (load_byte_Ok bytes (ExpandedField.Offset f + 0)); [|lia|exact H0].
    cbn [mbind res_bind].
    erewrite (load_byte_Ok bytes (ExpandedField.Offset f + 1)); [|lia|exact H1].
    cbn [mbind res_bind].
    change (uint8 (8 * uint8 0)) with 0. change (uint8 (8 * uint8 1)) with 8.
    change (8 * 0) with 0. change (8 * 1) with 8. change (8 * 2) with 16.
    by rewrite assemble2.
  - pose proof (Hh 0 ltac:(lia)) as H0. pose proof (Hh 1 ltac:(lia)) as H1.
    pose proof (Hh 2 ltac:(lia)) as H2. pose proof (Hh 3 ltac:(lia)) as H3.
    change (seqZ 0 4) with [0; 1; 2; 3]. cbn [for_each]. unfold or_byte.
    erewrite (load_byte_Ok bytes (ExpandedField.Offset f + 0)); [|lia|exact H0].
    cbn [mbind res_bind].
    erewrite (load_byte_Ok bytes (ExpandedField.Offset f + 1)); [|lia|exact H1].
    cbn [mbind res_bind].
    erewrite (load_byte_Ok bytes (ExpandedField.Offset f + 2)); [|lia|exact H2].
    cbn [mbind res_bind].
    erewrite (load_byte_Ok bytes (ExpandedField.Offset f + 3)); [|lia|exact H3].
    cbn [mbind res_bind].
    change (uint8 (8 * uint8 0)) with 0. change (uint8 (8 * uint8 1)) with 8.
    change (uint8 (8 * uint8 2)) with 16. change (uint8 (8 * uint8 3)) with 24.
    change (8 * 0) with 0. change (8 * 1) with 8. change (8 * 2) with 16.
    change (8 * 3) with 24. change (8 * 4) with 32.
    by rewrite assemble4.
Qed.

Lemma populate_fields_holds (heap : list DeviceField.t) (fields : list ExpandedField.t)
    (bytes : list Z) :
  Forall (leaf_ok heap) fields →
  (∀ f, f ∈ fields → 0 ≤ ExpandedField.Offset f ∧ holds bytes f) →
  populate_fields heap fields bytes
  = Ok ((λ f, ExpandedField.set_Value (restored heap f) f) <$> fields).
Proof.
  induction fields as [|f rest IH]; intros Hleaf Hh; [done|].
  inversion Hleaf as [|? ? Hf Hleaf']; subst. cbn [populate_fields].
  destruct (Hh f) as [Hoff Hhf]; [left|].
  rewrite (getValueForField_holds heap f bytes Hf Hoff Hhf). cbn [mbind res_bind].
  rewrite IH; [done|done|]. intros g Hg. apply Hh. by right.
Qed.

Lemma byte_roundtrip (heap : list DeviceField.t) (es : ExpandedStructure.t) :
  well_laid heap es →
  ∃ bytes, ByteArray heap es = Ok bytes
    ∧ Z.of_nat (length bytes) = ExpandedStructure.Size es
    ∧ (∀ f, f ∈ ExpandedStructure.Fields es → holds bytes f)
    ∧ PopulateFromBytes heap es bytes
      = Ok (ExpandedStructure.mk (ExpandedStructure.Name es)
              ((λ f, ExpandedField.set_Value (restored heap f) f)
                 <$> ExpandedStructure.Fields es)
              (ExpandedStructure.Size es)).
Proof.
  intros Hwl. destruct (ByteArray_holds heap es Hwl) as (bytes & Hb & Hlen & Hh).
  exists bytes. repeat split; try done.
  destruct Hwl as [Hlay Hleaf]. unfold PopulateFromBytes.
  rewrite (populate_fields_holds heap _ bytes Hleaf); [done|].
  intros f Hf. split; [|by apply Hh].
  destruct (laid_out_bounds _ _ _ _ Hlay Hf). lia.
Qed.

(** ** The leaves of an expansion, in declaration order *)

Lemma for_each_concat {A S B : Type} (proj : S → list B) (g : A → list B)
    (body : S → A → res S) (xs : list A) :
  (∀ s x s', body s x = Ok s' → proj s' = proj s ++ g x) →
  ∀ s s', for_each body xs s = Ok s' → proj s' = proj s ++ concat (g <$> xs).
Proof.
  intros Hbody. induction xs as [|x xs IH]; intros s s' H; cbn [for_each] in H.
  - injection H as <-. by rewrite app_nil_r.
  - inv_bind H. rewrite (IH _ _ H), (Hbody _ _ _ Ha). cbn. by rewrite app_assoc.
Qed.

Lemma concat_replicate_singleton {A : Type} (n : nat) (x : A) :
  concat (replicate n [x]) = replicate n x.
Proof. induction n as [|n IH]; [done|]. cbn. by rewrite IH. Qed.

Lemma expansion_leaves (heap : list DeviceField.t) (Global : gmap string DeviceStructure.t)
    (fuel : nat) :
  (∀ self p path es',
     addExpandedField heap Global fuel self p path = Ok es' →
     ExpandedField.FieldDefinition <$> ExpandedStructure.Fields es'
     = (ExpandedField.FieldDefinition <$> ExpandedStructure.Fields self)
       ++ leaves_of_field heap Global fuel p)
  ∧ (∀ self fields path es',
     addExpandedFields heap Global fuel self fields path = Ok es' →
     ExpandedField.FieldDefinition <$> ExpandedStructure.Fields es'
     = (ExpandedField.FieldDefinition <$> ExpandedStructure.Fields self)
       ++ leaves_of_fields heap Global fuel fields).
Proof.
  induction fuel as [|fuel [IHf IHfs]]; [split; intros; discriminate|].
  split.
  - intros self p path es' H. cbn [addExpandedField] in H. inv_bind H.
    unfold deref in Ha. destruct (heap !! p) as [f|] eqn:Hp; [|discriminate].
    injection Ha as <-. cbn [leaves_of_field]. rewrite Hp.
    set (d := if IsAtomic f then [p]
              else match Global !! DeviceField.TypeName f with
                   | Some s => leaves_of_fields heap Global fuel (DeviceStructure.Fields s)
                   | None => []
                   end).
    apply (for_each_concat
             (λ es, ExpandedField.FieldDefinition <$> ExpandedStructure.Fields es)
             (λ _, d)) in H.
    + rewrite H, (const_fmap _ _ d) by done. rewrite length_seqZ. f_equal. subst d.
      destruct (IsAtomic f); [apply concat_replicate_singleton|].
      destruct (Global !! DeviceField.TypeName f); [done|].
      by induction (Z.to_nat (DeviceField.RepeatCount f)).
    + intros s i s' Hstep. subst d. destruct (IsAtomic f).
      * injection Hstep as <-. cbn. by rewrite fmap_app.
      * destruct (Global !! DeviceField.TypeName f) as [st|]; [|discriminate].
        by eapply IHfs.
  - intros self fields path es' H. cbn [addExpandedFields leaves_of_fields] in H |- *.
    apply (for_each_concat
             (λ es, ExpandedField.FieldDefinition <$> ExpandedStructure.Fields es)
             (leaves_of_field heap Global fuel)) in H; [done|].
    intros s p s' Hstep. by eapply IHf.
Qed.

Lemma Expand_leaf_sizes (heap : list DeviceField.t) (Global : gmap string DeviceStructure.t)
    (fuel : nat) (s : DeviceStructure.t) (es : ExpandedStructure.t) :
  Expand heap Global fuel s = Ok es →
  Forall (λ f, ∃ fd, heap !! ExpandedField.FieldDefinition f = Some fd
                     ∧ IsAtomic fd = true
                     ∧ ExpandedField.Size f = DeviceField.Size fd)
    (ExpandedStructure.Fields es).
Proof.
  intros H.
  eapply (Expand_preserves heap Global (λ es,
    Forall (λ f, ∃ fd, heap !! ExpandedField.FieldDefinition f = Some fd
                       ∧ IsAtomic fd = true
                       ∧ ExpandedField.Size f = DeviceField.Size fd)
      (ExpandedStructure.Fields es))); [|constructor|exact H].
  intros self p f path Hp Hat Hall. cbn. apply Forall_app. split; [done|].
  constructor; [|constructor]. exists f. done.
Qed.

(** * The claims *)

(** ** Expansion *)

(** C3.  Expansion lays the leaves out by the padding rule of the spec: the
    offsets of the leaves of an expansion, in list order, and the size of the
    expanded structure are those the rule computes from cursor 0 over the
    alignments and sizes of the leaves (padding 0 when the cursor is 0 or a
    multiple of the alignment, [alignment - cursor mod alignment] otherwise;
    offset = cursor + padding; the cursor moves to offset + size).  Four
    fields of sizes 1, 4, 2, 1 get the offsets 0, 4, 8, 10. *)
Theorem expansion_follows_padding_rule :
  (∀ (heap : list DeviceField.t) (Global : gmap string DeviceStructure.t) (fuel : nat)
     (s : DeviceStructure.t) (es : ExpandedStructure.t),
     sizes_nonneg heap →
     Expand heap Global fuel s = Ok es →
     ExpandedField.FieldDefinition <$> ExpandedStructure.Fields es
     = leaves_of_fields heap Global fuel (DeviceStructure.Fields s)
     ∧ Forall (λ f, ∃ fd, heap !! ExpandedField.FieldDefinition f = Some fd
                          ∧ IsAtomic fd = true
                          ∧ ExpandedField.Size f = DeviceField.Size fd)
         (ExpandedStructure.Fields es)
     ∧ spec_layout 0 (element_of heap <$> ExpandedStructure.Fields es)
       = (ExpandedField.Offset <$> ExpandedStructure.Fields es, ExpandedStructure.Size es))
  ∧ (es ← Expand align_heap ∅ 2 align_struct;
     Ok (element_of align_heap <$> ExpandedStructure.Fields es,
         ExpandedField.Offset <$> ExpandedStructure.Fields es))
    = Ok ([(1, 1); (4, 4); (2, 2); (1, 1)], [0; 4; 8; 10]).
Proof.
  split; [|reflexivity].
  intros heap Global fuel s es Hnn H. split; [|split].
  - by rewrite (proj2 (expansion_leaves heap Global fuel) _ _ _ _ H).
  - by eapply Expand_leaf_sizes.
  - by destruct (Expand_padding_rule heap Global fuel s es Hnn H).
Qed.

Lemma expansion_follows_padding_rule_witness :
  sizes_nonneg align_heap
  ∧ Expand align_heap ∅ 2 align_struct
    = Ok (ExpandedStructure.mk "aligned"
            [ ExpandedField.mk 0%nat "/a" 0 0 1;
              ExpandedField.mk 1%nat "/b" 4 0 4;
              ExpandedField.mk 2%nat "/c" 8 0 2;
              ExpandedField.mk 3%nat "/d" 10 0 1 ] 11)
  ∧ spec_layout 0 [(1, 1); (4, 4); (2, 2); (1, 1)] = ([0; 4; 8; 10], 11).
Proof.
  split; [reflexivity|]. split; [reflexivity|].
  exact (proj2 (proj2 (proj1 expansion_follows_padding_rule align_heap ∅ 2%nat
                         align_struct _ eq_refl eq_refl))).
Defined.

(** C5.  In the expansion of a structure whose primitive fields carry the
    sizes of their types, the offsets of the leaves increase strictly in list
    order, and the size of the expanded structure is the offset plus the size
    of the last leaf, 0 when there is no leaf. *)
Theorem expansion_offsets_increase :
  ∀ (heap : list DeviceField.t) (Global : gmap string DeviceStructure.t) (fuel : nat)
    (s : DeviceStructure.t) (es : ExpandedStructure.t),
    well_sized heap →
    Expand heap Global fuel s = Ok es →
    (∀ (i j : nat) (fi fj : ExpandedField.t),
       (i < j)%nat →
       ExpandedStructure.Fields es !! i = Some fi →
       ExpandedStructure.Fields es !! j = Some fj →
       ExpandedField.Offset fi < ExpandedField.Offset fj)
    ∧ ExpandedStructure.Size es = end_of_last (ExpandedStructure.Fields es).
Proof.
  intros heap Global fuel s es Hws H.
  destruct (Expand_layout heap Global fuel s es Hws H) as [Hlay _]. split.
  - intros i j fi fj Hij Hi Hj.
    pose proof (laid_out_increasing _ _ _ i j fi fj Hlay Hij Hi Hj).
    assert (fi ∈ ExpandedStructure.Fields es) as Hin by (apply list_elem_of_lookup; eauto).
    destruct (laid_out_bounds _ _ _ _ Hlay Hin) as (_ & ? & _). lia.
  - unfold end_of_last. by rewrite (laid_out_end _ _ _ Hlay).
Qed.

Lemma expansion_offsets_increase_witness :
  well_sized align_heap
  ∧ (∀ (i j : nat) (fi fj : ExpandedField.t),
       (i < j)%nat →
       [ ExpandedField.mk 0%nat "/a" 0 0 1;
         ExpandedField.mk 1%nat "/b" 4 0 4;
         ExpandedField.mk 2%nat "/c" 8 0 2;
         ExpandedField.mk 3%nat "/d" 10 0 1 ] !! i = Some fi →
       [ ExpandedField.mk 0%nat "/a" 0 0 1;
         ExpandedField.mk 1%nat "/b" 4 0 4;
         ExpandedField.mk 2%nat "/c" 8 0 2;
         ExpandedField.mk 3%nat "/d" 10 0 1 ] !! j = Some fj →
       ExpandedField.Offset fi < ExpandedField.Offset fj)
  ∧ 11 = 10 + 1.
Proof.
  split; [reflexivity|].
  exact (expansion_offsets_increase align_heap ∅ 2%nat align_struct _ eq_refl eq_refl).
Defined.

(** ** Byte codec *)

(** C2, as the code has it.  For the structure [{status: uint8, value:
    uint16}] populated with status = 1 and value = 300, expansion followed by
    serialization gives the four bytes 1, 0, 0x2C, 0x01: status is at offset
    0, and value, aligned on two bytes, is at offset 2 behind one byte of
    padding. *)
Theorem status_value_bytes :
  sv_run = Ok ([1; 0; 44; 1], [0; 2]).
Proof. reflexivity. Qed.

(** C2 as stated fails: the buffer is not 1, 0x2C, 0x01 with value at
    offset 1. *)
Lemma status_value_bytes_not_packed :
  sv_run ≠ Ok ([1; 44; 1], [0; 1]).
Proof. discriminate. Qed.

(** C4, as the code has it.  For an expanded structure laid out as expansion
    lays them out, serializing with [ByteArray] and repopulating the same
    structure with [PopulateFromBytes] succeeds and gives every non-constant
    field its value modulo [2^(8*size)]: a value that fits the width of its
    field is restored, and the other fields of the structure keep their path,
    offset and size. *)
Theorem byte_roundtrip_within_width :
  ∀ (heap : list DeviceField.t) (es : ExpandedStructure.t),
    well_laid heap es →
    ∃ bytes es',
      ByteArray heap es = Ok bytes
      ∧ PopulateFromBytes heap es bytes = Ok es'
      ∧ length (ExpandedStructure.Fields es') = length (ExpandedStructure.Fields es)
      ∧ ∀ (i : nat) (f : ExpandedField.t) (fd : DeviceField.t),
          ExpandedStructure.Fields es !! i = Some f →
          heap !! ExpandedField.FieldDefinition f = Some fd →
          DeviceField.IsConstant fd = false →
          ExpandedStructure.Fields es' !! i
          = Some (ExpandedField.set_Value
                    (ExpandedField.Value f `mod` 2 ^ (8 * ExpandedField.Size f)) f)
          ∧ (0 ≤ ExpandedField.Value f < 2 ^ (8 * ExpandedField.Size f) →
             ExpandedStructure.Fields es' !! i = Some f).
Proof.
  intros heap es Hwl.
  destruct (byte_roundtrip heap es Hwl) as (bytes & Hb & _ & _ & Hp).
  eexists bytes, _. split; [exact Hb|]. split; [exact Hp|]. cbn.
  split; [by rewrite length_fmap|].
  intros i f fd Hi Hfd Hc.
  rewrite list_lookup_fmap, Hi. cbn. unfold restored. rewrite Hfd, Hc.
  split; [done|]. intros Hv. rewrite Z.mod_small by done. by destruct f.
Qed.

Lemma byte_roundtrip_within_width_witness :
  well_laid narrow_heap (narrow_expanded 200)
  ∧ ∃ bytes es',
      ByteArray narrow_heap (narrow_expanded 200) = Ok bytes
      ∧ PopulateFromBytes narrow_heap (narrow_expanded 200) bytes = Ok es'
      ∧ length (ExpandedStructure.Fields es') = 1%nat
      ∧ ∀ (i : nat) (f : ExpandedField.t) (fd : DeviceField.t),
          ExpandedStructure.Fields (narrow_expanded 200) !! i = Some f →
          narrow_heap !! ExpandedField.FieldDefinition f = Some fd →
          DeviceField.IsConstant fd = false →
          ExpandedStructure.Fields es' !! i
          = Some (ExpandedField.set_Value
                    (ExpandedField.Value f `mod` 2 ^ (8 * ExpandedField.Size f)) f)
          ∧ (0 ≤ ExpandedField.Value f < 2 ^ (8 * ExpandedField.Size f) →
             ExpandedStructure.Fields es' !! i = Some f).
Proof.
  assert (well_laid narrow_heap (narrow_expanded 200)) as Hwl.
  { split.
    - cbn. lia.
    - repeat constructor. eexists. split; reflexivity. }
  split; [exact Hwl|].
  exact (byte_roundtrip_within_width narrow_heap (narrow_expanded 200) Hwl).
Defined.

(** C4 as stated fails: the one-byte field of [narrow_struct] populated with
    300 comes back from the round trip as 44. *)
Lemma byte_roundtrip_loses_wide_value :
  Expand narrow_heap ∅ 2 narrow_struct = Ok (narrow_expanded 0)
  ∧ PopulateFromJson (I := plain_interpreter Nil eval_nothing) narrow_heap
      (narrow_expanded 0) (json_object [("level", Number 300)]) ()
    = Ok (narrow_expanded 300, ())
  ∧ (bytes ← ByteArray narrow_heap (narrow_expanded 300);
     PopulateFromBytes narrow_heap (narrow_expanded 300) bytes)
    = Ok (narrow_expanded 44)
  ∧ narrow_expanded 44 ≠ narrow_expanded 300.
Proof. repeat split; try reflexivity. discriminate. Qed.

(** C10.  Serialization cuts a value to the width of its field without any
    error: for a structure laid out as expansion lays them out, [ByteArray]
    succeeds, the buffer carries at the offset of every field the [s] bytes
    of [value mod 2^(8*s)], least significant first, and reading a
    non-constant field back gives [value mod 2^(8*s)].  A [uint8] field
    holding 300 comes back as 44. *)
Theorem serialization_truncates :
  (∀ (heap : list DeviceField.t) (es : ExpandedStructure.t),
     well_laid heap es →
     ∃ bytes,
       ByteArray heap es = Ok bytes
       ∧ ∀ (f : ExpandedField.t) (fd : DeviceField.t),
           f ∈ ExpandedStructure.Fields es →
           heap !! ExpandedField.FieldDefinition f = Some fd →
           DeviceField.IsConstant fd = false →
           ExpandedField.Size f ∈ [1; 2; 4]
           ∧ (∀ k, 0 ≤ k < ExpandedField.Size f →
                bytes !! Z.to_nat (ExpandedField.Offset f + k)
                = Some (((ExpandedField.Value f `mod` 2 ^ (8 * ExpandedField.Size f))
                           `div` 2 ^ (8 * k)) `mod` 256))
           ∧ getValueForField heap f bytes
             = Ok (ExpandedField.Value f `mod` 2 ^ (8 * ExpandedField.Size f)))
  ∧ (bytes ← ByteArray narrow_heap (narrow_expanded 300);
     PopulateFromBytes narrow_heap (narrow_expanded 300) bytes)
    = Ok (narrow_expanded 44).
Proof.
  split; [|reflexivity].
  intros heap es Hwl.
  destruct (ByteArray_holds heap es Hwl) as (bytes & Hb & _ & Hh).
  exists bytes. split; [exact Hb|]. intros f fd Hf Hfd Hc.
  destruct Hwl as [Hlay Hleaf].
  pose proof (proj1 (Forall_forall _ _) Hleaf f Hf) as Hlf.
  destruct (laid_out_bounds _ _ _ _ Hlay Hf) as (Hoff & _ & _).
  split; [|split].
  - destruct (leaf_ok_cases _ _ Hlf) as (? & _ & [[_ ->]|[[_ ->]|[_ ->]]]); set_solver.
  - intros k Hk. rewrite (Hh f Hf k Hk). unfold field_image. f_equal.
    change 255 with (Z.ones 8). rewrite Z.land_ones, Z.shiftr_div_pow2 by lia. done.
  - rewrite (getValueForField_holds heap f bytes Hlf Hoff (Hh f Hf)).
    unfold restored. by rewrite Hfd, Hc.
Qed.

Lemma serialization_truncates_witness :
  well_laid narrow_heap (narrow_expanded 300)
  ∧ ∃ bytes,
      ByteArray narrow_heap (narrow_expanded 300) = Ok bytes
      ∧ ∀ (f : ExpandedField.t) (fd : DeviceField.t),
          f ∈ ExpandedStructure.Fields (narrow_expanded 300) →
          narrow_heap !! ExpandedField.FieldDefinition f = Some fd →
          DeviceField.IsConstant fd = false →
          ExpandedField.Size f ∈ [1; 2; 4]
          ∧ (∀ k, 0 ≤ k < ExpandedField.Size f →
               bytes !! Z.to_nat (ExpandedField.Offset f + k)
               = Some (((ExpandedField.Value f `mod` 2 ^ (8 * ExpandedField.Size f))
                          `div` 2 ^ (8 * k)) `mod` 256))
          ∧ getValueForField narrow_heap f bytes
            = Ok (ExpandedField.Value f `mod` 2 ^ (8 * ExpandedField.Size f)).
Proof.
  assert (well_laid narrow_heap (narrow_expanded 300)) as Hwl.
  { split.
    - cbn. lia.
    - repeat constructor. eexists. split; reflexivity. }
  split; [exact Hwl|].
  exact (proj1 serialization_truncates narrow_heap (narrow_expanded 300) Hwl).
Defined.

(** ** Populating from JSON *)

Section JsonFacts.
Context {L : Type} {I : Interpreter L}.
Variable heap : list DeviceField.t.

Lemma populate_fields_lookup (fields fields' : list ExpandedField.t) (bytes : list Z)
    (i : nat) (f : ExpandedField.t) :
  populate_fields heap fields bytes = Ok fields' →
  fields !! i = Some f →
  ∃ val, getValueForField heap f bytes = Ok val
         ∧ fields' !! i = Some (ExpandedField.set_Value val f).
Proof.
  revert fields' i. induction fields as [|g rest IH]; intros fields' i H Hi; [done|].
  cbn [populate_fields] in H. inv_bind H. rename a into val. inv_bind H.
  injection H as <-. destruct i as [|i]; simpl in Hi.
  - injection Hi as <-. eauto.
  - by apply (IH a).
Qed.

Lemma extract_constant (f : ExpandedField.t) (fd : DeviceField.t) (json : Data)
    (steps : list string) (parentNode : Data) (l : L) :
  heap !! ExpandedField.FieldDefinition f = Some fd →
  DeviceField.IsConstant fd = true →
  extractValueFromJsonWithStepAndParent heap f json steps parentNode l = Ok (f, l).
Proof.
  intros Hfd Hc. destruct steps; cbn [extractValueFromJsonWithStepAndParent];
    unfold deref; rewrite Hfd; cbn [mbind res_bind]; by rewrite Hc.
Qed.



Lemma extract_total (f : ExpandedField.t) (steps : list string) :
  is_Some (heap !! ExpandedField.FieldDefinition f) →
  ∀ json parentNode l,
    ∃ r, extractValueFromJsonWithStepAndParent heap f json steps parentNode l = Ok r.
Proof.
  intros [fd Hfd]. induction steps as [|step steps IH]; intros json parentNode l;
    cbn [extractValueFromJsonWithStepAndParent]; unfold deref; rewrite Hfd;
    cbn [mbind res_bind]; destruct (DeviceField.IsConstant fd); eauto.
  destruct (ParseInt step); [apply IH|].
  destruct (Assoc _ _ _) as [value [e|]]; eauto.
Qed.

Lemma populate_json_total (fields : list ExpandedField.t) (doc : Data) :
  Forall (λ f, is_Some (heap !! ExpandedField.FieldDefinition f)) fields →
  ∀ l, ∃ fields' l', populate_json heap fields doc l = Ok (fields', l').
Proof.
  induction 1 as [|f rest Hf _ IH]; intros l; cbn [populate_json]; [eauto|].
  unfold extractValueFromJson.
  destruct (extract_total f (stepsFromPath (ExpandedField.Path f)) Hf doc Nil l)
    as [[f' l1] ->].
  cbn [mbind res_bind]. destruct (IH l1) as (rest' & l2 & ->). cbn. eauto.
Qed.


(** The [i]-th field is populated in the state the fields before it leave. *)
Lemma populate_json_lookup (fields fields' : list ExpandedField.t) (doc : Data) (l l' : L)
    (i : nat) (f : ExpandedField.t) :
  populate_json heap fields doc l = Ok (fields', l') →
  fields !! i = Some f →
  ∃ pre l_i f' l_i',
    populate_json heap (take i fields) doc l = Ok (pre, l_i)
    ∧ extractValueFromJson heap f doc l_i = Ok (f', l_i')
    ∧ fields' !! i = Some f'.
Proof.
  revert fields' l i. induction fields as [|g rest IH]; intros fields' l i H Hi; [done|].
  cbn [populate_json] in H. inv_bind H. destruct a as [g' l1]. inv_bind H.
  destruct a as [rest' l2]. injection H as <- <-.
  destruct i as [|i]; simpl in Hi.
  - injection Hi as <-. exists [], l, g', l1. done.
  - destruct (IH _ _ _ Ha0 Hi) as (pre & l_i & f' & l_i' & Hpre & Hex & Hlk).
    exists (g' :: pre), l_i, f', l_i'. split; [|done].
    cbn [take populate_json]. rewrite Ha. cbn [mbind res_bind]. by rewrite Hpre.
Qed.
End JsonFacts.

(** C8.  A constant field takes no value from outside: whatever the document,
    [PopulateFromJson] leaves it as it is, and whatever the buffer,
    [PopulateFromBytes] gives it the constant of its definition; so its value
    is that constant after either call whenever it was before. *)
Theorem constant_field_ignores_input :
  ∀ (L : Type) (I : Interpreter L) (heap : list DeviceField.t) (es : ExpandedStructure.t)
    (i : nat) (f : ExpandedField.t) (fd : DeviceField.t),
    ExpandedStructure.Fields es !! i = Some f →
    heap !! ExpandedField.FieldDefinition f = Some fd →
    DeviceField.IsConstant fd = true →
    (∀ doc l es' l',
       PopulateFromJson heap es doc l = Ok (es', l') →
       ExpandedStructure.Fields es' !! i = Some f)
    ∧ (∀ bytes, getValueForField heap f bytes = Ok (DeviceField.Constant fd))
    ∧ (∀ bytes es',
         PopulateFromBytes heap es bytes = Ok es' →
         ExpandedStructure.Fields es' !! i
         = Some (ExpandedField.set_Value (DeviceField.Constant fd) f))
    ∧ (ExpandedField.Value f = DeviceField.Constant fd →
       ∀ es',
         (∃ doc l l', PopulateFromJson heap es doc l = Ok (es', l'))
         ∨ (∃ bytes, PopulateFromBytes heap es bytes = Ok es') →
         ExpandedField.Value <$> ExpandedStructure.Fields es' !! i
         = Some (DeviceField.Constant fd)).
Proof.
  intros L I heap es i f fd Hi Hfd Hc.
  assert (∀ doc l es' l',
            PopulateFromJson heap es doc l = Ok (es', l') →
            ExpandedStructure.Fields es' !! i = Some f) as Hjson.
  { intros doc l es' l' H. unfold PopulateFromJson in H. inv_bind H.
    destruct a as [fields l1]. injection H as <- <-. cbn.
    destruct (populate_json_lookup heap _ _ _ _ _ i f Ha Hi)
      as (pre & l_i & f' & l_i' & _ & Hex & Hlk).
    unfold extractValueFromJson in Hex. rewrite (extract_constant heap f fd) in Hex by done.
    by injection Hex as <- <-. }
  assert (∀ bytes es',
            PopulateFromBytes heap es bytes = Ok es' →
            ExpandedStructure.Fields es' !! i
            = Some (ExpandedField.set_Value (DeviceField.Constant fd) f)) as Hbytes.
  { intros bytes es' H. unfold PopulateFromBytes in H. inv_bind H. injection H as <-. cbn.
    destruct (populate_fields_lookup heap _ _ _ i f Ha Hi) as (val & Hval & Hlk).
    rewrite (getValueForField_constant heap f fd bytes Hfd Hc) in Hval.
    by injection Hval as <-. }
  split; [exact Hjson|]. split; [intros; by apply getValueForField_constant|].
  split; [exact Hbytes|].
  intros Hv es' [(doc & l & l' & H)|(bytes & H)].
  - rewrite (Hjson _ _ _ _ H). cbn. by rewrite Hv.
  - by rewrite (Hbytes _ _ H).
Qed.

Lemma constant_field_ignores_input_witness :
  ExpandedStructure.Fields (tagged_expanded 7 0) !! 0%nat = Some (tag_leaf 7)
  ∧ tagged_heap !! ExpandedField.FieldDefinition (tag_leaf 7) = Some tag_def
  ∧ DeviceField.IsConstant tag_def = true
  ∧ (∀ bytes, getValueForField tagged_heap (tag_leaf 7) bytes = Ok 7)
  ∧ (∀ bytes es',
       PopulateFromBytes tagged_heap (tagged_expanded 7 0) bytes = Ok es' →
       ExpandedStructure.Fields es' !! 0%nat = Some (tag_leaf 7)).
Proof.
  do 3 (split; [reflexivity|]).
  pose proof (constant_field_ignores_input unit (plain_interpreter Nil eval_nothing)
                tagged_heap (tagged_expanded 7 0) 0%nat (tag_leaf 7) tag_def
                eq_refl eq_refl eq_refl) as (_ & Hget & Hbytes & _).
  split; [exact Hget|exact Hbytes].
Defined.





(** ** Population keeps the layout

    Expansion gives a laid-out structure, and populating it, from a document
    or from bytes, changes values only: the structures the codecs work on are
    laid out. *)

Lemma laid_out_same_place (fields fields' : list ExpandedField.t) :
  Forall2 same_place fields fields' →
  ∀ cursor final, laid_out cursor fields final → laid_out cursor fields' final.
Proof.
  induction 1 as [|f g rest rest' (_ & Ho & Hs) _ IH]; intros cursor final; [done|].
  cbn [laid_out]. rewrite Ho, Hs. intros (? & ? & ?). auto.
Qed.

Lemma leaf_ok_same_place (heap : list DeviceField.t) (fields fields' : list ExpandedField.t) :
  Forall2 same_place fields fields' →
  Forall (leaf_ok heap) fields → Forall (leaf_ok heap) fields'.
Proof.
  induction 1 as [|f g rest rest' (Hd & _ & Hs) _ IH]; intros Hall; [done|].
  inversion Hall as [|? ? (fd & Hfd & Hsz) Hrest]; subst. constructor; [|auto].
  exists fd. by rewrite Hd, Hs.
Qed.

Lemma well_laid_same_place (heap : list DeviceField.t) (es es' : ExpandedStructure.t) :
  Forall2 same_place (ExpandedStructure.Fields es) (ExpandedStructure.Fields es') →
  ExpandedStructure.Size es' = ExpandedStructure.Size es →
  well_laid heap es → well_laid heap es'.
Proof.
  intros Hsame Hsize [Hlay Hleaf]. split.
  - rewrite Hsize. by eapply laid_out_same_place.
  - by eapply leaf_ok_same_place.
Qed.

Lemma Expand_well_laid (heap : list DeviceField.t) (Global : gmap string DeviceStructure.t)
    (fuel : nat) (s : DeviceStructure.t) (es : ExpandedStructure.t) :
  well_sized heap → Expand heap Global fuel s = Ok es → well_laid heap es.
Proof. apply Expand_layout. Qed.

Lemma PopulateFromBytes_well_laid (heap : list DeviceField.t) (es es' : ExpandedStructure.t)
    (bytes : list Z) :
  PopulateFromBytes heap es bytes = Ok es' → well_laid heap es → well_laid heap es'.
Proof.
  unfold PopulateFromBytes. intros H. inv_bind H. injection H as <-.
  apply well_laid_same_place; [|done]. cbn.
  revert a Ha. induction (ExpandedStructure.Fields es) as [|f rest IH]; intros fields' H;
    cbn [populate_fields] in H.
  - injection H as <-. constructor.
  - inv_bind H. inv_bind H. injection H as <-. constructor; [done|auto].
Qed.

Section PopulatedLayout.
Context {L : Type} {I : Interpreter L}.

Lemma extract_same_place (heap : list DeviceField.t) (f : ExpandedField.t)
    (steps : list string) :
  ∀ json parentNode l f' l',
    extractValueFromJsonWithStepAndParent heap f json steps parentNode l = Ok (f', l') →
    same_place f f'.
Proof.
  induction steps as [|step steps IH]; intros json parentNode l f' l' H;
    cbn [extractValueFromJsonWithStepAndParent] in H; inv_bind H;
    (destruct (DeviceField.IsConstant a); [by injection H as <- <-|]).
  - by injection H as <- <-.
  - destruct (ParseInt step); [by eapply IH|].
    destruct (Assoc _ _ _) as [value [e|]]; [by injection H as <- <-|by eapply IH].
Qed.

Lemma PopulateFromJson_well_laid (heap : list DeviceField.t) (es es' : ExpandedStructure.t)
    (doc : Data) (l l' : L) :
  PopulateFromJson heap es doc l = Ok (es', l') → well_laid heap es → well_laid heap es'.
Proof.
  unfold PopulateFromJson. intros H. inv_bind H. destruct a as [fields l1].
  injection H as <- <-. apply well_laid_same_place; [|done]. cbn.
  revert fields l Ha. induction (ExpandedStructure.Fields es) as [|f rest IH];
    intros fields' l0 H; cbn [populate_json] in H.
  - injection H as <- <-. constructor.
  - inv_bind H. destruct a as [f' l2]. inv_bind H. destruct a as [rest' l3].
    injection H as <- <-. constructor; [|eauto].
    by eapply extract_same_place.
Qed.
End PopulatedLayout.

(** ** Validation *)

Lemma set_rules_None (fd : DeviceField.t) :
  DeviceField.ValidRange fd = None → DeviceField.ValidValues fd = None →
  DeviceField.set_rules None None fd = fd.
Proof. destruct fd; simpl; intros -> ->; reflexivity. Qed.




Section ValidationFacts.
Context {L : Type} {I : Interpreter L}.

(** A field whose definition carries a range or a value set gets the
    verdict of that rule, and nothing changes. *)
Lemma Validate_with_rule (fuel : nat) (self : ExpandedField.t) (env : SymbolTableFrame)
    (w : World L) (fd : DeviceField.t) (b : bool) :
  defs w !! ExpandedField.FieldDefinition self = Some fd →
  DeviceField.IsConstant fd = false →
  verdict (DeviceField.ValidRange fd) (DeviceField.ValidValues fd)
    (ExpandedField.Value self) = Some b →
  ExpandedField_Validate (S fuel) self env w = Ok (b, env, w).
Proof.
  intros Hfd Hc Hverdict. cbn [ExpandedField_Validate]. unfold deref. rewrite Hfd.
  cbn [mbind res_bind]. rewrite Hc. unfold verdict in Hverdict.
  destruct (DeviceField.ValidRange fd); [by injection Hverdict as <-|].
  destruct (DeviceField.ValidValues fd); [by injection Hverdict as <-|discriminate].
Qed.

(** A validation only adds calls of [Eval] to those made before. *)
Lemma Validate_calls_grow (fuel : nat) (self : ExpandedField.t) :
  ∀ env w b env' w',
    ExpandedField_Validate fuel self env w = Ok (b, env', w') →
    ∃ calls, evals w' = evals w ++ calls.
Proof.
  induction fuel as [|fuel IH]; intros env w b env' w' H; [discriminate|].
  cbn [ExpandedField_Validate] in H. inv_bind H. rename a into fd.
  destruct (DeviceField.IsConstant fd).
  { injection H as <- <- <-. exists []. by rewrite app_nil_r. }
  destruct (DeviceField.ValidRange fd).
  { injection H as <- <- <-. exists []. by rewrite app_nil_r. }
  destruct (DeviceField.ValidValues fd).
  { injection H as <- <- <-. exists []. by rewrite app_nil_r. }
  destruct (DeviceField.DeferredValidationCode fd) as [code|].
  2:{ injection H as <- <- <-. exists []. by rewrite app_nil_r. }
  destruct (Eval code _ _) as [err [[l1 defs1] env1]].
  destruct err as [e|].
  { injection H as <- <- <-. cbn. eauto. }
  inv_bind H. destruct a as [[result env2] w2]. injection H as <- <- <-.
  apply IH in Ha0 as [calls Hc]. cbn in *. rewrite Hc, <- app_assoc. eauto.
Qed.

(** A field whose definition carries a deferred rule and nothing else has
    its deferred code evaluated, in the frame it is validated in. *)
Lemma Validate_deferred_evaluates (fuel : nat) (self : ExpandedField.t)
    (env : SymbolTableFrame) (w : World L) (fd : DeviceField.t) (code : Data)
    (b : bool) (env' : SymbolTableFrame) (w' : World L) :
  defs w !! ExpandedField.FieldDefinition self = Some fd →
  DeviceField.IsConstant fd = false →
  DeviceField.ValidRange fd = None →
  DeviceField.ValidValues fd = None →
  DeviceField.DeferredValidationCode fd = Some code →
  ExpandedField_Validate fuel self env w = Ok (b, env', w') →
  ∃ more, evals w' = evals w ++ (ExpandedField.FieldDefinition self, env) :: more.
Proof.
  intros Hfd Hc Hr Hv Hd H. destruct fuel as [|fuel]; [discriminate|].
  cbn [ExpandedField_Validate] in H. unfold deref in H. rewrite Hfd in H.
  cbn [mbind res_bind] in H. rewrite Hc, Hr, Hv, Hd in H.
  destruct (Eval code _ _) as [err [[l1 defs1] env1]].
  destruct err as [e|].
  { injection H as <- <- <-. cbn. eauto. }
  inv_bind H. destruct a as [[result env2] w2]. injection H as <- <- <-.
  apply Validate_calls_grow in Ha as [calls Hcalls]. cbn in *.
  rewrite Hcalls, <- app_assoc. eauto.
Qed.





End ValidationFacts.






(** The condition on the deferred code is needed for the evaluations after
    the first: with deferred code that binds the name [c], the frame of the
    evaluation for the second field [b] of [scoped_expanded] binds [c], to
    the 0 of the code, although the field [c] comes after [b] and holds 1. *)
Lemma deferred_code_may_bind_later_field :
  validate_scoped_frames = Ok [(0%nat, None); (1%nat, Some (Number 0))].
Proof. reflexivity. Qed.


(** C7, as the code has it.  Take a field whose definition carries a
    deferred rule and no other, and deferred code that evaluates without
    error and attaches a range or a value set to that definition.  Validation
    of the field evaluates the code once, gives the verdict of the attached
    rule on the value of the field, and clears range and value set back to
    absent, which leaves the definition as it was, the deferred rule still
    attached.  So a second validation of the field evaluates the deferred
    code again. *)
Theorem deferred_rule_is_applied_and_cleared :
  ∀ (L : Type) (I : Interpreter L) (fuel : nat) (self : ExpandedField.t)
    (env : SymbolTableFrame) (w : World L) (fd : DeviceField.t) (code : Data)
    (r : option Range.t) (v : option Values.t)
    (l' : L) (defs' : list DeviceField.t) (env' : SymbolTableFrame) (b : bool),
    defs w !! ExpandedField.FieldDefinition self = Some fd →
    DeviceField.IsConstant fd = false →
    DeviceField.ValidRange fd = None →
    DeviceField.ValidValues fd = None →
    DeviceField.DeferredValidationCode fd = Some code →
    Eval code (ExpandedField.FieldDefinition self) (lisp w, defs w, env)
    = (None, (l', defs', env')) →
    defs' !! ExpandedField.FieldDefinition self = Some (DeviceField.set_rules r v fd) →
    verdict r v (ExpandedField.Value self) = Some b →
    ∃ w1,
      ExpandedField_Validate (S (S fuel)) self env w = Ok (b, env', w1)
      ∧ defs w1 !! ExpandedField.FieldDefinition self = Some fd
      ∧ evals w1 = evals w ++ [(ExpandedField.FieldDefinition self, env)]
      ∧ ∀ fuel2 env2 b2 env2' w2,
          ExpandedField_Validate fuel2 self env2 w1 = Ok (b2, env2', w2) →
          ∃ more,
            evals w2 = evals w1 ++ (ExpandedField.FieldDefinition self, env2) :: more.
Proof.
  intros L I fuel self env w fd code r v l' defs' env' b Hfd Hc Hr Hv Hd He Hfd' Hverdict.
  set (w1 := mkWorld l' defs' (Some (ExpandedField.FieldDefinition self)) (devices w)
               (evals w ++ [(ExpandedField.FieldDefinition self, env)]) (wire w)).
  assert (defs w1 !! ExpandedField.FieldDefinition self
          = Some (DeviceField.set_rules r v fd)) as Hw1 by exact Hfd'.
  pose proof (Validate_with_rule fuel self env' w1 _ b Hw1 Hc Hverdict) as Hinner.
  assert (clear_rules (ExpandedField.FieldDefinition self) defs'
            !! ExpandedField.FieldDefinition self = Some fd) as Hcleared.
  { unfold clear_rules. rewrite list_lookup_alter_eq, Hfd'. cbn.
    f_equal. destruct fd; cbn in *; by subst. }
  remember (S fuel) as fuel1 eqn:Hfuel1.
  eexists. split; [|split; [|split]].
  - cbn [ExpandedField_Validate]. unfold deref. rewrite Hfd. cbn [mbind res_bind].
    rewrite Hc, Hr, Hv, Hd, He. fold w1.
    rewrite Hinner. cbn [mbind res_bind]. reflexivity.
  - exact Hcleared.
  - reflexivity.
  - intros fuel2 env2 b2 env2' w2 H2.
    by eapply (Validate_deferred_evaluates fuel2 self env2 _ fd code); [exact Hcleared|..].
Qed.

Lemma deferred_rule_is_applied_and_cleared_witness :
  defs deferred_world !! ExpandedField.FieldDefinition deferred_leaf = Some deferred_def
  ∧ verdict (Some (Range.mk 2 4)) None (ExpandedField.Value deferred_leaf) = Some true
  ∧ ∃ w1,
      ExpandedField_Validate (I := plain_interpreter Nil eval_attach_range)
        2 deferred_leaf ∅ deferred_world = Ok (true, ∅, w1)
      ∧ defs w1 !! ExpandedField.FieldDefinition deferred_leaf = Some deferred_def
      ∧ evals w1 = evals deferred_world ++ [(ExpandedField.FieldDefinition deferred_leaf, ∅)]
      ∧ ∀ fuel2 env2 b2 env2' w2,
          ExpandedField_Validate (I := plain_interpreter Nil eval_attach_range)
            fuel2 deferred_leaf env2 w1 = Ok (b2, env2', w2) →
          ∃ more,
            evals w2
            = evals w1 ++ (ExpandedField.FieldDefinition deferred_leaf, env2) :: more.
Proof.
  split; [reflexivity|]. split; [reflexivity|].
  exact (deferred_rule_is_applied_and_cleared unit (plain_interpreter Nil eval_attach_range)
           0%nat deferred_leaf ∅ deferred_world deferred_def (Symbol "limit")
           (Some (Range.mk 2 4)) None () _ ∅ true
           eq_refl eq_refl eq_refl eq_refl eq_refl eq_refl eq_refl eq_refl).
Defined.

(** C7 as stated fails in its last part: with deferred code that attaches
    [Range{lo: 2, hi: 4}] to a field of value 3, both validations succeed,
    and the deferred code has been evaluated once after the first and twice
    after the second. *)
Lemma deferred_rule_is_evaluated_again :
  validate_twice = Ok (true, true, 1%nat, 2%nat).
Proof. reflexivity. Qed.

(** ** Writing to a device *)

Section WriteFacts.
Context {L : Type} {I : Interpreter L}.

Lemma Validate_keeps_wire (fuel : nat) (self : ExpandedField.t) :
  ∀ env w b env' w',
    ExpandedField_Validate fuel self env w = Ok (b, env', w') → wire w' = wire w.
Proof.
  induction fuel as [|fuel IH]; intros env w b env' w' H; [discriminate|].
  cbn [ExpandedField_Validate] in H. inv_bind H. rename a into fd.
  destruct (DeviceField.IsConstant fd); [by injection H as <- <- <-|].
  destruct (DeviceField.ValidRange fd); [by injection H as <- <- <-|].
  destruct (DeviceField.ValidValues fd); [by injection H as <- <- <-|].
  destruct (DeviceField.DeferredValidationCode fd) as [code|];
    [|by injection H as <- <- <-].
  destruct (Eval code _ _) as [err [[l1 defs1] env1]].
  destruct err as [e|]; [by injection H as <- <- <-|].
  inv_bind H. destruct a as [[result env2] w2]. injection H as <- <- <-.
  apply IH in Ha0. cbn [wire] in *. done.
Qed.

Lemma validate_fields_keeps_wire (fuel : nat) (fields : list ExpandedField.t) :
  ∀ env w b w', validate_fields fuel fields env w = Ok (b, w') → wire w' = wire w.
Proof.
  induction fields as [|field rest IH]; intros env w b w' H; cbn [validate_fields] in H.
  { by injection H as <- <-. }
  inv_bind H. inv_bind H. destruct a0 as [[ok env1] w1].
  apply Validate_keeps_wire in Ha0. destruct ok; cbn [negb] in H.
  - apply IH in H. congruence.
  - injection H as <- <-. done.
Qed.

(** Whenever [WriteToDevice] returns, it has called the driver once, and
    the verdict of validation has no part in it. *)
Lemma WriteToDevice_calls_driver (fuel : nat) (deviceName jsonString : string)
    (w w' : World L) :
  WriteToDevice fuel deviceName jsonString w = Ok w' →
  ∃ call, wire w' = wire w ++ [call].
Proof.
  unfold WriteToDevice, getDeviceNamed. intros H.
  destruct (devices w !! deviceName) as [device|]; [|discriminate].
  destruct (JsonStringToLisp jsonString (lisp w)) as [json l].
  destruct (DeviceDeclaration.ExpandedStructures device !! _) as [structure|];
    [|discriminate].
  inv_bind H. destruct a as [structure' l1]. inv_bind H. destruct a as [ok w1].
  inv_bind H. destruct (DeviceDeclaration.Apis device !! _) as [api|]; [|discriminate].
  injection H as <-. cbn [wire].
  apply validate_fields_keeps_wire in Ha0. cbn [wire] in Ha0. rewrite Ha0. eauto.
Qed.
End WriteFacts.

(** C1 fails on the code.  On the document [{set-level: {level: 11}}], for a
    device whose field [level] has the rule [Range{lo: 0, hi: 10}],
    validation of the populated structure returns false, and [WriteToDevice]
    goes on to serialize the structure and to call the driver's [Write] with
    the byte 11: the verdict of [Validate] is dropped. *)
Theorem write_ignores_failed_validation :
  validate_level_11 = Ok false
  ∧ write_level_11 = Ok [mkDriverWrite 5 2 [11] 1].
Proof. split; reflexivity. Qed.

(** * Further properties of the device layer *)

(** ** Expansion: alignment, seeds, paths *)

Lemma well_sized_sizes_nonneg (heap : list DeviceField.t) :
  well_sized heap → sizes_nonneg heap.
Proof.
  unfold well_sized, sizes_nonneg. rewrite !forallb_forall. intros H fd Hin.
  specialize (H fd Hin). unfold field_sized, FieldSizeOf_atomic in H. unfold IsAtomic.
  destruct (String.eqb (DeviceField.TypeName fd) "uint8");
    [apply Z.eqb_eq in H; cbn; apply Z.leb_le; lia|].
  destruct (String.eqb (DeviceField.TypeName fd) "uint16");
    [apply Z.eqb_eq in H; cbn; apply Z.leb_le; lia|].
  destruct (String.eqb (DeviceField.TypeName fd) "uint32");
    [apply Z.eqb_eq in H; cbn; apply Z.leb_le; lia|].
  reflexivity.
Qed.

Lemma padded_is_aligned (size alignment : Z) :
  0 ≤ size → 0 < alignment →
  (size + paddingRequired size alignment) `mod` alignment = 0.
Proof.
  intros Hs Ha. rewrite paddingRequired_spec by lia. unfold spec_padding.
  destruct (Z.eqb_spec size 0) as [->|_]; cbn [orb].
  { by rewrite Z.add_0_r, Z.mod_0_l by lia. }
  destruct (Z.eqb_spec (size `mod` alignment) 0) as [H0|_].
  { by rewrite Z.add_0_r. }
  replace (size + (alignment - size `mod` alignment))
    with ((size `div` alignment + 1) * alignment)
    by (pose proof (Z.div_mod size alignment ltac:(lia)); lia).
  apply Z_mod_mult.
Qed.

Lemma AlignmentOf_size (t : string) (n : Z) :
  FieldSizeOf_atomic t = Some n → AlignmentOf t = n.
Proof.
  intros H. destruct (FieldSizeOf_atomic_cases t n H) as [[-> ->]|[[-> ->]|[-> ->]]];
    reflexivity.
Qed.

(** X1.  In the expansion of a schema whose primitive fields carry the sizes
    of their types, every leaf lies at a multiple of the alignment of its
    type, which is its own size: the padding rule aligns every leaf
    naturally. *)
Theorem leaves_are_aligned :
  ∀ (heap : list DeviceField.t) (Global : gmap string DeviceStructure.t) (fuel : nat)
    (s : DeviceStructure.t) (es : ExpandedStructure.t),
    well_sized heap →
    Expand heap Global fuel s = Ok es →
    Forall (λ f, ∃ fd, heap !! ExpandedField.FieldDefinition f = Some fd
                       ∧ ExpandedField.Offset f `mod` AlignmentOf (DeviceField.TypeName fd) = 0
                       ∧ ExpandedField.Offset f `mod` ExpandedField.Size f = 0)
      (ExpandedStructure.Fields es).
Proof.
  intros heap Global fuel s es Hws H.
  pose proof (well_sized_sizes_nonneg heap Hws) as Hnn.
  enough (0 ≤ ExpandedStructure.Size es
          ∧ Forall (λ f, ∃ fd, heap !! ExpandedField.FieldDefinition f = Some fd
                       ∧ ExpandedField.Offset f `mod` AlignmentOf (DeviceField.TypeName fd) = 0
                       ∧ ExpandedField.Offset f `mod` ExpandedField.Size f = 0)
              (ExpandedStructure.Fields es)) as [_ ?] by done.
  eapply (Expand_preserves heap Global (λ es,
    0 ≤ ExpandedStructure.Size es
    ∧ Forall (λ f, ∃ fd, heap !! ExpandedField.FieldDefinition f = Some fd
                 ∧ ExpandedField.Offset f `mod` AlignmentOf (DeviceField.TypeName fd) = 0
                 ∧ ExpandedField.Offset f `mod` ExpandedField.Size f = 0)
        (ExpandedStructure.Fields es))); [|split; [cbn; lia|constructor]|exact H].
  intros self p f path Hp Hat [Hsz Hall]. cbn.
  pose proof (AlignmentOf_pos (DeviceField.TypeName f)) as Hal.
  pose proof (sizes_nonneg_lookup _ _ _ Hnn Hp Hat) as Hfs.
  pose proof (padded_is_aligned (ExpandedStructure.Size self) _ Hsz Hal) as Halign.
  assert (0 ≤ paddingRequired (ExpandedStructure.Size self)
                (AlignmentOf (DeviceField.TypeName f))) as Hpad.
  { rewrite paddingRequired_spec by lia. by apply spec_padding_nonneg. }
  split; [lia|]. apply Forall_app. split; [done|]. constructor; [|constructor].
  exists f. cbn. split; [done|]. split; [done|].
  by rewrite <- (AlignmentOf_size _ _ (well_sized_lookup _ _ _ Hws Hp Hat)).
Qed.

Lemma leaves_are_aligned_witness :
  well_sized align_heap
  ∧ Forall (λ f, ∃ fd, align_heap !! ExpandedField.FieldDefinition f = Some fd
                       ∧ ExpandedField.Offset f `mod` AlignmentOf (DeviceField.TypeName fd) = 0
                       ∧ ExpandedField.Offset f `mod` ExpandedField.Size f = 0)
      [ ExpandedField.mk 0%nat "/a" 0 0 1;
        ExpandedField.mk 1%nat "/b" 4 0 4;
        ExpandedField.mk 2%nat "/c" 8 0 2;
        ExpandedField.mk 3%nat "/d" 10 0 1 ].
Proof.
  split; [reflexivity|].
  exact (leaves_are_aligned align_heap ∅ 2%nat align_struct _ eq_refl eq_refl).
Defined.

(** X2.  Expansion seeds the values: in an expansion every leaf of a constant
    field carries the constant of its definition, and every other leaf the
    value 0. *)
Theorem expansion_seeds_values :
  ∀ (heap : list DeviceField.t) (Global : gmap string DeviceStructure.t) (fuel : nat)
    (s : DeviceStructure.t) (es : ExpandedStructure.t),
    Expand heap Global fuel s = Ok es →
    Forall (λ f, ∃ fd, heap !! ExpandedField.FieldDefinition f = Some fd
                       ∧ ExpandedField.Value f
                         = if DeviceField.IsConstant fd then DeviceField.Constant fd else 0)
      (ExpandedStructure.Fields es).
Proof.
  intros heap Global fuel s es H.
  eapply (Expand_preserves heap Global (λ es,
    Forall (λ f, ∃ fd, heap !! ExpandedField.FieldDefinition f = Some fd
                 ∧ ExpandedField.Value f
                   = if DeviceField.IsConstant fd then DeviceField.Constant fd else 0)
      (ExpandedStructure.Fields es))); [|constructor|exact H].
  intros self p f path Hp Hat Hall. cbn. apply Forall_app. split; [done|].
  constructor; [|constructor]. exists f. done.
Qed.

Lemma expansion_seeds_values_witness :
  Expand repeated_heap ∅ 2 repeated_struct
  = Ok (ExpandedStructure.mk "repeated"
          [ ExpandedField.mk 0%nat "/head" 0 0 1;
            ExpandedField.mk 1%nat "/item/0" 2 0 2;
            ExpandedField.mk 1%nat "/item/1" 4 0 2;
            ExpandedField.mk 1%nat "/item/2" 6 0 2;
            ExpandedField.mk 2%nat "/tail" 8 9 4 ] 12)
  ∧ Forall (λ f, ∃ fd, repeated_heap !! ExpandedField.FieldDefinition f = Some fd
                       ∧ ExpandedField.Value f
                         = if DeviceField.IsConstant fd then DeviceField.Constant fd else 0)
      [ ExpandedField.mk 0%nat "/head" 0 0 1;
        ExpandedField.mk 1%nat "/item/0" 2 0 2;
        ExpandedField.mk 1%nat "/item/1" 4 0 2;
        ExpandedField.mk 1%nat "/item/2" 6 0 2;
        ExpandedField.mk 2%nat "/tail" 8 9 4 ].
Proof.
  split; [reflexivity|].
  exact (expansion_seeds_values repeated_heap ∅ 2%nat repeated_struct _ eq_refl).
Defined.

Lemma for_each_atomic_paths (heap : list DeviceField.t) (p : ptr) (f : DeviceField.t)
    (path : Z → string) (xs : list Z) :
  ∀ self,
    ∃ es', for_each (λ self i, Ok (appendAtomic self p f (path i))) xs self = Ok es'
      ∧ ExpandedField.Path <$> ExpandedStructure.Fields es'
        = (ExpandedField.Path <$> ExpandedStructure.Fields self) ++ (path <$> xs).
Proof.
  induction xs as [|x xs IH]; intros self; cbn [for_each].
  - exists self. by rewrite app_nil_r.
  - cbn [mbind res_bind]. destruct (IH (appendAtomic self p f (path x))) as (es' & -> & Hp).
    exists es'. split; [done|]. rewrite Hp. cbn. by rewrite fmap_app, <- app_assoc.
Qed.

(** X3.  Expanding a primitive field always returns, and appends one leaf per
    element: for a repeat count above 1 the paths [prefix/name/0] to
    [prefix/name/(count-1)] in this order, for a count of 1 the single path
    [prefix/name], and for a count of 0 or less nothing at all. *)
Theorem primitive_field_paths :
  ∀ (heap : list DeviceField.t) (Global : gmap string DeviceStructure.t) (fuel : nat)
    (self : ExpandedStructure.t) (p : ptr) (f : DeviceField.t) (pathSoFar : string),
    heap !! p = Some f →
    IsAtomic f = true →
    ∃ es',
      addExpandedField heap Global (S fuel) self p pathSoFar = Ok es'
      ∧ ExpandedField.Path <$> ExpandedStructure.Fields es'
        = (ExpandedField.Path <$> ExpandedStructure.Fields self)
          ++ (if DeviceField.RepeatCount f >? 1
              then (λ i, pathSoFar +:+ "/" +:+ DeviceField.Name f +:+ "/" +:+ pretty i)
                     <$> seqZ 0 (DeviceField.RepeatCount f)
              else if DeviceField.RepeatCount f =? 1
              then [pathSoFar +:+ "/" +:+ DeviceField.Name f]
              else []).
Proof.
  intros heap Global fuel self p f pathSoFar Hp Hat.
  cbn [addExpandedField]. unfold deref. rewrite Hp. cbn [mbind res_bind]. rewrite Hat.
  destruct (for_each_atomic_paths heap p f (λ i, pathSoFar +:+ "/" +:+ pathPart f i)
              (seqZ 0 (DeviceField.RepeatCount f)) self) as (es' & Hrun & Hpaths).
  exists es'. split; [exact Hrun|]. rewrite Hpaths. f_equal. unfold pathPart.
  destruct (Z.gtb_spec (DeviceField.RepeatCount f) 1) as [Hgt|Hle]; [done|].
  destruct (Z.eqb_spec (DeviceField.RepeatCount f) 1) as [->|Hne]; [done|].
  rewrite seqZ_nil by lia. done.
Qed.

Lemma primitive_field_paths_witness :
  repeated_heap !! 1%nat = Some (DeviceField.NewFieldWithCount "item" "uint16" 2 3)
  ∧ ∃ es',
      addExpandedField repeated_heap ∅ 1 (ExpandedStructure.mk "repeated" [] 0) 1%nat
        EmptyString = Ok es'
      ∧ ExpandedField.Path <$> ExpandedStructure.Fields es'
        = [] ++ ((λ i, EmptyString +:+ "/" +:+ "item" +:+ "/" +:+ pretty i) <$> seqZ 0 3).
Proof.
  split; [reflexivity|].
  exact (primitive_field_paths repeated_heap ∅ 0%nat (ExpandedStructure.mk "repeated" [] 0)
           1%nat (DeviceField.NewFieldWithCount "item" "uint16" 2 3) EmptyString
           eq_refl eq_refl).
Defined.

(** ** Expansion: when it returns *)

Lemma for_each_Ok_elem {A S : Type} (body : S → A → res S) (xs : list A) (x : A) :
  x ∈ xs → ∀ s s', for_each body xs s = Ok s' → ∃ s1 s2, body s1 x = Ok s2.
Proof.
  induction xs as [|y xs IH]; intros Hin s s' H; [by apply elem_of_nil in Hin|].
  cbn [for_each] in H. inv_bind H. apply elem_of_cons in Hin as [->|Hin]; eauto.
Qed.

Lemma for_each_not_Panic {A S : Type} (body : S → A → res S) (xs : list A) :
  (∀ s x, x ∈ xs → body s x ≠ Panic) → ∀ s, for_each body xs s ≠ Panic.
Proof.
  induction xs as [|x xs IH]; intros Hbody s; cbn [for_each]; [done|].
  pose proof (Hbody s x ltac:(left)) as Hx.
  destruct (body s x) as [s1| |]; cbn; [|done|done].
  apply IH. intros ? ? ?. apply Hbody. by right.
Qed.

Lemma addExpandedFields_S (heap : list DeviceField.t) (Global : gmap string DeviceStructure.t)
    (fuel : nat) (self : ExpandedStructure.t) (fields : list ptr) (path : string) :
  addExpandedFields heap Global (S fuel) self fields path
  = for_each (λ self p, addExpandedField heap Global fuel self p path) fields self.
Proof. reflexivity. Qed.

(** X4.  A structure with a field of its own type that has at least one
    element never finishes expanding: whatever the depth of calls allowed,
    [Expand] does not return an expanded structure. *)
Theorem self_reference_never_expands :
  ∀ (heap : list DeviceField.t) (Global : gmap string DeviceStructure.t)
    (s : DeviceStructure.t) (p : ptr) (f : DeviceField.t),
    p ∈ DeviceStructure.Fields s →
    heap !! p = Some f →
    IsAtomic f = false →
    Global !! DeviceField.TypeName f = Some s →
    1 ≤ DeviceField.RepeatCount f →
    ∀ fuel es, Expand heap Global fuel s ≠ Ok es.
Proof.
  intros heap Global s p f Hin Hp Hat Hself Hcount fuel.
  unfold Expand. generalize (ExpandedStructure.mk (DeviceStructure.Name s) [] 0).
  generalize EmptyString.
  induction (lt_wf fuel) as [fuel _ IH]. intros path self es H.
  destruct fuel as [|fuel]; [discriminate|]. cbn [addExpandedFields] in H.
  destruct (for_each_Ok_elem _ _ p Hin _ _ H) as (s1 & s2 & Hfield).
  destruct fuel as [|fuel]; [discriminate|]. cbn [addExpandedField] in Hfield.
  unfold deref in Hfield. rewrite Hp in Hfield. cbn [mbind res_bind] in Hfield.
  rewrite Hat, Hself in Hfield.
  assert (0 ∈ seqZ 0 (DeviceField.RepeatCount f)) as H0 by (apply elem_of_seqZ; lia).
  destruct (for_each_Ok_elem _ _ 0 H0 _ _ Hfield) as (s3 & s4 & Hrec).
  by eapply (IH fuel ltac:(lia)).
Qed.

Lemma self_reference_never_expands_witness :
  0%nat ∈ DeviceStructure.Fields knot_struct
  ∧ ∀ fuel es, Expand knot_heap {[ "knot" := knot_struct ]} fuel knot_struct ≠ Ok es.
Proof.
  assert (0%nat ∈ DeviceStructure.Fields knot_struct) as Hin by (cbn; set_solver).
  split; [exact Hin|].
  exact (self_reference_never_expands knot_heap {[ "knot" := knot_struct ]} knot_struct
           0%nat (DeviceField.NewField "next" "knot" 1) Hin eq_refl eq_refl eq_refl
           ltac:(done)).
Defined.

(** X5.  A field with at least one element whose type is neither primitive
    nor bound to a structure makes expansion fail: [Expand] does not return
    an expanded structure, and with the field first in the structure it
    panics. *)
Theorem unknown_type_fails_expansion :
  ∀ (heap : list DeviceField.t) (Global : gmap string DeviceStructure.t)
    (s : DeviceStructure.t) (p : ptr) (f : DeviceField.t),
    p ∈ DeviceStructure.Fields s →
    heap !! p = Some f →
    IsAtomic f = false →
    Global !! DeviceField.TypeName f = None →
    1 ≤ DeviceField.RepeatCount f →
    (∀ fuel es, Expand heap Global fuel s ≠ Ok es)
    ∧ (head (DeviceStructure.Fields s) = Some p →
       ∀ fuel, Expand heap Global (S (S fuel)) s = Panic).
Proof.
  intros heap Global s p f Hin Hp Hat Hnone Hcount.
  assert (∀ fuel self path, addExpandedField heap Global (S fuel) self p path = Panic)
    as Hpanic.
  { intros fuel self path. cbn [addExpandedField]. unfold deref. rewrite Hp.
    cbn [mbind res_bind]. rewrite Hat, Hnone.
    rewrite (seqZ_cons 0 (DeviceField.RepeatCount f)) by lia. reflexivity. }
  split.
  - intros fuel es H. unfold Expand in H.
    destruct fuel as [|fuel]; [discriminate|]. cbn [addExpandedFields] in H.
    destruct (for_each_Ok_elem _ _ p Hin _ _ H) as (s1 & s2 & Hfield).
    destruct fuel as [|fuel]; [discriminate|]. cbn [addExpandedField] in Hfield.
    unfold deref in Hfield. rewrite Hp in Hfield. cbn [mbind res_bind] in Hfield.
    rewrite Hat, Hnone in Hfield.
    rewrite (seqZ_cons 0 (DeviceField.RepeatCount f)) in Hfield by lia. discriminate.
  - intros Hhead fuel. unfold Expand. rewrite addExpandedFields_S.
    destruct (DeviceStructure.Fields s) as [|q rest]; [discriminate|].
    injection Hhead as ->. cbn [for_each]. by rewrite Hpanic.
Qed.

Lemma unknown_type_fails_expansion_witness :
  0%nat ∈ DeviceStructure.Fields dangling_struct
  ∧ (∀ fuel es, Expand dangling_heap ∅ fuel dangling_struct ≠ Ok es)
  ∧ (head (DeviceStructure.Fields dangling_struct) = Some 0%nat →
     ∀ fuel, Expand dangling_heap ∅ (S (S fuel)) dangling_struct = Panic).
Proof.
  assert (0%nat ∈ DeviceStructure.Fields dangling_struct) as Hin by (cbn; set_solver).
  split; [exact Hin|].
  exact (unknown_type_fails_expansion dangling_heap ∅ dangling_struct 0%nat
           (DeviceField.NewField "who" "nobody" 1) Hin eq_refl eq_refl eq_refl
           ltac:(done)).
Defined.

Lemma addExpandedField_S (heap : list DeviceField.t) (Global : gmap string DeviceStructure.t)
    (fuel : nat) (self : ExpandedStructure.t) (p : ptr) (pathSoFar : string) :
  addExpandedField heap Global (S fuel) self p pathSoFar
  = (f ← deref heap p;
     for_each
       (λ self i,
          let path := pathSoFar +:+ "/" +:+ pathPart f i in
          if IsAtomic f then Ok (appendAtomic self p f path)
          else
            match Global !! DeviceField.TypeName f with
            | Some s => addExpandedFields heap Global fuel self (DeviceStructure.Fields s) path
            | None => Panic
            end)
       (seqZ 0 (DeviceField.RepeatCount f)) self).
Proof. reflexivity. Qed.

Lemma IsValidType_bound (Global : gmap string DeviceStructure.t) (f : DeviceField.t) :
  IsValidType Global (DeviceField.TypeName f) = true → IsAtomic f = false →
  ∃ s, Global !! DeviceField.TypeName f = Some s.
Proof.
  unfold IsValidType, IsAtomic. intros Hv Hat. rewrite Hat in Hv.
  destruct (Global !! DeviceField.TypeName f); [eauto|discriminate].
Qed.

(** X6.  The check that [IsValidType] makes on the type of a field rules out
    panics in expansion: when the type of every definition is valid and the
    structures hold pointers to definitions, [Expand] never panics, whatever
    the depth of calls; it returns, or the nesting has no end. *)
Theorem valid_types_never_panic :
  ∀ (heap : list DeviceField.t) (Global : gmap string DeviceStructure.t)
    (s : DeviceStructure.t),
    Forall (λ fd, IsValidType Global (DeviceField.TypeName fd) = true) heap →
    Forall (λ p, (p < length heap)%nat) (DeviceStructure.Fields s) →
    map_Forall (λ _ st, Forall (λ p, (p < length heap)%nat) (DeviceStructure.Fields st))
      Global →
    ∀ fuel, Expand heap Global fuel s ≠ Panic.
Proof.
  intros heap Global s Hvalid Hs Hglobal fuel. unfold Expand.
  generalize (ExpandedStructure.mk (DeviceStructure.Name s) [] 0). generalize EmptyString.
  revert Hs. generalize (DeviceStructure.Fields s).
  enough ((∀ self p path, (p < length heap)%nat →
             addExpandedField heap Global fuel self p path ≠ Panic)
          ∧ (∀ fields path self, Forall (λ p, (p < length heap)%nat) fields →
             addExpandedFields heap Global fuel self fields path ≠ Panic)) as [_ H]
    by (intros; by apply H).
  induction fuel as [|fuel [IHf IHfs]]; [split; intros; discriminate|].
  split.
  - intros self p path Hp. rewrite addExpandedField_S. unfold deref.
    destruct (lookup_lt_is_Some_2 heap p Hp) as [f Hf]. rewrite Hf. cbn [mbind res_bind].
    apply for_each_not_Panic. intros s1 i _.
    destruct (IsAtomic f) eqn:Hat; [done|].
    assert (IsValidType Global (DeviceField.TypeName f) = true) as Hv.
    { apply (proj1 (Forall_forall _ _) Hvalid f), list_elem_of_lookup. eauto. }
    destruct (IsValidType_bound Global f Hv Hat) as [st Hst]. cbn. rewrite Hst.
    apply IHfs. exact (Hglobal _ _ Hst).
  - intros fields path self Hfields. rewrite addExpandedFields_S.
    apply for_each_not_Panic. intros s1 p Hp. apply IHf.
    exact (proj1 (Forall_forall _ _) Hfields p Hp).
Qed.

Lemma valid_types_never_panic_witness :
  Forall (λ fd, IsValidType nested_global (DeviceField.TypeName fd) = true) nested_heap
  ∧ ∀ fuel, Expand nested_heap nested_global fuel outer_struct ≠ Panic.
Proof.
  assert (Forall (λ fd, IsValidType nested_global (DeviceField.TypeName fd) = true)
            nested_heap) as Hvalid by (repeat constructor).
  split; [exact Hvalid|].
  apply (valid_types_never_panic nested_heap nested_global outer_struct Hvalid).
  - repeat constructor.
  - apply map_Forall_singleton. repeat constructor.
Defined.

Lemma for_each_ext_Ok {A S : Type} (body body' : S → A → res S) (xs : list A) :
  (∀ s x s', body s x = Ok s' → body' s x = Ok s') →
  ∀ s s', for_each body xs s = Ok s' → for_each body' xs s = Ok s'.
Proof.
  intros Hext. induction xs as [|x xs IH]; intros s s' H; cbn [for_each] in *; [done|].
  inv_bind H. rewrite (Hext _ _ _ Ha). cbn. by apply IH.
Qed.

Lemma expansion_fuel_mono (heap : list DeviceField.t) (Global : gmap string DeviceStructure.t)
    (fuel : nat) :
  (∀ self p path es',
     addExpandedField heap Global fuel self p path = Ok es' →
     addExpandedField heap Global (S fuel) self p path = Ok es')
  ∧ (∀ self fields path es',
     addExpandedFields heap Global fuel self fields path = Ok es' →
     addExpandedFields heap Global (S fuel) self fields path = Ok es').
Proof.
  induction fuel as [|fuel [IHf IHfs]]; [split; intros; discriminate|].
  split.
  - intros self p path es' H. rewrite addExpandedField_S in *.
    inv_bind H. rewrite Ha. cbn [mbind res_bind]. revert H. apply for_each_ext_Ok.
    intros s1 i s2. cbn. destruct (IsAtomic a); [done|].
    destruct (Global !! DeviceField.TypeName a); [apply IHfs|done].
  - intros self fields path es' H. rewrite addExpandedFields_S in *.
    revert H. apply for_each_ext_Ok. intros s1 p s2. apply IHf.
Qed.

(** X7.  Expansion returns on a schema without cycles: when every field
    reached is defined and primitive or bound, to a nesting of at most
    [depth] structures, [Expand] returns an expanded structure once [2 *
    depth + 2] nested calls are allowed, and allowing more gives the same
    structure. *)
Theorem expansion_returns_on_resolved_schema :
  ∀ (heap : list DeviceField.t) (Global : gmap string DeviceStructure.t)
    (depth : nat) (s : DeviceStructure.t),
    resolves heap Global depth (DeviceStructure.Fields s) = true →
    ∃ es, ∀ fuel, (2 * depth + 2 ≤ fuel)%nat → Expand heap Global fuel s = Ok es.
Proof.
  intros heap Global depth s Hres.
  destruct (Expand_total heap Global depth (2 * depth + 2) s ltac:(lia) Hres) as [es Hes].
  exists es. intros fuel Hfuel.
  replace fuel with ((fuel - (2 * depth + 2)) + (2 * depth + 2))%nat by lia.
  induction (fuel - (2 * depth + 2))%nat as [|k IH]; [exact Hes|].
  exact (proj2 (expansion_fuel_mono heap Global _) _ _ _ _ IH).
Qed.

Lemma expansion_returns_on_resolved_schema_witness :
  resolves nested_heap nested_global 1 (DeviceStructure.Fields outer_struct) = true
  ∧ ∃ es, ∀ fuel, (2 * 1 + 2 ≤ fuel)%nat → Expand nested_heap nested_global fuel outer_struct = Ok es.
Proof.
  split; [reflexivity|].
  exact (expansion_returns_on_resolved_schema nested_heap nested_global 1%nat outer_struct
           eq_refl).
Defined.

(** ** Declared size and expanded size *)

Lemma for_each_grows {A S : Type} (m : S → Z) (c : Z) (body : S → A → res S) (xs : list A) :
  (∀ s x s', body s x = Ok s' → m s + c ≤ m s') →
  ∀ s s', for_each body xs s = Ok s' → m s + c * Z.of_nat (length xs) ≤ m s'.
Proof.
  intros Hbody. induction xs as [|x xs IH]; intros s s' H; cbn [for_each] in H.
  - injection H as <-. cbn. lia.
  - inv_bind H. apply IH in H. apply Hbody in Ha. cbn [length]. lia.
Qed.

Lemma primitive_field_grows (heap : list DeviceField.t) (Global : gmap string DeviceStructure.t)
    (fuel : nat) (self es' : ExpandedStructure.t) (p : ptr) (f : DeviceField.t)
    (path : string) :
  heap !! p = Some f → IsAtomic f = true → 0 ≤ DeviceField.Size f →
  0 ≤ ExpandedStructure.Size self →
  addExpandedField heap Global fuel self p path = Ok es' →
  ExpandedStructure.Size self + DeviceField.TotalSize f ≤ ExpandedStructure.Size es'
  ∧ 0 ≤ ExpandedStructure.Size es'.
Proof.
  intros Hp Hat Hsz Hself H. destruct fuel as [|fuel]; [discriminate|].
  rewrite addExpandedField_S in H. unfold deref in H. rewrite Hp in H.
  cbn [mbind res_bind] in H. rewrite Hat in H.
  pose proof (AlignmentOf_pos (DeviceField.TypeName f)) as Hal.
  assert (∀ s i s',
            (λ self i, Ok (appendAtomic self p f (path +:+ "/" +:+ pathPart f i))) s i = Ok s' →
            0 ≤ ExpandedStructure.Size s →
            ExpandedStructure.Size s + DeviceField.Size f ≤ ExpandedStructure.Size s') as Hstep.
  { intros s i s' Hs Hs0. injection Hs as <-. cbn.
    rewrite paddingRequired_spec by lia.
    pose proof (spec_padding_nonneg (ExpandedStructure.Size s) _ Hal). lia. }
  assert (0 ≤ ExpandedStructure.Size es'
          ∧ ExpandedStructure.Size self
            + DeviceField.Size f * Z.of_nat (length (seqZ 0 (DeviceField.RepeatCount f)))
            ≤ ExpandedStructure.Size es') as [Hes' Hgrow].
  { revert Hself H. generalize (seqZ 0 (DeviceField.RepeatCount f)). intros xs. revert self.
    induction xs as [|x xs IH]; intros self Hself H; cbn [for_each] in H.
    - injection H as <-. cbn. lia.
    - cbn [mbind res_bind] in H.
      pose proof (Hstep self x _ eq_refl Hself) as Hx.
      assert (0 ≤ ExpandedStructure.Size
                    (appendAtomic self p f (path +:+ "/" +:+ pathPart f x))) as Hx0 by lia.
      destruct (IH _ Hx0 H) as [? ?]. cbn [length]. split; [done|]. nia. }
  split; [|done]. unfold DeviceField.TotalSize. rewrite length_seqZ in Hgrow.
  destruct (Z.le_gt_cases 0 (DeviceField.RepeatCount f)).
  - rewrite Z2Nat.id in Hgrow by done. lia.
  - rewrite Z2Nat.nonpos in Hgrow by lia. nia.
Qed.

Lemma declare_fields (heap : list DeviceField.t) (fields : list ptr) :
  ∀ s0 s,
    for_each (λ s p, fd ← deref heap p; Ok (DeviceStructure.AddField s p fd)) fields s0
    = Ok s →
    DeviceStructure.Fields s = DeviceStructure.Fields s0 ++ fields.
Proof.
  induction fields as [|p rest IH]; intros s0 s H; cbn [for_each] in H.
  - injection H as <-. by rewrite app_nil_r.
  - inv_bind H. inv_bind Ha. injection Ha as <-. rewrite (IH _ _ H). cbn.
    by rewrite <- app_assoc.
Qed.

(** X8.  The byte buffer is never smaller than the declared structure: for a
    structure declared with [AddField] from primitive fields of sizes that
    are not negative, the size that [AddField] sums up is at most the size of
    the expansion, which counts the padding as well. *)
Theorem declared_size_below_expanded_size :
  ∀ (heap : list DeviceField.t) (Global : gmap string DeviceStructure.t) (fuel : nat)
    (name : string) (fields : list ptr) (s : DeviceStructure.t) (es : ExpandedStructure.t),
    sizes_nonneg heap →
    Forall (λ p, ∃ f, heap !! p = Some f ∧ IsAtomic f = true) fields →
    declare heap name fields = Ok s →
    Expand heap Global fuel s = Ok es →
    DeviceStructure.Fields s = fields
    ∧ DeviceStructure.SizeOf s ≤ ExpandedStructure.Size es.
Proof.
  intros heap Global fuel name fields s es Hnn Hat Hdecl Hexp.
  unfold declare in Hdecl. unfold Expand in Hexp.
  destruct fuel as [|fuel]; [discriminate|]. rewrite addExpandedFields_S in Hexp.
  assert (DeviceStructure.Fields s = fields) as Hfields
    by (by rewrite (declare_fields _ _ _ _ Hdecl)).
  rewrite Hfields in Hexp.
  enough (∀ s0 es0,
            0 ≤ ExpandedStructure.Size es0 →
            for_each (λ s p, fd ← deref heap p; Ok (DeviceStructure.AddField s p fd))
              fields s0 = Ok s →
            for_each (λ self p, addExpandedField heap Global fuel self p EmptyString)
              fields es0 = Ok es →
            DeviceStructure.Fields s = DeviceStructure.Fields s0 ++ fields
            ∧ DeviceStructure.Size s - DeviceStructure.Size s0
              ≤ ExpandedStructure.Size es - ExpandedStructure.Size es0) as Hgen.
  { destruct (Hgen (DeviceStructure.NewStructNamed name)
                (ExpandedStructure.mk (DeviceStructure.Name s) [] 0)) as [Hf Hs];
      [cbn; lia|exact Hdecl|exact Hexp|].
    cbn in Hf, Hs. unfold DeviceStructure.SizeOf. split; [done|lia]. }
  clear Hdecl Hexp Hfields. induction Hat as [|p rest (f & Hp & Hatom) _ IH];
    intros s0 es0 Hes0 Hdecl Hexp; cbn [for_each] in Hdecl, Hexp.
  - injection Hdecl as <-. injection Hexp as <-. rewrite app_nil_r. split; [done|lia].
  - inv_bind Hdecl. inv_bind Hexp. unfold deref in Ha. rewrite Hp in Ha.
    cbn [mbind res_bind] in Ha. injection Ha as <-.
    pose proof (sizes_nonneg_lookup _ _ _ Hnn Hp Hatom) as Hsz.
    destruct (primitive_field_grows _ _ _ _ _ _ _ _ Hp Hatom Hsz Hes0 Ha0) as [Hgrow H0].
    destruct (IH _ _ H0 Hdecl Hexp) as [Hf Hs]. cbn in Hf, Hs.
    split; [by rewrite Hf, <- app_assoc|]. lia.
Qed.

Lemma declared_size_below_expanded_size_witness :
  sizes_nonneg sv_heap
  ∧ declare sv_heap "api" [0; 1]%nat = Ok sv_struct
  ∧ DeviceStructure.Fields sv_struct = [0; 1]%nat
  ∧ DeviceStructure.SizeOf sv_struct ≤ 4.
Proof.
  split; [reflexivity|]. split; [reflexivity|].
  refine (declared_size_below_expanded_size sv_heap ∅ 2%nat "api" [0; 1]%nat sv_struct
            (ExpandedStructure.mk "api"
               [ExpandedField.mk 0%nat "/status" 0 0 1; ExpandedField.mk 1%nat "/value" 2 0 2] 4)
            eq_refl _ eq_refl eq_refl).
  repeat constructor; eexists; split; reflexivity.
Defined.

(** ** Byte codec: padding, short buffers *)

Lemma write_fields_outside (heap : list DeviceField.t) (fields : list ExpandedField.t) :
  ∀ (cursor final : Z) (bytes bytes' : list Z),
    laid_out cursor fields final → Forall (leaf_ok heap) fields →
    0 ≤ cursor → final ≤ Z.of_nat (length bytes) →
    for_each (λ bytes f, AddFieldToByteArray heap f bytes) fields bytes = Ok bytes' →
    ∀ j : nat,
      (∀ f, f ∈ fields → Z.of_nat j < ExpandedField.Offset f
                         ∨ ExpandedField.Offset f + ExpandedField.Size f ≤ Z.of_nat j) →
      bytes' !! j = bytes !! j.
Proof.
  induction fields as [|f rest IH]; intros cursor final bytes bytes' Hlay Hleaf Hc Hfin H j Hj.
  - cbn in H. by injection H as <-.
  - destruct Hlay as (Hoff & Hsz & Hrest). inversion Hleaf as [|? ? Hf Hleaf']; subst.
    pose proof (laid_out_final _ _ _ Hrest) as Hle.
    destruct (AddFieldToByteArray_effect heap f bytes Hf) as (b1 & Hw & Hlen1 & _ & Hfr1);
      [lia..|].
    cbn [for_each] in H. rewrite Hw in H. cbn [mbind res_bind] in H.
    assert (0 ≤ ExpandedField.Offset f + ExpandedField.Size f) as H0 by lia.
    assert (final ≤ Z.of_nat (length b1)) as H1 by lia.
    rewrite (IH _ _ b1 bytes' Hrest Hleaf' H0 H1 H j).
    + apply Hfr1, Hj. left.
    + intros g Hg. apply Hj. by right.
Qed.

(** X9.  The buffer that [ByteArray] makes for a laid-out structure has the
    size of the structure, and every byte of it that no field covers, the
    padding, is 0. *)
Theorem padding_bytes_are_zero :
  ∀ (heap : list DeviceField.t) (es : ExpandedStructure.t),
    well_laid heap es →
    ∃ bytes,
      ByteArray heap es = Ok bytes
      ∧ Z.of_nat (length bytes) = ExpandedStructure.Size es
      ∧ ∀ j : nat,
          (j < length bytes)%nat →
          (∀ f, f ∈ ExpandedStructure.Fields es →
                Z.of_nat j < ExpandedField.Offset f
                ∨ ExpandedField.Offset f + ExpandedField.Size f ≤ Z.of_nat j) →
          bytes !! j = Some 0.
Proof.
  intros heap es Hwl.
  destruct (ByteArray_holds heap es Hwl) as (bytes & Hb & Hlen & _).
  exists bytes. split; [exact Hb|]. split; [exact Hlen|]. intros j Hj Hout.
  destruct Hwl as [Hlay Hleaf]. pose proof (laid_out_final _ _ _ Hlay) as Hsz.
  unfold ByteArray in Hb. rewrite make_bytes_Ok in Hb by done. cbn [mbind res_bind] in Hb.
  assert (ExpandedStructure.Size es
          ≤ Z.of_nat (length (replicate (Z.to_nat (ExpandedStructure.Size es)) 0))) as H1
    by (rewrite length_replicate; lia).
  rewrite (write_fields_outside heap _ 0 _ _ bytes Hlay Hleaf (Z.le_refl 0) H1 Hb j Hout).
  apply lookup_replicate_2. lia.
Qed.

Lemma padding_bytes_are_zero_witness :
  well_laid sv_heap
    (ExpandedStructure.mk "api"
       [ExpandedField.mk 0%nat "/status" 0 1 1; ExpandedField.mk 1%nat "/value" 2 300 2] 4)
  ∧ ByteArray sv_heap
      (ExpandedStructure.mk "api"
         [ExpandedField.mk 0%nat "/status" 0 1 1; ExpandedField.mk 1%nat "/value" 2 300 2] 4)
    = Ok [1; 0; 44; 1]
  ∧ ∃ bytes,
      ByteArray sv_heap
        (ExpandedStructure.mk "api"
           [ExpandedField.mk 0%nat "/status" 0 1 1; ExpandedField.mk 1%nat "/value" 2 300 2] 4)
      = Ok bytes
      ∧ Z.of_nat (length bytes) = 4
      ∧ ∀ j : nat,
          (j < length bytes)%nat →
          (∀ f, f ∈ [ExpandedField.mk 0%nat "/status" 0 1 1;
                     ExpandedField.mk 1%nat "/value" 2 300 2] →
                Z.of_nat j < ExpandedField.Offset f
                ∨ ExpandedField.Offset f + ExpandedField.Size f ≤ Z.of_nat j) →
          bytes !! j = Some 0.
Proof.
  assert (well_laid sv_heap
    (ExpandedStructure.mk "api"
       [ExpandedField.mk 0%nat "/status" 0 1 1; ExpandedField.mk 1%nat "/value" 2 300 2] 4))
    as Hwl.
  { split.
    - cbn. lia.
    - repeat constructor; eexists; split; reflexivity. }
  split; [exact Hwl|]. split; [reflexivity|].
  exact (padding_bytes_are_zero sv_heap _ Hwl).
Defined.

Lemma load_byte_inv (bytes : list Z) (i b : Z) :
  load_byte bytes i = Ok b → 0 ≤ i < Z.of_nat (length bytes).
Proof.
  unfold load_byte. destruct (Z.leb_spec 0 i); [|discriminate].
  destruct (bytes !! Z.to_nat i) eqn:Hl; [|discriminate]. intros _.
  apply lookup_lt_Some in Hl. lia.
Qed.

Lemma load_byte_cases (bytes : list Z) (i : Z) :
  load_byte bytes i = Panic ∨ ∃ b, load_byte bytes i = Ok b.
Proof.
  unfold load_byte. destruct (0 <=? i); [|by left].
  destruct (bytes !! Z.to_nat i); eauto.
Qed.

Lemma getValueForField_short (heap : list DeviceField.t) (f : ExpandedField.t)
    (fd : DeviceField.t) (bytes : list Z) :
  leaf_ok heap f → heap !! ExpandedField.FieldDefinition f = Some fd →
  DeviceField.IsConstant fd = false →
  Z.of_nat (length bytes) < ExpandedField.Offset f + ExpandedField.Size f →
  getValueForField heap f bytes = Panic.
Proof.
  intros Hleaf Hfd Hc Hshort.
  destruct (leaf_ok_cases _ _ Hleaf) as (fd' & Hfd' & Hcases).
  unfold getValueForField, deref. rewrite Hfd. cbn [mbind res_bind]. rewrite Hc.
  destruct Hcases as [[_ Hsz]|[[_ Hsz]|[_ Hsz]]]; rewrite Hsz in *.
  - change (seqZ 0 1) with [0]. cbn [for_each]. unfold or_byte.
    destruct (load_byte_cases bytes (ExpandedField.Offset f + 0)) as [->|[b0 H0]]; [done|].
    apply load_byte_inv in H0. lia.
  - change (seqZ 0 2) with [0; 1]. cbn [for_each]. unfold or_byte.
    destruct (load_byte_cases bytes (ExpandedField.Offset f + 0)) as [->|[b0 H0]]; [done|].
    rewrite H0. cbn [mbind res_bind].
    destruct (load_byte_cases bytes (ExpandedField.Offset f + 1)) as [->|[b1 H1]]; [done|].
    apply load_byte_inv in H1. lia.
  - change (seqZ 0 4) with [0; 1; 2; 3]. cbn [for_each]. unfold or_byte.
    destruct (load_byte_cases bytes (ExpandedField.Offset f + 0)) as [->|[b0 H0]]; [done|].
    rewrite H0. cbn [mbind res_bind].
    destruct (load_byte_cases bytes (ExpandedField.Offset f + 1)) as [->|[b1 H1]]; [done|].
    rewrite H1. cbn [mbind res_bind].
    destruct (load_byte_cases bytes (ExpandedField.Offset f + 2)) as [->|[b2 H2]]; [done|].
    rewrite H2. cbn [mbind res_bind].
    destruct (load_byte_cases bytes (ExpandedField.Offset f + 3)) as [->|[b3 H3]]; [done|].
    apply load_byte_inv in H3. lia.
Qed.

Lemma getValueForField_leaf_cases (heap : list DeviceField.t) (f : ExpandedField.t)
    (bytes : list Z) :
  leaf_ok heap f →
  getValueForField heap f bytes = Panic ∨ ∃ v, getValueForField heap f bytes = Ok v.
Proof.
  intros Hleaf. destruct (leaf_ok_cases _ _ Hleaf) as (fd & Hfd & Hcases).
  unfold getValueForField, deref. rewrite Hfd. cbn [mbind res_bind].
  destruct (DeviceField.IsConstant fd); [eauto|].
  destruct Hcases as [[_ Hsz]|[[_ Hsz]|[_ Hsz]]]; rewrite Hsz.
  - change (seqZ 0 1) with [0]. cbn [for_each]. unfold or_byte.
    destruct (load_byte_cases bytes (ExpandedField.Offset f + 0)) as [->|[b0 ->]]; cbn; eauto.
  - change (seqZ 0 2) with [0; 1]. cbn [for_each]. unfold or_byte.
    destruct (load_byte_cases bytes (ExpandedField.Offset f + 0)) as [->|[b0 ->]];
      cbn; eauto.
    destruct (load_byte_cases bytes (ExpandedField.Offset f + 1)) as [->|[b1 ->]]; cbn; eauto.
  - change (seqZ 0 4) with [0; 1; 2; 3]. cbn [for_each]. unfold or_byte.
    destruct (load_byte_cases bytes (ExpandedField.Offset f + 0)) as [->|[b0 ->]];
      cbn; eauto.
    destruct (load_byte_cases bytes (ExpandedField.Offset f + 1)) as [->|[b1 ->]];
      cbn; eauto.
    destruct (load_byte_cases bytes (ExpandedField.Offset f + 2)) as [->|[b2 ->]];
      cbn; eauto.
    destruct (load_byte_cases bytes (ExpandedField.Offset f + 3)) as [->|[b3 ->]]; cbn; eauto.
Qed.

(** X10.  A buffer too short for a field is a panic: when the buffer ends
    before the end of some non-constant field of a laid-out structure,
    [PopulateFromBytes] panics. *)
Theorem short_buffer_panics :
  ∀ (heap : list DeviceField.t) (es : ExpandedStructure.t) (bytes : list Z)
    (f : ExpandedField.t) (fd : DeviceField.t),
    well_laid heap es →
    f ∈ ExpandedStructure.Fields es →
    heap !! ExpandedField.FieldDefinition f = Some fd →
    DeviceField.IsConstant fd = false →
    Z.of_nat (length bytes) < ExpandedField.Offset f + ExpandedField.Size f →
    PopulateFromBytes heap es bytes = Panic.
Proof.
  intros heap es bytes f fd [_ Hleaf] Hin Hfd Hc Hshort. unfold PopulateFromBytes.
  enough (populate_fields heap (ExpandedStructure.Fields es) bytes = Panic) as -> by done.
  induction Hleaf as [|g rest Hg Hrest IH]; [by apply elem_of_nil in Hin|].
  cbn [populate_fields]. apply elem_of_cons in Hin as [->|Hin].
  - by rewrite (getValueForField_short heap g fd bytes Hg Hfd Hc Hshort).
  - destruct (getValueForField_leaf_cases heap g bytes Hg) as [->|[v ->]]; [done|].
    cbn [mbind res_bind]. by rewrite (IH Hin).
Qed.

Lemma short_buffer_panics_witness :
  well_laid narrow_heap (narrow_expanded 0)
  ∧ Z.of_nat (length ([] : list Z)) < 0 + 1
  ∧ PopulateFromBytes narrow_heap (narrow_expanded 0) [] = Panic.
Proof.
  assert (well_laid narrow_heap (narrow_expanded 0)) as Hwl.
  { split.
    - cbn. lia.
    - repeat constructor. eexists. split; reflexivity. }
  split; [exact Hwl|]. split; [cbn; lia|].
  refine (short_buffer_panics narrow_heap (narrow_expanded 0) []
            (ExpandedField.mk 0%nat "/level" 0 0 1) (DeviceField.NewField "level" "uint8" 1)
            Hwl _ eq_refl eq_refl _).
  - cbn. set_solver.
  - cbn. lia.
Defined.

(** ** Byte codec: decoding, and encoding what was decoded *)

Lemma lor_disjoint (x y n : Z) :
  0 ≤ n → 0 ≤ x < 2 ^ n → Z.lor x (Z.shiftl y n) = x + y * 2 ^ n.
Proof.
  intros Hn Hx. rewrite Z.shiftl_mul_pow2 by done.
  rewrite <- Z.lxor_lor, <- Z.add_nocarry_lxor; [done| |].
  all: apply Z.bits_inj'; intros i Hi; rewrite Z.land_spec, Z.bits_0;
    destruct (Z.lt_ge_cases i n).
  all: try (rewrite Z.mul_pow2_bits_low by lia; apply andb_false_r).
  all: rewrite <- (Z.mod_small x (2 ^ n)) by lia;
    rewrite Z.mod_pow2_bits_high by lia; reflexivity.
Qed.

Lemma decode_term (b s : Z) :
  0 ≤ b < 256 → 0 ≤ s ≤ 24 →
  uint32 (Z.shiftl (Z.land (uint32 b) 255) s) = Z.shiftl b s.
Proof.
  intros Hb Hs. unfold uint32. rewrite (Z.mod_small b) by lia.
  change 255 with (Z.ones 8). rewrite Z.land_ones, (Z.mod_small b) by lia.
  rewrite Z.shiftl_mul_pow2 by lia. apply Z.mod_small.
  assert (2 ^ s ≤ 2 ^ 24) by (apply Z.pow_le_mono_r; lia).
  assert (0 < 2 ^ s) by (apply Z.pow_pos_nonneg; lia). nia.
Qed.

Lemma field_bytes_lookup (f : ExpandedField.t) (bytes : list Z) (k : nat) :
  0 ≤ ExpandedField.Offset f → (Z.of_nat k < ExpandedField.Size f) →
  field_bytes f bytes !! k = bytes !! Z.to_nat (ExpandedField.Offset f + Z.of_nat k).
Proof.
  intros Hoff Hk. unfold field_bytes. rewrite lookup_take_lt by lia.
  rewrite lookup_drop. f_equal. lia.
Qed.

Lemma field_bytes_length (f : ExpandedField.t) (bytes : list Z) :
  0 ≤ ExpandedField.Offset f → 0 ≤ ExpandedField.Size f →
  ExpandedField.Offset f + ExpandedField.Size f ≤ Z.of_nat (length bytes) →
  length (field_bytes f bytes) = Z.to_nat (ExpandedField.Size f).
Proof.
  intros. unfold field_bytes. rewrite length_take, length_drop. lia.
Qed.

Lemma all_bytes_lookup (bytes : list Z) (i : nat) (b : Z) :
  all_bytes bytes → bytes !! i = Some b → 0 ≤ b < 256.
Proof. intros Hall Hb. exact (proj1 (Forall_lookup _ _) Hall i b Hb). Qed.

Lemma list_of_length_1 {A : Type} (l : list A) :
  length l = 1%nat → ∃ a, l = [a].
Proof. destruct l as [|a [|]]; try discriminate. eauto. Qed.

Lemma list_of_length_2 {A : Type} (l : list A) :
  length l = 2%nat → ∃ a b, l = [a; b].
Proof. destruct l as [|a [|b [|]]]; try discriminate. eauto. Qed.

Lemma list_of_length_4 {A : Type} (l : list A) :
  length l = 4%nat → ∃ a b c d, l = [a; b; c; d].
Proof. destruct l as [|a [|b [|c [|d [|]]]]]; try discriminate. eauto 6. Qed.

Lemma getValueForField_decodes (heap : list DeviceField.t) (f : ExpandedField.t)
    (bytes : list Z) :
  leaf_ok heap f → 0 ≤ ExpandedField.Offset f → all_bytes bytes →
  ExpandedField.Offset f + ExpandedField.Size f ≤ Z.of_nat (length bytes) →
  getValueForField heap f bytes = Ok (decoded heap bytes f).
Proof.
  intros Hleaf Hoff Hall Hlen.
  destruct (leaf_ok_cases _ _ Hleaf) as (fd & Hfd & Hcases).
  unfold decoded. rewrite Hfd.
  destruct (DeviceField.IsConstant fd) eqn:Hc; [by apply getValueForField_constant|].
  unfold getValueForField, deref. rewrite Hfd. cbn [mbind res_bind]. rewrite Hc.
  assert (∀ k : nat, Z.of_nat k < ExpandedField.Size f →
            ∀ b, field_bytes f bytes !! k = Some b →
                 load_byte bytes (ExpandedField.Offset f + Z.of_nat k) = Ok b
                 ∧ 0 ≤ b < 256) as Hload.
  { intros k Hk b Hb. rewrite field_bytes_lookup in Hb by lia. split.
    - apply load_byte_Ok; [lia|done].
    - by eapply all_bytes_lookup. }
  pose proof (field_bytes_length f bytes Hoff) as Hfl.
  destruct Hcases as [[_ Hsz]|[[_ Hsz]|[_ Hsz]]]; rewrite Hsz in *.
  - destruct (list_of_length_1 _ (Hfl ltac:(lia) Hlen)) as (b0 & Hbs). rewrite Hbs in *.
    destruct (Hload 0%nat ltac:(lia) b0 eq_refl) as [H0 Hr0].
    change (seqZ 0 1) with [0]. cbn [for_each]. unfold or_byte.
    change (Z.of_nat 0) with 0 in H0. rewrite H0. cbn [mbind res_bind].
    change (uint8 (8 * uint8 0)) with 0.
    rewrite decode_term, Z.shiftl_0_r by lia. rewrite Z.lor_0_l.
    unfold le_value. cbn [foldr]. f_equal. lia.
  - destruct (list_of_length_2 _ (Hfl ltac:(lia) Hlen)) as (b0 & b1 & Hbs). rewrite Hbs in *.
    destruct (Hload 0%nat ltac:(lia) b0 eq_refl) as [H0 Hr0].
    destruct (Hload 1%nat ltac:(lia) b1 eq_refl) as [H1 Hr1].
    change (seqZ 0 2) with [0; 1]. cbn [for_each]. unfold or_byte.
    change (Z.of_nat 0) with 0 in H0. change (Z.of_nat 1) with 1 in H1.
    rewrite H0. cbn [mbind res_bind]. rewrite H1. cbn [mbind res_bind].
    change (uint8 (8 * uint8 0)) with 0. change (uint8 (8 * uint8 1)) with 8.
    rewrite !decode_term, Z.shiftl_0_r by lia. rewrite Z.lor_0_l.
    rewrite lor_disjoint by lia. unfold le_value. cbn [foldr]. f_equal. lia.
  - destruct (list_of_length_4 _ (Hfl ltac:(lia) Hlen)) as (b0 & b1 & b2 & b3 & Hbs).
    rewrite Hbs in *.
    destruct (Hload 0%nat ltac:(lia) b0 eq_refl) as [H0 Hr0].
    destruct (Hload 1%nat ltac:(lia) b1 eq_refl) as [H1 Hr1].
    destruct (Hload 2%nat ltac:(lia) b2 eq_refl) as [H2 Hr2].
    destruct (Hload 3%nat ltac:(lia) b3 eq_refl) as [H3 Hr3].
    change (seqZ 0 4) with [0; 1; 2; 3]. cbn [for_each]. unfold or_byte.
    change (Z.of_nat 0) with 0 in H0. change (Z.of_nat 1) with 1 in H1.
    change (Z.of_nat 2) with 2 in H2. change (Z.of_nat 3) with 3 in H3.
    rewrite H0. cbn [mbind res_bind]. rewrite H1. cbn [mbind res_bind].
    rewrite H2. cbn [mbind res_bind]. rewrite H3. cbn [mbind res_bind].
    change (uint8 (8 * uint8 0)) with 0. change (uint8 (8 * uint8 1)) with 8.
    change (uint8 (8 * uint8 2)) with 16. change (uint8 (8 * uint8 3)) with 24.
    rewrite !decode_term, Z.shiftl_0_r by lia. rewrite Z.lor_0_l.
    rewrite (lor_disjoint b0 b1 8) by lia.
    rewrite (lor_disjoint _ b2 16) by lia.
    rewrite (lor_disjoint _ b3 24) by lia.
    unfold le_value. cbn [foldr]. f_equal. lia.
Qed.

Lemma populate_fields_decodes (heap : list DeviceField.t) (fields : list ExpandedField.t)
    (bytes : list Z) :
  Forall (leaf_ok heap) fields → all_bytes bytes →
  (∀ f, f ∈ fields → 0 ≤ ExpandedField.Offset f
                     ∧ ExpandedField.Offset f + ExpandedField.Size f ≤ Z.of_nat (length bytes)) →
  populate_fields heap fields bytes
  = Ok ((λ f, ExpandedField.set_Value (decoded heap bytes f) f) <$> fields).
Proof.
  intros Hleaf Hall. induction Hleaf as [|f rest Hf _ IH]; intros Hin; [done|].
  cbn [populate_fields]. destruct (Hin f ltac:(left)) as [Hoff Hend].
  rewrite (getValueForField_decodes heap f bytes Hf Hoff Hall Hend). cbn [mbind res_bind].
  rewrite IH; [done|]. intros g Hg. apply Hin. by right.
Qed.

Lemma populate_from_bytes_is_little_endian_core (heap : list DeviceField.t)
    (es : ExpandedStructure.t) (bytes : list Z) :
  well_laid heap es → all_bytes bytes →
  ExpandedStructure.Size es ≤ Z.of_nat (length bytes) →
  PopulateFromBytes heap es bytes
  = Ok (ExpandedStructure.mk (ExpandedStructure.Name es)
          ((λ f, ExpandedField.set_Value (decoded heap bytes f) f)
             <$> ExpandedStructure.Fields es)
          (ExpandedStructure.Size es)).
Proof.
  intros [Hlay Hleaf] Hall Hlen. unfold PopulateFromBytes.
  rewrite (populate_fields_decodes heap _ bytes Hleaf Hall); [done|].
  intros f Hf. destruct (laid_out_bounds _ _ _ _ Hlay Hf) as (? & ? & ?). lia.
Qed.

(** X11.  [PopulateFromBytes] reads little-endian: from a buffer of bytes at
    least as long as a laid-out structure, it returns the structure with
    every non-constant field set to the number whose bytes, least significant
    first, lie at the offset of the field, and every constant field set to
    its constant; bytes beyond the structure are ignored. *)
Theorem populate_from_bytes_is_little_endian :
  ∀ (heap : list DeviceField.t) (es : ExpandedStructure.t) (bytes : list Z),
    well_laid heap es →
    all_bytes bytes →
    ExpandedStructure.Size es ≤ Z.of_nat (length bytes) →
    PopulateFromBytes heap es bytes
    = Ok (ExpandedStructure.mk (ExpandedStructure.Name es)
            ((λ f, ExpandedField.set_Value (decoded heap bytes f) f)
               <$> ExpandedStructure.Fields es)
            (ExpandedStructure.Size es)).
Proof.
  intros heap es bytes. apply populate_from_bytes_is_little_endian_core.
Qed.

Lemma populate_from_bytes_is_little_endian_witness :
  well_laid sv_heap
    (ExpandedStructure.mk "api"
       [ExpandedField.mk 0%nat "/status" 0 0 1; ExpandedField.mk 1%nat "/value" 2 0 2] 4)
  ∧ all_bytes [7; 99; 44; 1; 255]
  ∧ PopulateFromBytes sv_heap
      (ExpandedStructure.mk "api"
         [ExpandedField.mk 0%nat "/status" 0 0 1; ExpandedField.mk 1%nat "/value" 2 0 2] 4)
      [7; 99; 44; 1; 255]
    = Ok (ExpandedStructure.mk "api"
            [ExpandedField.mk 0%nat "/status" 0 7 1; ExpandedField.mk 1%nat "/value" 2 300 2] 4).
Proof.
  assert (well_laid sv_heap
    (ExpandedStructure.mk "api"
       [ExpandedField.mk 0%nat "/status" 0 0 1; ExpandedField.mk 1%nat "/value" 2 0 2] 4))
    as Hwl.
  { split.
    - cbn. lia.
    - repeat constructor; eexists; split; reflexivity. }
  assert (all_bytes [7; 99; 44; 1; 255]) as Hall by (repeat constructor; lia).
  split; [exact Hwl|]. split; [exact Hall|].
  exact (populate_from_bytes_is_little_endian sv_heap _ [7; 99; 44; 1; 255] Hwl Hall
           ltac:(cbn; lia)).
Defined.

Lemma le_value_bound (bs : list Z) :
  all_bytes bs → 0 ≤ le_value bs < 2 ^ (8 * Z.of_nat (length bs)).
Proof.
  induction 1 as [|b bs Hb _ IH]; [cbn; lia|].
  unfold le_value in *. cbn [foldr length].
  replace (8 * Z.of_nat (S (length bs))) with (8 + 8 * Z.of_nat (length bs)) by lia.
  rewrite Z.pow_add_r by lia. change (2 ^ 8) with 256. lia.
Qed.

Lemma le_value_digit (bs : list Z) :
  all_bytes bs →
  ∀ (k : nat) (b : Z), bs !! k = Some b →
    (le_value bs `div` 2 ^ (8 * Z.of_nat k)) `mod` 256 = b.
Proof.
  induction 1 as [|b0 bs Hb Hall IH]; intros k b Hk; [done|].
  unfold le_value in *. cbn [foldr]. destruct k as [|k]; cbn [lookup list_lookup] in Hk.
  - injection Hk as <-. change (8 * Z.of_nat 0) with 0. rewrite Z.pow_0_r, Z.div_1_r.
    rewrite (Z.mul_comm 256), Z_mod_plus_full. apply Z.mod_small. lia.
  - replace (8 * Z.of_nat (S k)) with (8 + 8 * Z.of_nat k) by lia.
    rewrite Z.pow_add_r by lia. change (2 ^ 8) with 256.
    rewrite <- Z.div_div by lia.
    replace ((b0 + 256 * foldr (λ b1 acc, b1 + 256 * acc) 0 bs) `div` 256)
      with (foldr (λ b1 acc, b1 + 256 * acc) 0 bs).
    + by apply IH.
    + rewrite (Z.mul_comm 256), Z.div_add by lia.
      rewrite (Z.div_small b0) by lia. lia.
Qed.

Lemma field_bytes_all_bytes (f : ExpandedField.t) (bytes : list Z) :
  all_bytes bytes → all_bytes (field_bytes f bytes).
Proof.
  unfold all_bytes, field_bytes. intros H. by apply Forall_take, Forall_drop.
Qed.

(** X12.  Encoding what was decoded gives the bytes back: for a laid-out
    structure and a buffer of bytes at least as long, [PopulateFromBytes]
    followed by [ByteArray] returns a buffer that carries, at every position
    of a non-constant field, the byte that the first buffer has there. *)
Theorem decode_then_encode_restores_bytes :
  ∀ (heap : list DeviceField.t) (es : ExpandedStructure.t) (bytes : list Z),
    well_laid heap es →
    all_bytes bytes →
    ExpandedStructure.Size es ≤ Z.of_nat (length bytes) →
    ∃ es' bytes',
      PopulateFromBytes heap es bytes = Ok es'
      ∧ ByteArray heap es' = Ok bytes'
      ∧ Z.of_nat (length bytes') = ExpandedStructure.Size es
      ∧ ∀ (f : ExpandedField.t) (fd : DeviceField.t) (k : Z),
          f ∈ ExpandedStructure.Fields es →
          heap !! ExpandedField.FieldDefinition f = Some fd →
          DeviceField.IsConstant fd = false →
          0 ≤ k < ExpandedField.Size f →
          bytes' !! Z.to_nat (ExpandedField.Offset f + k)
          = bytes !! Z.to_nat (ExpandedField.Offset f + k).
Proof.
  intros heap es bytes Hwl Hall Hlen.
  pose proof (populate_from_bytes_is_little_endian_core heap es bytes Hwl Hall Hlen) as Hpop.
  eexists. rewrite Hpop.
  assert (well_laid heap
            (ExpandedStructure.mk (ExpandedStructure.Name es)
               ((λ f, ExpandedField.set_Value (decoded heap bytes f) f)
                  <$> ExpandedStructure.Fields es)
               (ExpandedStructure.Size es))) as Hwl'.
  { by eapply PopulateFromBytes_well_laid. }
  destruct (ByteArray_holds heap _ Hwl') as (bytes' & Hb & Hlen' & Hh).
  exists bytes'. split; [done|]. split; [exact Hb|]. split; [exact Hlen'|].
  intros f fd k Hf Hfd Hc Hk. destruct Hwl as [Hlay Hleaf].
  destruct (laid_out_bounds _ _ _ _ Hlay Hf) as (Hoff & Hsz & Hend).
  assert (ExpandedField.set_Value (decoded heap bytes f) f
          ∈ (λ f, ExpandedField.set_Value (decoded heap bytes f) f)
              <$> ExpandedStructure.Fields es) as Hf'
    by (by apply (list_elem_of_fmap_2
                    (λ f, ExpandedField.set_Value (decoded heap bytes f) f))).
  pose proof (Hh _ Hf' k Hk) as Himg.
  cbn [ExpandedField.Offset ExpandedField.set_Value] in Himg. rewrite Himg.
  unfold field_image.
  cbn [ExpandedField.Value ExpandedField.Size ExpandedField.set_Value].
  unfold decoded. rewrite Hfd, Hc.
  pose proof (field_bytes_all_bytes f bytes Hall) as Hfb.
  pose proof (le_value_bound _ Hfb) as Hbound.
  rewrite (field_bytes_length f bytes) in Hbound by lia.
  rewrite Z2Nat.id in Hbound by lia. rewrite Z.mod_small by done.
  change 255 with (Z.ones 8). rewrite Z.land_ones, Z.shiftr_div_pow2 by lia.
  change (2 ^ 8) with 256.
  assert (is_Some (bytes !! Z.to_nat (ExpandedField.Offset f + k))) as [b Hb0].
  { apply lookup_lt_is_Some. lia. }
  rewrite Hb0. f_equal.
  rewrite <- (Z2Nat.id k) at 1 by lia.
  apply le_value_digit; [done|].
  rewrite field_bytes_lookup by lia. rewrite Z2Nat.id by lia. done.
Qed.

Lemma decode_then_encode_restores_bytes_witness :
  well_laid sv_heap
    (ExpandedStructure.mk "api"
       [ExpandedField.mk 0%nat "/status" 0 0 1; ExpandedField.mk 1%nat "/value" 2 0 2] 4)
  ∧ all_bytes [7; 99; 44; 1; 255]
  ∧ ∃ es' bytes',
      PopulateFromBytes sv_heap
        (ExpandedStructure.mk "api"
           [ExpandedField.mk 0%nat "/status" 0 0 1; ExpandedField.mk 1%nat "/value" 2 0 2] 4)
        [7; 99; 44; 1; 255] = Ok es'
      ∧ ByteArray sv_heap es' = Ok bytes'
      ∧ Z.of_nat (length bytes') = 4
      ∧ ∀ (f : ExpandedField.t) (fd : DeviceField.t) (k : Z),
          f ∈ [ExpandedField.mk 0%nat "/status" 0 0 1; ExpandedField.mk 1%nat "/value" 2 0 2] →
          sv_heap !! ExpandedField.FieldDefinition f = Some fd →
          DeviceField.IsConstant fd = false →
          0 ≤ k < ExpandedField.Size f →
          bytes' !! Z.to_nat (ExpandedField.Offset f + k)
          = [7; 99; 44; 1; 255] !! Z.to_nat (ExpandedField.Offset f + k).
Proof.
  assert (well_laid sv_heap
    (ExpandedStructure.mk "api"
       [ExpandedField.mk 0%nat "/status" 0 0 1; ExpandedField.mk 1%nat "/value" 2 0 2] 4))
    as Hwl.
  { split.
    - cbn. lia.
    - repeat constructor; eexists; split; reflexivity. }
  assert (all_bytes [7; 99; 44; 1; 255]) as Hall by (repeat constructor; lia).
  split; [exact Hwl|]. split; [exact Hall|].
  exact (decode_then_encode_restores_bytes sv_heap _ [7; 99; 44; 1; 255] Hwl Hall
           ltac:(cbn; lia)).
Defined.

(** ** Validation: rules without deferred code *)

Section PlainValidation.
Context {L : Type} {I : Interpreter L}.

Lemma Validate_plain (fuel : nat) (self : ExpandedField.t) (env : SymbolTableFrame)
    (w : World L) :
  plain_rule (defs w) self = true →
  ExpandedField_Validate (S fuel) self env w = Ok (rule_verdict (defs w) self, env, w).
Proof.
  unfold plain_rule, rule_verdict. intros Hplain. cbn [ExpandedField_Validate].
  unfold deref. destruct (defs w !! ExpandedField.FieldDefinition self) as [fd|];
    [|discriminate].
  cbn [mbind res_bind]. destruct (DeviceField.IsConstant fd); [done|]. cbn [orb] in *.
  unfold verdict. destruct (DeviceField.ValidRange fd); [done|].
  destruct (DeviceField.ValidValues fd); [done|]. cbn in Hplain.
  apply bool_decide_eq_true in Hplain. by rewrite Hplain.
Qed.

Lemma validate_fields_plain (fuel : nat) (fields : list ExpandedField.t) :
  ∀ (env : SymbolTableFrame) (w : World L),
    forallb (plain_rule (defs w)) fields = true →
    validate_fields (S fuel) fields env w
    = Ok (forallb (rule_verdict (defs w)) fields, w).
Proof.
  induction fields as [|f rest IH]; intros env w Hplain; [done|].
  cbn [forallb] in Hplain. apply andb_true_iff in Hplain as [Hf Hrest].
  cbn [validate_fields]. unfold deref.
  assert (is_Some (defs w !! ExpandedField.FieldDefinition f)) as [fd Hfd].
  { unfold plain_rule in Hf. destruct (defs w !! _); [eauto|discriminate]. }
  rewrite Hfd. cbn [mbind res_bind]. rewrite (Validate_plain fuel f _ w Hf).
  cbn [mbind res_bind forallb]. destruct (rule_verdict (defs w) f); cbn [negb andb]; [|done].
  by apply IH.
Qed.
End PlainValidation.

(** X13.  Validation of a structure none of whose definitions evaluates
    deferred code returns at once, evaluates nothing and changes nothing: the
    answer is true exactly when every field is constant, or lies within its
    range, or else is in its value set, or has no rule; a range on the
    definition hides its value set, and a constant field is valid whatever
    its rules. *)
Theorem validation_by_rules :
  ∀ (L : Type) (I : Interpreter L) (fuel : nat) (es : ExpandedStructure.t) (w : World L),
    forallb (plain_rule (defs w)) (ExpandedStructure.Fields es) = true →
    ExpandedStructure_Validate (S fuel) es w
    = Ok (forallb (rule_verdict (defs w)) (ExpandedStructure.Fields es), w).
Proof. intros L I fuel es w Hplain. by apply validate_fields_plain. Qed.

Lemma validation_by_rules_witness :
  forallb (plain_rule (defs ruled_world)) (ExpandedStructure.Fields (ruled_expanded 10 2)) = true
  ∧ ExpandedStructure_Validate (I := plain_interpreter Nil eval_nothing) 1
      (ruled_expanded 10 2) ruled_world
    = Ok (false, ruled_world)
  ∧ ExpandedStructure_Validate (I := plain_interpreter Nil eval_nothing) 1
      (ruled_expanded 10 3) ruled_world
    = Ok (true, ruled_world).
Proof.
  split; [reflexivity|]. split.
  - exact (validation_by_rules unit (plain_interpreter Nil eval_nothing) 0%nat
             (ruled_expanded 10 2) ruled_world eq_refl).
  - exact (validation_by_rules unit (plain_interpreter Nil eval_nothing) 0%nat
             (ruled_expanded 10 3) ruled_world eq_refl).
Defined.

(** ** Validation: the first failure ends the pass *)

Section ShortCircuit.
Context {L : Type} {I : Interpreter L}.

Lemma validate_fields_stops (fuel : nat) (fields rest : list ExpandedField.t) :
  ∀ (env : SymbolTableFrame) (w w' : World L),
    validate_fields fuel fields env w = Ok (false, w') →
    validate_fields fuel (fields ++ rest) env w = Ok (false, w').
Proof.
  induction fields as [|f fields IH]; intros env w w' H; [discriminate|].
  cbn [validate_fields app] in *. inv_bind H. rewrite Ha. cbn [mbind res_bind] in *.
  inv_bind H. rewrite Ha0. cbn [mbind res_bind]. destruct a0 as [[ok env1] w1].
  destruct ok; cbn [negb] in *; [by apply IH|done].
Qed.
End ShortCircuit.

(** X14.  Validation stops at the first field that fails: when the pass over
    a structure answers false, the pass over the same fields followed by any
    further fields answers false as well and leaves the same state; the
    further fields are not validated, and their deferred code is not
    evaluated. *)
Theorem validation_stops_at_first_failure :
  ∀ (L : Type) (I : Interpreter L) (fuel : nat) (es : ExpandedStructure.t)
    (rest : list ExpandedField.t) (w w' : World L),
    ExpandedStructure_Validate fuel es w = Ok (false, w') →
    ExpandedStructure_Validate fuel
      (ExpandedStructure.mk (ExpandedStructure.Name es)
         (ExpandedStructure.Fields es ++ rest) (ExpandedStructure.Size es)) w
    = Ok (false, w').
Proof. intros L I fuel es rest w w' H. by apply validate_fields_stops. Qed.

Lemma validation_stops_at_first_failure_witness :
  ExpandedStructure_Validate (I := plain_interpreter Nil eval_attach_range) 2
    (ExpandedStructure.mk "ruled" [ExpandedField.mk 1%nat "/level" 1 11 1] 2)
    (mkWorld () (ruled_heap ++ [deferred_def]) None ∅ [] [])
  = Ok (false, mkWorld () (ruled_heap ++ [deferred_def]) None ∅ [] [])
  ∧ ExpandedStructure_Validate (I := plain_interpreter Nil eval_attach_range) 2
      (ExpandedStructure.mk "ruled"
         ([ExpandedField.mk 1%nat "/level" 1 11 1] ++ [ExpandedField.mk 3%nat "/a" 2 3 1]) 2)
      (mkWorld () (ruled_heap ++ [deferred_def]) None ∅ [] [])
    = Ok (false, mkWorld () (ruled_heap ++ [deferred_def]) None ∅ [] []).
Proof.
  split; [reflexivity|].
  exact (validation_stops_at_first_failure unit (plain_interpreter Nil eval_attach_range)
           2%nat (ExpandedStructure.mk "ruled" [ExpandedField.mk 1%nat "/level" 1 11 1] 2)
           [ExpandedField.mk 3%nat "/a" 2 3 1]
           (mkWorld () (ruled_heap ++ [deferred_def]) None ∅ [] []) _ eq_refl).
Defined.

(** ** Validation: deferred code that fails, or attaches nothing *)

(** X15.  When the deferred code of a field reports an error, validation of
    the field answers false after this one evaluation and clears nothing: the
    definitions stay as the failed evaluation left them.  A range that the
    code attached before it failed is then the rule of the field: the next
    validation answers by that range and evaluates no deferred code. *)
Theorem failed_deferred_rule_is_not_cleared :
  ∀ (L : Type) (I : Interpreter L) (fuel : nat) (self : ExpandedField.t)
    (env : SymbolTableFrame) (w : World L) (fd : DeviceField.t) (code : Data)
    (e : string) (l' : L) (defs' : list DeviceField.t) (env' : SymbolTableFrame),
    defs w !! ExpandedField.FieldDefinition self = Some fd →
    DeviceField.IsConstant fd = false →
    DeviceField.ValidRange fd = None →
    DeviceField.ValidValues fd = None →
    DeviceField.DeferredValidationCode fd = Some code →
    Eval code (ExpandedField.FieldDefinition self) (lisp w, defs w, env)
    = (Some e, (l', defs', env')) →
    let w1 := mkWorld l' defs' (Some (ExpandedField.FieldDefinition self)) (devices w)
                (evals w ++ [(ExpandedField.FieldDefinition self, env)]) (wire w) in
    ExpandedField_Validate (S fuel) self env w = Ok (false, env', w1)
    ∧ ∀ r env2,
        defs' !! ExpandedField.FieldDefinition self
        = Some (DeviceField.set_rules (Some r) None fd) →
        ExpandedField_Validate (S fuel) self env2 w1
        = Ok (Range.Validate r (ExpandedField.Value self), env2, w1).
Proof.
  intros L I fuel self env w fd code e l' defs' env' Hfd Hc Hr Hv Hd He w1. split.
  - cbn [ExpandedField_Validate]. unfold deref. rewrite Hfd. cbn [mbind res_bind].
    by rewrite Hc, Hr, Hv, Hd, He.
  - intros r env2 Hfd'.
    by apply (Validate_with_rule fuel self env2 w1 (DeviceField.set_rules (Some r) None fd)).
Qed.

Lemma failed_deferred_rule_is_not_cleared_witness :
  defs deferred_world !! ExpandedField.FieldDefinition deferred_leaf = Some deferred_def
  ∧ ExpandedField_Validate (I := plain_interpreter Nil eval_attach_and_fail) 1
      deferred_leaf ∅ deferred_world
    = Ok (false, ∅,
          mkWorld ()
            (alter (DeviceField.set_rules (Some (Range.mk 2 4)) None) 0%nat deferred_heap)
            (Some 0%nat) ∅ [(0%nat, ∅)] [])
  ∧ ∀ r env2,
      alter (DeviceField.set_rules (Some (Range.mk 2 4)) None) 0%nat deferred_heap
        !! ExpandedField.FieldDefinition deferred_leaf
      = Some (DeviceField.set_rules (Some r) None deferred_def) →
      ExpandedField_Validate (I := plain_interpreter Nil eval_attach_and_fail) 1
        deferred_leaf env2
        (mkWorld ()
           (alter (DeviceField.set_rules (Some (Range.mk 2 4)) None) 0%nat deferred_heap)
           (Some 0%nat) ∅ [(0%nat, ∅)] [])
      = Ok (Range.Validate r (ExpandedField.Value deferred_leaf), env2,
            mkWorld ()
              (alter (DeviceField.set_rules (Some (Range.mk 2 4)) None) 0%nat deferred_heap)
              (Some 0%nat) ∅ [(0%nat, ∅)] []).
Proof.
  split; [reflexivity|].
  exact (failed_deferred_rule_is_not_cleared unit (plain_interpreter Nil eval_attach_and_fail)
           0%nat deferred_leaf ∅ deferred_world deferred_def (Symbol "limit") "failed" ()
           _ ∅ eq_refl eq_refl eq_refl eq_refl eq_refl eq_refl).
Defined.

(** X16.  Deferred code that evaluates without error and attaches no rule
    sends validation into a recursion without end: for a field whose
    definition carries a deferred rule and no other, and deferred code that
    leaves this definition as it is, [ExpandedField.Validate] does not
    return, whatever the depth of calls allowed. *)
Theorem idle_deferred_rule_never_returns :
  ∀ (L : Type) (I : Interpreter L) (self : ExpandedField.t) (fd : DeviceField.t)
    (code : Data),
    DeviceField.IsConstant fd = false →
    DeviceField.ValidRange fd = None →
    DeviceField.ValidValues fd = None →
    DeviceField.DeferredValidationCode fd = Some code →
    (∀ l defs env,
       defs !! ExpandedField.FieldDefinition self = Some fd →
       ∃ l' defs' env',
         Eval code (ExpandedField.FieldDefinition self) (l, defs, env)
         = (None, (l', defs', env'))
         ∧ defs' !! ExpandedField.FieldDefinition self = Some fd) →
    ∀ fuel env w,
      defs w !! ExpandedField.FieldDefinition self = Some fd →
      ExpandedField_Validate fuel self env w = OutOfFuel.
Proof.
  intros L I self fd code Hc Hr Hv Hd Hidle fuel.
  induction fuel as [|fuel IH]; intros env w Hfd; [done|].
  cbn [ExpandedField_Validate]. unfold deref. rewrite Hfd. cbn [mbind res_bind].
  rewrite Hc, Hr, Hv, Hd.
  destruct (Hidle (lisp w) (defs w) env Hfd) as (l' & defs' & env' & -> & Hfd').
  by rewrite IH.
Qed.

Lemma idle_deferred_rule_never_returns_witness :
  defs deferred_world !! ExpandedField.FieldDefinition deferred_leaf = Some deferred_def
  ∧ (∀ fuel env,
       ExpandedField_Validate (I := plain_interpreter Nil eval_nothing) fuel deferred_leaf env
         deferred_world = OutOfFuel).
Proof.
  split; [reflexivity|]. intros fuel env.
  refine (idle_deferred_rule_never_returns unit (plain_interpreter Nil eval_nothing)
            deferred_leaf deferred_def (Symbol "limit") eq_refl eq_refl eq_refl eq_refl _
            fuel env deferred_world eq_refl).
  intros l defs env0 Hdef. exists l, defs, env0. split; [reflexivity|exact Hdef].
Defined.

(** ** Value sets *)

(** X17.  A value set accepts exactly the values added to it: after
    [AddValue v] the set accepts [v] and whatever it accepted before, and a
    set built from nothing by adding the values of a list accepts a value if
    and only if it is in the list; the empty set rejects every value. *)
Theorem value_set_accepts_added_values :
  (∀ (self : Values.t) (v x : Z),
     Values.Validate (Values.AddValue self v) x = Values.Validate self x || (x =? v))
  ∧ (∀ (vs : list Z) (x : Z),
       Values.Validate (foldl Values.AddValue (Values.mk []) vs) x = true ↔ x ∈ vs).
Proof.
  assert (∀ (self : Values.t) (v x : Z),
            Values.Validate (Values.AddValue self v) x
            = Values.Validate self x || (x =? v)) as Hadd.
  { intros self v x. unfold Values.Validate, Values.AddValue. cbn [Values.Vals].
    rewrite existsb_app. cbn. by rewrite orb_false_r, (Z.eqb_sym v x). }
  split; [exact Hadd|]. intros vs x.
  enough (∀ self, Values.Validate (foldl Values.AddValue self vs) x = true
                  ↔ Values.Validate self x = true ∨ x ∈ vs) as H.
  { rewrite H. cbn. split; [intros [?|?]; [discriminate|done]|auto]. }
  induction vs as [|v vs IH]; intros self; cbn [foldl].
  - split; [auto|]. intros [?|Hin]; [done|by apply elem_of_nil in Hin].
  - rewrite IH, Hadd, orb_true_iff, Z.eqb_eq, elem_of_cons. tauto.
Qed.

(** ** Paths *)

Lemma string_app_nil_r (s : string) : s +:+ EmptyString = s.
Proof. induction s as [|c s IH]; [done|]. exact (f_equal (String c) IH). Qed.

Lemma string_app_assoc (s t u : string) : (s +:+ t) +:+ u = s +:+ t +:+ u.
Proof. induction s as [|c s IH]; [done|]. exact (f_equal (String c) IH). Qed.

Lemma string_app_cons (c : ascii) (s t : string) : String c s +:+ t = String c (s +:+ t).
Proof. reflexivity. Qed.

Lemma string_app_nil_l (t : string) : EmptyString +:+ t = t.
Proof. reflexivity. Qed.

Lemma split_slash_not_nil (s : string) : split_slash s ≠ [].
Proof.
  induction s as [|c s IH]; cbn; [done|].
  destruct (Ascii.eqb c "/"%char); [done|]. by destruct (split_slash s).
Qed.

Lemma split_slash_app (s t : string) :
  slash_free s = true →
  split_slash (s +:+ t)
  = match split_slash t with
    | h :: rest => (s +:+ h) :: rest
    | [] => []
    end.
Proof.
  induction s as [|c s IH]; intros Hs; cbn [slash_free] in Hs.
  - rewrite string_app_nil_l. destruct (split_slash t); [done|].
    by rewrite string_app_nil_l.
  - apply andb_true_iff in Hs as [Hc Hs]. apply negb_true_iff in Hc.
    rewrite string_app_cons. cbn [split_slash]. rewrite Hc, (IH Hs).
    pose proof (split_slash_not_nil t). destruct (split_slash t); [done|].
    by rewrite string_app_cons.
Qed.

Lemma split_slash_join (steps : list string) :
  Forall (λ step, slash_free step = true) steps →
  split_slash (join_path steps) = EmptyString :: steps.
Proof.
  induction 1 as [|step steps Hstep _ IH]; [done|].
  unfold join_path in *. cbn [foldr].
  rewrite string_app_cons, string_app_nil_l. cbn [split_slash Ascii.eqb Bool.eqb].
  rewrite (split_slash_app _ _ Hstep), IH. cbv beta iota.
  by rewrite string_app_nil_r.
Qed.

Lemma steps_of_joined_path_core (steps : list string) :
  Forall (λ step, slash_free step = true) steps →
  stepsFromPath (join_path steps) = steps.
Proof.
  intros Hsteps. unfold stepsFromPath. by rewrite (split_slash_join steps Hsteps).
Qed.

(** X18.  [stepsFromPath] undoes the way expansion builds paths: the steps
    of the path made of a slash before each of a sequence of segments that
    hold no slash are these segments; the empty path has no step. *)
Theorem steps_of_joined_path :
  ∀ steps : list string,
    Forall (λ step, slash_free step = true) steps →
    stepsFromPath (join_path steps) = steps.
Proof.
  exact steps_of_joined_path_core.
Qed.

Lemma steps_of_joined_path_witness :
  Forall (λ step, slash_free step = true) ["points"; "1"; "x"]
  ∧ stepsFromPath "/points/1/x" = ["points"; "1"; "x"].
Proof.
  assert (Forall (λ step, slash_free step = true) ["points"; "1"; "x"]) as H
    by (repeat constructor).
  split; [exact H|]. exact (steps_of_joined_path ["points"; "1"; "x"] H).
Defined.

(** ** Array indices: written by expansion, read by the JSON codec *)

Lemma digit_of_pretty_N_char (d : N) :
  (d < 10)%N → digit_of (pretty_N_char d) = Some (Z.of_N d).
Proof.
  intros Hd.
  assert (d = 0 ∨ d = 1 ∨ d = 2 ∨ d = 3 ∨ d = 4 ∨ d = 5 ∨ d = 6 ∨ d = 7 ∨ d = 8 ∨ d = 9)%N
    as Hcases by lia.
  repeat (destruct Hcases as [->|Hcases]; [reflexivity|]). by subst.
Qed.

Lemma pretty_N_char_not_sign (d : N) :
  Ascii.eqb (pretty_N_char d) "-"%char = false
  ∧ Ascii.eqb (pretty_N_char d) "+"%char = false
  ∧ Ascii.eqb (pretty_N_char d) "/"%char = false.
Proof. unfold pretty_N_char. by repeat case_match. Qed.

Lemma parse_digits_pretty_N_go (x : N) :
  ∀ s, parse_digits (pretty_N_go x s) 0 = parse_digits s (Z.of_N x).
Proof.
  induction (N.lt_wf_0 x) as [x _ IH]; intros s.
  destruct (decide (x = 0)%N) as [->|Hx]; [by rewrite pretty_N_go_0|].
  rewrite pretty_N_go_step by lia.
  rewrite IH by (apply N.div_lt; lia).
  cbn [parse_digits]. rewrite digit_of_pretty_N_char by (apply N.mod_lt; lia).
  cbn [mbind option_bind]. f_equal.
  pose proof (N.div_mod x 10 ltac:(lia)). lia.
Qed.

Lemma pretty_N_go_head (x : N) :
  ∀ s, (0 < x)%N → ∃ d rest, pretty_N_go x s = String (pretty_N_char d) rest.
Proof.
  induction (N.lt_wf_0 x) as [x _ IH]; intros s Hx.
  rewrite pretty_N_go_step by done.
  destruct (decide (x `div` 10 = 0)%N) as [->|Hq].
  - rewrite pretty_N_go_0. eauto.
  - apply IH; [apply N.div_lt; lia|by apply N.neq_0_lt_0].
Qed.

Lemma pretty_N_go_slash_free (x : N) :
  ∀ s, slash_free s = true → slash_free (pretty_N_go x s) = true.
Proof.
  induction (N.lt_wf_0 x) as [x _ IH]; intros s Hs.
  destruct (decide (x = 0)%N) as [->|Hx]; [by rewrite pretty_N_go_0|].
  rewrite pretty_N_go_step by lia. apply IH; [apply N.div_lt; lia|].
  cbn [slash_free]. rewrite Hs.
  by destruct (pretty_N_char_not_sign (x `mod` 10)) as (_ & _ & ->).
Qed.

Lemma pretty_index_slash_free (i : Z) : 0 ≤ i → slash_free (pretty i) = true.
Proof.
  intros Hi. destruct i as [|p|p]; [done| |lia].
  by apply pretty_N_go_slash_free.
Qed.

Lemma index_segment_parses_back_core (i : Z) :
  0 ≤ i < 2 ^ 31 → ParseInt (pretty i) = Some i.
Proof.
  intros Hi. destruct i as [|p|p]; [done| |lia].
  change (pretty (Z.pos p)) with (pretty_N_go (N.pos p) EmptyString).
  destruct (pretty_N_go_head (N.pos p) EmptyString ltac:(lia)) as (d & rest & Hhead).
  pose proof (parse_digits_pretty_N_go (N.pos p) EmptyString) as Hparse.
  rewrite Hhead in *. unfold ParseInt.
  destruct (pretty_N_char_not_sign d) as (-> & -> & _). cbn [orb].
  rewrite Hparse. cbn [parse_digits mbind option_bind].
  change (Z.of_N (N.pos p)) with (Z.pos p).
  destruct (Z.leb_spec (- 2 ^ 31) (Z.pos p)); [|lia].
  destruct (Z.ltb_spec (Z.pos p) (2 ^ 31)); [done|lia].
Qed.

(** X19.  The index that expansion writes into the path of an element is
    read back as that index: the decimal text of [i], for [0 <= i < 2^31], is
    taken by the JSON codec for an array index, and for the index [i]. *)
Theorem index_segment_parses_back :
  ∀ i : Z, 0 ≤ i < 2 ^ 31 → ParseInt (pretty i) = Some i.
Proof. exact index_segment_parses_back_core. Qed.

Lemma index_segment_parses_back_witness :
  0 ≤ 12 < 2 ^ 31 ∧ ParseInt "12" = Some 12.
Proof.
  assert (0 ≤ 12 < 2 ^ 31) as H by lia.
  split; [exact H|]. exact (index_segment_parses_back 12 H).
Defined.

(** X20.  An element of a repeated field is read by position: for the leaf
    [/name/i] of a field that is not constant and has no transform, with a
    name that holds no slash and is no number, [extractValueFromJson] looks
    the name up in the document and, when it is found, sets the field to the
    numeric value, cut to 32 bits, of element [i + 1], counted from 1, of the
    node found. *)
Theorem repeated_element_is_read_by_position :
  ∀ (L : Type) (I : Interpreter L) (heap : list DeviceField.t) (f : ExpandedField.t)
    (fd : DeviceField.t) (name : string) (i : Z) (doc pair : Data) (l : L),
    heap !! ExpandedField.FieldDefinition f = Some fd →
    DeviceField.IsConstant fd = false →
    DeviceField.FromJsonTransform fd = None →
    slash_free name = true →
    ParseInt name = None →
    0 ≤ i < 2 ^ 31 →
    ExpandedField.Path f = "/" +:+ name +:+ "/" +:+ pretty i →
    Assoc l (StringData name) doc = (pair, None) →
    extractValueFromJson heap f doc l
    = Ok (ExpandedField.set_Value (uint32 (NumericValue l (Nth l (Cdr l pair) (i + 1)))) f, l).
Proof.
  intros L I heap f fd name i doc pair l Hfd Hc Ht Hname Hkey Hi Hpath Hassoc.
  unfold extractValueFromJson.
  assert (stepsFromPath (ExpandedField.Path f) = [name; pretty i]) as ->.
  { rewrite Hpath.
    assert ("/" +:+ name +:+ "/" +:+ pretty i = join_path [name; pretty i]) as ->.
    { unfold join_path. cbn [foldr]. by rewrite (string_app_nil_r (pretty i)). }
    apply (steps_of_joined_path_core [name; pretty i]).
    repeat constructor; [done|]. apply pretty_index_slash_free. lia. }
  cbn [extractValueFromJsonWithStepAndParent]. unfold deref. rewrite Hfd.
  cbn [mbind res_bind]. rewrite Hc, Ht, Hkey, Hassoc.
  by rewrite (index_segment_parses_back_core i Hi).
Qed.

Lemma repeated_element_is_read_by_position_witness :
  repeated_heap !! 1%nat = Some (DeviceField.NewFieldWithCount "item" "uint16" 2 3)
  ∧ ParseInt "item" = None
  ∧ extractValueFromJson (I := plain_interpreter Nil eval_nothing) repeated_heap
      (ExpandedField.mk 1%nat "/item/1" 4 0 2)
      (json_object [("item", json_array [Number 10; Number 20; Number 30])]) ()
    = Ok (ExpandedField.mk 1%nat "/item/1" 4 20 2, ()).
Proof.
  split; [reflexivity|]. split; [reflexivity|].
  exact (repeated_element_is_read_by_position unit (plain_interpreter Nil eval_nothing)
           repeated_heap (ExpandedField.mk 1%nat "/item/1" 4 0 2)
           (DeviceField.NewFieldWithCount "item" "uint16" 2 3) "item" 1
           (json_object [("item", json_array [Number 10; Number 20; Number 30])])
           (ConsCell (StringData "item") (json_array [Number 10; Number 20; Number 30])) ()
           eq_refl eq_refl eq_refl eq_refl eq_refl ltac:(lia) eq_refl eq_refl).
Defined.

(** ** Writing to a device, declaring a device *)

Section WriteReturns.
Context {L : Type} {I : Interpreter L}.

Lemma populate_json_same_place (heap : list DeviceField.t) (fields : list ExpandedField.t) :
  ∀ fields' doc l l',
    populate_json heap fields doc l = Ok (fields', l') → Forall2 same_place fields fields'.
Proof.
  induction fields as [|f rest IH]; intros fields' doc l l' H; cbn [populate_json] in H.
  - injection H as <- <-. constructor.
  - inv_bind H. destruct a as [f' l2]. inv_bind H. destruct a as [rest' l3].
    injection H as <- <-. constructor; [|eauto].
    by eapply extract_same_place.
Qed.

Lemma plain_rule_same_place (heap : list DeviceField.t) (fields fields' : list ExpandedField.t) :
  Forall2 same_place fields fields' →
  forallb (plain_rule heap) fields = true → forallb (plain_rule heap) fields' = true.
Proof.
  induction 1 as [|f g rest rest' (Hd & _ & _) _ IH]; [done|]. cbn [forallb].
  rewrite !andb_true_iff. intros [Hf Hrest]. split; [|auto].
  unfold plain_rule in *. by rewrite Hd.
Qed.
End WriteReturns.

(** X21.  On a device that has the API and whose structure for it is laid
    out as expansion builds it, with no definition that evaluates deferred
    code, [WriteToDevice] returns whatever the document holds: it populates
    the structure, stores it in the device under the name of the API, and
    calls the driver once, with the handle of the device, the write command
    of the API and the serialized image of the populated structure, which
    has as many bytes as the structure; definitions and the log of
    evaluations stay as they are. *)
Theorem write_returns_on_plain_structure :
  ∀ (L : Type) (I : Interpreter L) (fuel : nat) (deviceName jsonString : string)
    (w : World L) (device : DeviceDeclaration.t) (json : Data) (l : L)
    (es : ExpandedStructure.t) (api : DeviceApi.t),
    getDeviceNamed deviceName w = Some device →
    JsonStringToLisp jsonString (lisp w) = (json, l) →
    DeviceDeclaration.ExpandedStructures device !! StringValue l (Caar l json) = Some es →
    DeviceDeclaration.Apis device !! StringValue l (Caar l json) = Some api →
    well_laid (defs w) es →
    forallb (plain_rule (defs w)) (ExpandedStructure.Fields es) = true →
    ∃ es' l' bytes,
      PopulateFromJson (defs w) es (Cdar l json) l = Ok (es', l')
      ∧ ByteArray (defs w) es' = Ok bytes
      ∧ Z.of_nat (length bytes) = ExpandedStructure.Size es
      ∧ WriteToDevice (S fuel) deviceName jsonString w
        = Ok (mkWorld (BindPayload bytes l') (defs w) (CurrentField w)
                (<[deviceName := DeviceDeclaration.set_ExpandedStructure
                                   (StringValue l (Caar l json)) es' device]> (devices w))
                (evals w)
                (wire w ++ [mkDriverWrite (DeviceDeclaration.Handle device)
                              (DeviceCommand.Cmd (DeviceApi.Write api))
                              (SerializePayload (DeviceApi.Write api) bytes
                                 (BindPayload bytes l'))
                              (uint32 (Z.of_nat (length
                                 (SerializePayload (DeviceApi.Write api) bytes
                                    (BindPayload bytes l')))))])).
Proof.
  intros L I fuel deviceName jsonString w device json l es api
    Hdev Hjson Hes Hapi Hlaid Hplain.
  assert (Forall (λ f, is_Some (defs w !! ExpandedField.FieldDefinition f))
            (ExpandedStructure.Fields es)) as Hdefs.
  { destruct Hlaid as [_ Hleaf]. eapply Forall_impl; [exact Hleaf|].
    intros f (fd & Hfd & _). eauto. }
  destruct (populate_json_total (defs w) _ (Cdar l json) Hdefs l) as (fields' & l' & Hpop).
  set (es' := ExpandedStructure.mk (ExpandedStructure.Name es) fields'
                (ExpandedStructure.Size es)).
  assert (PopulateFromJson (defs w) es (Cdar l json) l = Ok (es', l')) as Hpopulate.
  { unfold PopulateFromJson. by rewrite Hpop. }
  pose proof (PopulateFromJson_well_laid _ _ _ _ _ _ Hpopulate Hlaid) as Hlaid'.
  destruct (ByteArray_holds _ _ Hlaid') as (bytes & Hbytes & Hlen & _).
  exists es', l', bytes. split; [done|]. split; [done|]. split; [done|].
  unfold WriteToDevice. rewrite Hdev, Hjson, Hes, Hpopulate. cbn [mbind res_bind].
  unfold ExpandedStructure_Validate.
  rewrite validate_fields_plain; cbn [defs];
    [|by apply (plain_rule_same_place _ _ _ (populate_json_same_place _ _ _ _ _ _ Hpop))].
  cbn [mbind res_bind defs lisp CurrentField devices evals wire].
  rewrite Hbytes. cbn [mbind res_bind]. by rewrite Hapi.
Qed.

Lemma write_returns_on_plain_structure_witness :
  well_laid (defs ranged_world) (ranged_expanded 0)
  ∧ ∃ es' l' bytes,
      PopulateFromJson (I := plain_interpreter level_11 eval_nothing)
        ranged_heap (ranged_expanded 0) (json_object [("level", Number 11)]) ()
      = Ok (es', l')
      ∧ ByteArray ranged_heap es' = Ok bytes
      ∧ Z.of_nat (length bytes) = 1
      ∧ WriteToDevice (I := plain_interpreter level_11 eval_nothing)
          1 "lamp" EmptyString ranged_world
        = Ok (mkWorld l' ranged_heap None
                (<["lamp" := DeviceDeclaration.set_ExpandedStructure "set-level" es'
                               ranged_device]> {[ "lamp" := ranged_device ]})
                [] [mkDriverWrite 5 2 bytes (uint32 (Z.of_nat (length bytes)))]).
Proof.
  assert (well_laid (defs ranged_world) (ranged_expanded 0)) as Hlaid.
  { split; [cbn; lia|]. repeat constructor. eexists. split; reflexivity. }
  split; [exact Hlaid|].
  exact (write_returns_on_plain_structure unit (plain_interpreter level_11 eval_nothing)
           0 "lamp" EmptyString ranged_world ranged_device level_11 ()
           (ranged_expanded 0)
           (DeviceApi.mk "set-level" (DeviceCommand.mk 1) (DeviceCommand.mk 2))
           eq_refl eq_refl eq_refl eq_refl Hlaid eq_refl).
Defined.

Lemma expand_in_order (heap : list DeviceField.t) (Global : gmap string DeviceStructure.t)
    (fuel : nat) (order : list DeviceStructure.t) :
  NoDup (DeviceStructure.Name <$> order) →
  Forall (λ s, ∃ es, Expand heap Global fuel s = Ok es) order →
  ∀ self, ∃ self',
    DeviceDeclaration_Expand heap Global fuel order self = Ok self'
    ∧ DeviceDeclaration.Structures self' = DeviceDeclaration.Structures self
    ∧ DeviceDeclaration.Apis self' = DeviceDeclaration.Apis self
    ∧ (∀ s, s ∈ order →
         ∃ es, Expand heap Global fuel s = Ok es
               ∧ DeviceDeclaration.ExpandedStructures self' !! DeviceStructure.Name s
                 = Some es)
    ∧ (∀ k, k ∉ DeviceStructure.Name <$> order →
         DeviceDeclaration.ExpandedStructures self' !! k
         = DeviceDeclaration.ExpandedStructures self !! k).
Proof.
  unfold DeviceDeclaration_Expand.
  induction order as [|s rest IH]; intros Hnodup Hall self.
  { exists self. split; [done|]. split; [done|]. split; [done|]. split; [|done].
    intros s Hs. by apply elem_of_nil in Hs. }
  rewrite fmap_cons in Hnodup. apply NoDup_cons in Hnodup as [Hfresh Hnodup].
  apply Forall_cons in Hall as [[es Hes] Hall].
  cbn [for_each]. rewrite Hes. cbn [mbind res_bind].
  destruct (IH Hnodup Hall
              (DeviceDeclaration.set_ExpandedStructure (DeviceStructure.Name s) es self))
    as (self' & Hrun & Hstructs & Hapis & Hin & Hout).
  exists self'. split; [done|]. split; [done|]. split; [done|]. split.
  - intros s' Hs'. apply elem_of_cons in Hs' as [->|Hs']; [|by apply Hin].
    exists es. split; [done|]. rewrite (Hout _ Hfresh). cbn. by rewrite lookup_insert_eq.
  - intros k Hk. rewrite fmap_cons in Hk. apply not_elem_of_cons in Hk as [Hk1 Hk2].
    rewrite (Hout _ Hk2). cbn. by rewrite lookup_insert_ne.
Qed.

(** X22.  [DeviceDeclaration.Expand] does not depend on the order in which
    the map of structures is visited: when every structure is kept under its
    own name, as [AddStructure] keeps it, and the expansion of each returns,
    then in whatever order the structures come, [Expand] returns a device
    with the same structures and APIs, where every structure has its
    expansion under its name and the expanded structures of other names are
    as before. *)
Theorem declaration_expands_every_structure :
  ∀ (heap : list DeviceField.t) (Global : gmap string DeviceStructure.t) (fuel : nat)
    (self : DeviceDeclaration.t) (order : list DeviceStructure.t),
    order ≡ₚ (map_to_list (DeviceDeclaration.Structures self)).*2 →
    map_Forall (λ k s, DeviceStructure.Name s = k) (DeviceDeclaration.Structures self) →
    map_Forall (λ _ s, ∃ es, Expand heap Global fuel s = Ok es)
      (DeviceDeclaration.Structures self) →
    ∃ self',
      DeviceDeclaration_Expand heap Global fuel order self = Ok self'
      ∧ DeviceDeclaration.Structures self' = DeviceDeclaration.Structures self
      ∧ DeviceDeclaration.Apis self' = DeviceDeclaration.Apis self
      ∧ (∀ k s, DeviceDeclaration.Structures self !! k = Some s →
           ∃ es, Expand heap Global fuel s = Ok es
                 ∧ DeviceDeclaration.ExpandedStructures self' !! k = Some es)
      ∧ (∀ k, DeviceDeclaration.Structures self !! k = None →
           DeviceDeclaration.ExpandedStructures self' !! k
           = DeviceDeclaration.ExpandedStructures self !! k).
Proof.
  intros heap Global fuel self order Horder Hnames Hexpand.
  set (m := DeviceDeclaration.Structures self) in *.
  assert (∀ s, s ∈ order ↔ m !! DeviceStructure.Name s = Some s) as Hmem.
  { intros s. rewrite Horder, list_elem_of_fmap. split.
    - intros ([k s'] & -> & Hks). apply elem_of_map_to_list in Hks. cbn.
      by rewrite (Hnames _ _ Hks).
    - intros Hs. exists (DeviceStructure.Name s, s). split; [done|].
      by apply elem_of_map_to_list. }
  assert (DeviceStructure.Name <$> order ≡ₚ (map_to_list m).*1) as Hkeys.
  { rewrite Horder, <- list_fmap_compose.
    enough ((DeviceStructure.Name ∘ snd) <$> map_to_list m = (map_to_list m).*1) as ->
      by done.
    apply Forall_fmap_ext_1, Forall_forall. intros [k s] Hks. apply elem_of_map_to_list in Hks. cbn.
    exact (Hnames _ _ Hks). }
  destruct (expand_in_order heap Global fuel order) with (self := self)
    as (self' & Hrun & Hstructs & Hapis & Hin & Hout).
  { rewrite Hkeys. apply NoDup_fst_map_to_list. }
  { apply Forall_forall. intros s Hs. apply Hmem in Hs. exact (Hexpand _ _ Hs). }
  exists self'. split; [done|]. split; [done|]. split; [done|]. split.
  - intros k s Hks. pose proof (Hnames _ _ Hks) as Hname. cbn beta in Hname. subst k.
    apply Hin, Hmem, Hks.
  - intros k Hk. apply Hout. rewrite Hkeys. intros Hin'.
    apply list_elem_of_fmap in Hin' as ([k' s] & -> & Hks).
    apply elem_of_map_to_list in Hks. cbn in Hk. fold m in Hk. congruence.
Qed.

Lemma declaration_expands_every_structure_witness :
  [outer_struct; pair_struct]
    ≡ₚ (map_to_list (DeviceDeclaration.Structures nested_device)).*2
  ∧ ∃ self',
      DeviceDeclaration_Expand nested_heap nested_global 6 [outer_struct; pair_struct]
        nested_device = Ok self'
      ∧ DeviceDeclaration.Structures self' = DeviceDeclaration.Structures nested_device
      ∧ DeviceDeclaration.Apis self' = DeviceDeclaration.Apis nested_device
      ∧ (∀ k s, DeviceDeclaration.Structures nested_device !! k = Some s →
           ∃ es, Expand nested_heap nested_global 6 s = Ok es
                 ∧ DeviceDeclaration.ExpandedStructures self' !! k = Some es)
      ∧ (∀ k, DeviceDeclaration.Structures nested_device !! k = None →
           DeviceDeclaration.ExpandedStructures self' !! k
           = DeviceDeclaration.ExpandedStructures nested_device !! k).
Proof.
  assert ([outer_struct; pair_struct]
            ≡ₚ (map_to_list (DeviceDeclaration.Structures nested_device)).*2) as Horder.
  { unfold nested_device, AddStructure, NewDeviceNamed. cbn.
    rewrite insert_empty, map_to_list_insert by done.
    by rewrite map_to_list_singleton. }
  split; [exact Horder|].
  apply (declaration_expands_every_structure nested_heap nested_global 6 nested_device
           [outer_struct; pair_struct] Horder).
  - apply map_Forall_insert_2; [reflexivity|].
    apply map_Forall_insert_2; [reflexivity|]. apply map_Forall_empty.
  - apply map_Forall_insert_2; [eexists; reflexivity|].
    apply map_Forall_insert_2; [eexists; reflexivity|]. apply map_Forall_empty.
Defined.
